(** * stash.h: growable array, open-addressed u32 map and slot registry

    A shallow embedding of the single-header C library [stash.h] together
    with the properties its specification states about it.

    Modelling conventions.
    - [size_t] and [int64_t] values are integers in [Z]; the development
      assumes they stay below the word size (a buffer that large does not
      fit the address space).  [uint32_t] arithmetic is written with its
      wrap-around ([u32]), and the narrowing casts of the map code
      ([(int)index], [(uint32_t)index]) are written out.
    - A [void*] into the heap is a flat address in [Z] with [NULL = 0].  A
      container owns its buffer, so the [data] field is modelled as the
      pointed-to block: its address together with the slots it holds.  One
      slot holds one value of the element type [T]; [elem_size] is the
      number the caller passed for [sizeof(T)].
    - The allocator is an oracle: every call that may allocate takes the
      allocator's answer as an argument, either failure or a fresh address
      together with the indeterminate contents of the fresh memory.
    - Undefined behaviour (an access outside the owned block, a write
      through [NULL]) is the result [None]; so is a probe loop that runs
      out of fuel, which never happens (see [find_entry_loop_fuel] and
      [find_free_loop_fuel]).
    - The zero record of an array has [elem_size == 0], and so has every
      array grown from it.  Its slots are zero bytes wide: a request for
      [n * 0] bytes is a request for a block of no slots, and a copy of
      [elem_size] bytes to or from such a slot moves nothing (see
      [zero_width]).  When the allocator answers [NULL] the code keeps
      the record as it is, and so does the model; whether the allocator
      has then released the old block of a request for zero bytes is
      left to the implementation and is not followed.
    - The functions are state-passing: the container (or iterator) a C
      function updates in place is an argument and part of the result.
      The pointers to the containers and iterators themselves are not
      [NULL]; an output parameter is [None] for [NULL] and otherwise the
      current contents of the caller's variable. *)

From Stdlib Require Import ZArith Zbitwise Lia Bool.
From Stdlib Require Import Strings.Byte.
From stdpp Require Import base option list.

Local Open Scope Z_scope.

(** ** Common things *)

Definition STASH_ERROR_KEY_NOT_FOUND : Z := -3.
Definition STASH_ERROR_OUT_OF_BOUNDS : Z := -2.
Definition STASH_ERROR_OUT_OF_MEMORY : Z := -1.
Definition STASH_SUCCESS : Z := 0.
Definition STASH_EMPTY : Z := 1.
Definition STASH_KEY_EXISTS : Z := 2.

Definition NULL : Z := 0.

(** [stash_it]: three untyped pointers. *)
Record stash_it := It { curr : Z; prev : Z; next : Z }.

Definition set_curr (it : stash_it) (p : Z) : stash_it := It p (prev it) (next it).
Definition set_prev (it : stash_it) (p : Z) : stash_it := It (curr it) p (next it).
Definition set_next (it : stash_it) (p : Z) : stash_it := It (curr it) (prev it) p.

(** ** Memory *)

(** An allocated block: where it lives and what its slots hold. *)
Record block (T : Type) := Block { base : positive; cells : list T }.
Arguments Block {T} base cells.
Arguments base {T} b.
Arguments cells {T} b.

(** What the allocator answers to one request. *)
Inductive alloc_result (T : Type) :=
| AllocFail
| AllocOk (p : positive) (junk : nat -> T).
Arguments AllocFail {T}.
Arguments AllocOk {T} p junk.

(** What [memset(_, 0, sizeof(T))] leaves in a slot, and [memcmp] on slots. *)
Class Elem (T : Type) := {
  elem_zero : T;
  elem_eq_dec :: EqDecision T
}.

Section Memory.
Context {T : Type}.

Definition fresh_cells (junk : nat -> T) (from n : nat) : list T :=
  map junk (seq from n).

(** [STASH_MALLOC(sz)] for slots of [es] bytes. *)
Definition STASH_MALLOC (sz es : Z) (r : alloc_result T) : option (block T) :=
  match r with
  | AllocFail => None
  | AllocOk p junk => Some (Block p (fresh_cells junk 0 (Z.to_nat (sz / es))))
  end.

(** [STASH_REALLOC(old, sz)]: the old contents are kept up to the new
    size, the rest is fresh.  A request for zero bytes is answered like
    any other, with [NULL] or with the address of a block of no slots
    (the slots of a zero record are zero bytes wide, and [0 / 0] is 0). *)
Definition STASH_REALLOC (old : option (block T)) (sz es : Z)
    (r : alloc_result T) : option (block T) :=
  match r with
  | AllocFail => None
  | AllocOk p junk =>
      let n := Z.to_nat (sz / es) in
      let keep := match old with Some b => cells b | None => [] end in
      Some (Block p (take n (keep ++ fresh_cells junk (length keep) (n - length keep))))
  end.

Definition in_block (cs : list T) (i n : Z) : bool :=
  (0 <=? i) && (i + n <=? Z.of_nat (length cs)).

(** [*(T* )(p + i)] *)
Definition load (cs : list T) (i : Z) : option T :=
  if in_block cs i 1 then cs !! Z.to_nat i else None.

(** [memcpy(p + i, &v, sizeof(T))] *)
Definition store (cs : list T) (i : Z) (v : T) : option (list T) :=
  if in_block cs i 1 then Some (<[Z.to_nat i := v]> cs) else None.

(** [memmove(p + di, p + si, n)] inside one block. *)
Definition memmove (cs : list T) (di si n : Z) : option (list T) :=
  if n <=? 0 then Some cs
  else if in_block cs di n && in_block cs si n
  then Some (take (Z.to_nat di) cs ++ take (Z.to_nat n) (drop (Z.to_nat si) cs)
               ++ drop (Z.to_nat (di + n)) cs)
  else None.

(** [memcpy(p + di, src, n)] from a buffer of the caller. *)
Definition memcpy (cs : list T) (di : Z) (src : list T) (n : Z) : option (list T) :=
  if n <=? 0 then Some cs
  else if in_block cs di n && in_block src 0 n
  then Some (take (Z.to_nat di) cs ++ take (Z.to_nat n) src
               ++ drop (Z.to_nat (di + n)) cs)
  else None.

(** [n] consecutive stores of [v] from slot [i] on. *)
Fixpoint store_loop (n : nat) (cs : list T) (i : Z) (v : T) : option (list T) :=
  match n with
  | O => Some cs
  | S n' => cs' ← store cs i v; store_loop n' cs' (i + 1) v
  end.

(** [memcmp(a, b, n) == 0] *)
Definition memcmp_eq `{EqDecision T} (a b : list T) (n : Z) : option bool :=
  if n <=? 0 then Some true
  else if in_block a 0 n && in_block b 0 n
  then Some (bool_decide (take (Z.to_nat n) a = take (Z.to_nat n) b))
  else None.
End Memory.

(** A copy of [k * es] bytes to or from slots of [es] bytes.  Where the
    slots lie in their block, [access] is what the copy leaves.  Where
    they do not, the copy is undefined, unless the slots are zero bytes
    wide: then no byte is moved and [unchanged] is what it leaves.  A
    block of [n * 0] bytes holds no slot, so in the arrays that the
    functions build every copy of zero bytes is of the second kind (see
    [arr_shape]). *)
Definition zero_width {A} (es : Z) (unchanged : A) (access : option A) : option A :=
  match access with
  | Some x => Some x
  | None => if es =? 0 then Some unchanged else None
  end.

(** ** Utils *)

Definition u_stash_next_po2_u64 (x : Z) : Z :=
  if x =? 0 then 1
  else if Z.land x (x - 1) =? 0 then Z.shiftl x 1
  else
    let x := x - 1 in
    let x := Z.lor x (Z.shiftr x 1) in
    let x := Z.lor x (Z.shiftr x 2) in
    let x := Z.lor x (Z.shiftr x 4) in
    let x := Z.lor x (Z.shiftr x 8) in
    let x := Z.lor x (Z.shiftr x 16) in
    let x := Z.lor x (Z.shiftr x 32) in
    let x := x + 1 in
    x.

(** ** Array *)

Record stash_arr (T : Type) := Arr {
  data : option (block T);
  count : Z;
  capacity : Z;
  elem_size : Z
}.
Arguments Arr {T} data count capacity elem_size.
Arguments data {T} s.
Arguments count {T} s.
Arguments capacity {T} s.
Arguments elem_size {T} s.

Section Array.
Context {T : Type} `{!Elem T}.

Definition zero_arr : stash_arr T := Arr None 0 0 0.

(** The slots behind [array->data] (none behind [NULL]). *)
Definition arr_cells (a : stash_arr T) : list T :=
  match data a with Some d => cells d | None => [] end.

(** [array->data] as an address. *)
Definition data_ptr (a : stash_arr T) : Z :=
  match data a with Some d => Z.pos (base d) | None => NULL end.

Definition with_cells (a : stash_arr T) (cs : list T) : stash_arr T :=
  match data a with
  | Some d => Arr (Some (Block (base d) cs)) (count a) (capacity a) (elem_size a)
  | None => a
  end.

Definition with_count (a : stash_arr T) (n : Z) : stash_arr T :=
  Arr (data a) n (capacity a) (elem_size a).

Definition stash_arr_create (capacity elem_size : Z) (r : alloc_result T)
    : stash_arr T :=
  if (capacity =? 0) || (elem_size =? 0) then zero_arr
  else match STASH_MALLOC (capacity * elem_size) elem_size r with
       | None => zero_arr
       | Some d => Arr (Some d) 0 capacity elem_size
       end.

Definition stash_arr_destroy (a : stash_arr T) : stash_arr T := zero_arr.

Definition stash_arr_copy (src : stash_arr T) (r : alloc_result T)
    : option (stash_arr T) :=
  let size := count src * elem_size src in
  if size =? 0 then Some zero_arr
  else match STASH_MALLOC size (elem_size src) r with
       | None => Some zero_arr
       | Some d =>
           cs ← memcpy (cells d) 0 (arr_cells src) (count src);
           Some (Arr (Some (Block (base d) cs)) (count src) (count src) (elem_size src))
       end.

Definition stash_arr_is_valid (a : stash_arr T) : bool :=
  match data a with Some _ => true | None => false end
  && (capacity a >? 0) && (elem_size a >? 0).

Definition stash_arr_is_empty (a : stash_arr T) : bool := count a =? 0.

Definition stash_arr_reserve (a : stash_arr T) (newCapacity : Z)
    (r : alloc_result T) : option (Z * stash_arr T) :=
  if capacity a >=? newCapacity then Some (STASH_SUCCESS, a)
  else match STASH_REALLOC (data a) (newCapacity * elem_size a) (elem_size a) r with
       | None => Some (STASH_ERROR_OUT_OF_MEMORY, a)
       | Some d => Some (STASH_SUCCESS, Arr (Some d) (count a) newCapacity (elem_size a))
       end.

(** [realloc] down to [count] slots.  The first exit returns the literal
    [1], which is also the value of [STASH_EMPTY]. *)
Definition stash_arr_shrink_to_fit (a : stash_arr T) (r : alloc_result T)
    : option (Z * stash_arr T) :=
  if count a =? capacity a then Some (1, a)
  else if count a =? 0 then Some (STASH_EMPTY, a)
  else match STASH_REALLOC (data a) (count a * elem_size a) (elem_size a) r with
       | None => Some (STASH_ERROR_OUT_OF_MEMORY, a)
       | Some d => Some (STASH_SUCCESS, Arr (Some d) (count a) (count a) (elem_size a))
       end.


(** The growth step shared by the push functions:
    [if (count >= capacity) { reserve(next_po2(count + 1)); if (ret < 0) return ret; }] *)
Definition grow_for_push (a : stash_arr T) (r : alloc_result T)
    : option (Z * stash_arr T) :=
  if count a >=? capacity a
  then let newSize := u_stash_next_po2_u64 (count a + 1) in
       stash_arr_reserve a newSize r
  else Some (STASH_SUCCESS, a).

Definition stash_arr_resize (a : stash_arr T) (size : Z) (element : option T)
    (r : alloc_result T) : option (Z * stash_arr T) :=
  if size <=? count a then Some (STASH_SUCCESS, with_count a size)
  else
    '(ret, a) ← (if size >=? capacity a then stash_arr_reserve a size r
                 else Some (STASH_SUCCESS, a));
    if ret <? 0 then Some (ret, a)
    else
      cs ← zero_width (elem_size a) (arr_cells a)
             (store_loop (Z.to_nat (size - count a)) (arr_cells a) (count a)
                (match element with Some e => e | None => elem_zero end));
      Some (STASH_SUCCESS, with_count (with_cells a cs) size).

(** The loop [for (ptr = data; ptr < end; ptr += elem_size)] with
    [end = data + capacity * elem_size] runs once per slot of the
    capacity, and not at all when [elem_size] is 0.  [src] is the
    caller's value ([None] for [NULL]), read once per iteration. *)
Definition stash_arr_fill (a : stash_arr T) (src : option T)
    : option (stash_arr T) :=
  let n := if elem_size a =? 0 then 0 else capacity a in
  cs ← match src with
       | Some e => store_loop (Z.to_nat n) (arr_cells a) 0 e
       | None => if n >? 0 then None else Some (arr_cells a)
       end;
  Some (with_count (with_cells a cs) (capacity a)).

Definition stash_arr_insert (a : stash_arr T) (index : Z) (elements : list T)
    (n : Z) (r : alloc_result T) : option (Z * stash_arr T) :=
  if index >? count a then Some (STASH_ERROR_OUT_OF_BOUNDS, a)
  else
    let newSize := count a + n in
    '(ret, newSize, a) ←
      (if newSize >? capacity a
       then let newSize := u_stash_next_po2_u64 newSize in
            '(ret, a') ← stash_arr_reserve a newSize r;
            Some (ret, newSize, a')
       else Some (STASH_SUCCESS, newSize, a));
    if ret <? 0 then Some (ret, a)
    else
      (* destination = data + (index + n), source = data + index *)
      cs ← zero_width (elem_size a) (arr_cells a)
             (memmove (arr_cells a) (index + n) index (count a - index));
      (* target = data + index *)
      cs ← zero_width (elem_size a) cs (memcpy cs index elements n);
      Some (STASH_SUCCESS, with_count (with_cells a cs) newSize).

(** [(char* )p + n]: addresses wrap around at the word size. *)
Definition ptr_add (p n : Z) : Z := (p + n) mod 2 ^ 64.

Definition stash_arr_begin (a : stash_arr T) : stash_it :=
  let it := It NULL NULL NULL in
  if count a =? 0 then it
  else
    let it := set_curr it (data_ptr a) in
    if count a >? 1 then set_next it (ptr_add (curr it) (elem_size a)) else it.


Definition stash_arr_next (a : stash_arr T) (it : stash_it) : stash_it :=
  let it := if next it =? NULL
            then set_curr (set_prev it (curr it)) NULL
            else it in
  let prv := curr it in
  let it := set_curr it (next it) in
  let it := set_prev it prv in
  let it := set_next it (ptr_add (curr it) (elem_size a)) in
  if next it >=? ptr_add (data_ptr a) (count a * elem_size a)
  then set_next it NULL else it.

Definition stash_arr_end (a : stash_arr T) : stash_it :=
  let it := It NULL NULL NULL in
  if count a =? 0 then it
  else
    let it := set_curr it (ptr_add (data_ptr a) ((count a - 1) * elem_size a)) in
    if count a =? 1 then it
    else set_prev it (ptr_add (curr it) (- elem_size a)).



(** A pointer into the array is the index of the slot it addresses;
    [None] is [NULL]. *)
Definition stash_arr_at (a : stash_arr T) (index : Z) : option Z :=
  if index >=? count a then None else Some index.

(** The address of slot [index]. *)
Definition slot_ptr (a : stash_arr T) (index : Z) : Z :=
  ptr_add (data_ptr a) (index * elem_size a).

Definition stash_arr_push_back (a : stash_arr T) (element : option T)
    (r : alloc_result T) : option (Z * stash_arr T) :=
  '(ret, a) ← grow_for_push a r;
  if ret <? 0 then Some (ret, a)
  else
    cs ← zero_width (elem_size a) (arr_cells a)
           (store (arr_cells a) (count a)
              (match element with Some e => e | None => elem_zero end));
    Some (STASH_SUCCESS, with_count (with_cells a cs) (count a + 1)).


Definition stash_arr_push_at (a : stash_arr T) (index : Z) (element : option T)
    (r : alloc_result T) : option (Z * stash_arr T) :=
  if index >=? count a then Some (STASH_ERROR_OUT_OF_BOUNDS, a)
  else
    '(ret, a) ← grow_for_push a r;
    if ret <? 0 then Some (ret, a)
    else
      (* destination = data + index, source = data + index *)
      let destination := index in
      let source := index in
      cs ← zero_width (elem_size a) (arr_cells a)
             (memmove (arr_cells a) destination source (count a - index));
      cs ← zero_width (elem_size a) cs
             (store cs source
                (match element with Some e => e | None => elem_zero end));
      Some (STASH_SUCCESS, with_count (with_cells a cs) (count a + 1)).

(** [element] is the caller's variable ([None] for [NULL]); it comes
    back with what was copied into it. *)
Definition stash_arr_pop_back (a : stash_arr T) (element : option T)
    : option (Z * stash_arr T * option T) :=
  if count a =? 0 then Some (STASH_EMPTY, a, element)
  else
    let a := with_count a (count a - 1) in
    match element with
    | Some old =>
        v ← zero_width (elem_size a) old (load (arr_cells a) (count a));
        Some (STASH_SUCCESS, a, Some v)
    | None => Some (STASH_SUCCESS, a, None)
    end.

Definition stash_arr_pop_front (a : stash_arr T) (element : option T)
    : option (Z * stash_arr T * option T) :=
  if count a =? 0 then Some (STASH_EMPTY, a, element)
  else
    element ← match element with
              | Some old =>
                  Some <$> zero_width (elem_size a) old (load (arr_cells a) 0)
              | None => Some None
              end;
    (* destination = data, source = data + elem_size *)
    cs ← zero_width (elem_size a) (arr_cells a)
           (memmove (arr_cells a) 0 1 (count a - 1));
    Some (STASH_SUCCESS, with_count (with_cells a cs) (count a - 1), element).

Definition stash_arr_pop_at (a : stash_arr T) (index : Z) (element : option T)
    : option (Z * stash_arr T * option T) :=
  if index >=? count a then Some (STASH_ERROR_OUT_OF_BOUNDS, a, element)
  else
    element ← match element with
              | Some old =>
                  Some <$> zero_width (elem_size a) old (load (arr_cells a) index)
              | None => Some None
              end;
    (* destination = data + index, sourceStart = data + (index + 1) *)
    cs ← zero_width (elem_size a) (arr_cells a)
           (memmove (arr_cells a) index (index + 1) (count a - index - 1));
    Some (STASH_SUCCESS, with_count (with_cells a cs) (count a - 1), element).

Definition stash_arr_compare (a b : stash_arr T) : option bool :=
  if negb (count a =? count b) || negb (elem_size a =? elem_size b) then Some false
  else zero_width (elem_size a) true
         (memcmp_eq (arr_cells a) (arr_cells b) (count a)).
End Array.

(** ** Table *)

(** [uint32_t] wrap-around, and the narrowing casts the table code uses. *)
Definition u32 (x : Z) : Z := x mod 2 ^ 32.
Definition to_int (x : Z) : Z := (x + 2 ^ 31) mod 2 ^ 32 - 2 ^ 31.
Definition to_size_t (x : Z) : Z := x mod 2 ^ 64.

Record stash_umap_entry := Entry {
  key : Z;
  value : option (block byte);
  occupied : bool
}.

(** [sizeof(stash_umap_entry)] on an LP64 target. *)
Definition sizeof_stash_umap_entry : Z := 24.
Definition sizeof_uint32_t : Z := 4.
Definition sizeof_bool : Z := 1.

#[export] Instance byte_eq_dec : EqDecision byte := Byte.byte_eq_dec.
#[export] Instance block_eq_dec {T} `{EqDecision T} : EqDecision (block T).
Proof. solve_decision. Defined.
#[export] Instance stash_umap_entry_eq_dec : EqDecision stash_umap_entry.
Proof. solve_decision. Defined.

#[export] Instance Elem_byte : Elem byte := {| elem_zero := x00 |}.
#[export] Instance Elem_bool : Elem bool := {| elem_zero := false |}.
#[export] Instance Elem_u32 : Elem Z := {| elem_zero := 0 |}.
(** [stash_umap_entry default_entry = { 0 }] *)
#[export] Instance Elem_entry : Elem stash_umap_entry :=
  {| elem_zero := Entry 0 None false |}.

Record stash_umap := Umap {
  buckets : stash_arr stash_umap_entry;
  umap_count : Z;
  value_size : Z
}.

Definition with_buckets (t : stash_umap) (b : stash_arr stash_umap_entry) : stash_umap :=
  Umap b (umap_count t) (value_size t).

Definition u_stash_umap_hash_u32 (key capacity : Z) : Z :=
  let key := Z.lxor key (Z.shiftr key 16) in
  let key := u32 (key * 0x85ebca6b) in
  let key := Z.lxor key (Z.shiftr key 13) in
  let key := u32 (key * 0xc2b2ae35) in
  let key := Z.lxor key (Z.shiftr key 16) in
  key mod capacity.

Definition stash_umap_is_valid (t : stash_umap) : bool :=
  stash_arr_is_valid (buckets t).

(** The body of the [do ... while (index != original_index)] loop of
    [u_stash_find_entry_index]; one unit of fuel per iteration. *)
Fixpoint find_entry_loop (fuel : nat) (b : stash_arr stash_umap_entry)
    (k capacity original_index index : Z) : option Z :=
  match fuel with
  | O => None
  | S fuel =>
      let continue :=
        let index := (index + 1) mod capacity in
        if index =? original_index then Some (-1)
        else find_entry_loop fuel b k capacity original_index index in
      match stash_arr_at b index with
      | Some p =>
          entry ← load (arr_cells b) p;
          if occupied entry && (key entry =? k) then Some index
          else if negb (occupied entry) then Some (-1)
          else continue
      | None => continue
      end
  end.

Definition u_stash_find_entry_index (t : stash_umap) (k : Z) : option Z :=
  if negb (stash_umap_is_valid t) || (count (buckets t) =? 0) then Some (-1)
  else
    let capacity := count (buckets t) in
    let index := u_stash_umap_hash_u32 k capacity in
    find_entry_loop (Z.to_nat capacity) (buckets t) k capacity index index.

Fixpoint find_free_loop (fuel : nat) (b : stash_arr stash_umap_entry)
    (k capacity original_index index : Z) : option Z :=
  match fuel with
  | O => None
  | S fuel =>
      let continue :=
        let index := (index + 1) mod capacity in
        if index =? original_index then Some (-1)
        else find_free_loop fuel b k capacity original_index index in
      match stash_arr_at b index with
      | Some p =>
          entry ← load (arr_cells b) p;
          if negb (occupied entry) then Some (to_int index)
          else if key entry =? k then Some (-2)
          else continue
      | None => continue
      end
  end.

Definition u_stash_find_free_slot (t : stash_umap) (k : Z) : option Z :=
  if negb (stash_umap_is_valid t) || (count (buckets t) =? 0) then Some (-1)
  else
    let capacity := count (buckets t) in
    let index := u_stash_umap_hash_u32 k capacity in
    find_free_loop (Z.to_nat capacity) (buckets t) k capacity index index.

(** The second answer is for the [reserve] inside [resize], which the
    capacity just allocated never lets reach the allocator. *)
Definition stash_umap_create (initialCapacity value_size : Z)
    (r r' : alloc_result stash_umap_entry) : option stash_umap :=
  let actual_capacity := if initialCapacity >? 0 then initialCapacity else 16 in
  let buckets := stash_arr_create actual_capacity sizeof_stash_umap_entry r in
  if stash_arr_is_valid buckets
  then
    let default_entry := Entry 0 None false in
    '(_, buckets) ← stash_arr_resize buckets initialCapacity (Some default_entry) r';
    Some (Umap buckets 0 value_size)
  else Some (Umap buckets 0 value_size).

(** The status of the inner [stash_arr_reserve] is dropped. *)
Definition stash_umap_reserve (t : stash_umap) (newCapacity : Z)
    (rb : alloc_result stash_umap_entry) : option (Z * stash_umap) :=
  if negb (stash_umap_is_valid t) || (newCapacity <? umap_count t)
  then Some (STASH_ERROR_OUT_OF_MEMORY, t)
  else
    '(_, b) ← stash_arr_reserve (buckets t) newCapacity rb;
    Some (STASH_SUCCESS, with_buckets t b).

(** The value buffers are freed with the buckets that own them. *)
Definition stash_umap_destroy (t : stash_umap) : stash_umap :=
  if negb (stash_umap_is_valid t) then t
  else Umap (stash_arr_destroy (buckets t)) 0 0.

Definition stash_umap_is_empty (t : stash_umap) : bool :=
  negb (stash_umap_is_valid t) || (umap_count t =? 0).

(** The bytes behind [entry->value]. *)
Definition value_bytes (e : stash_umap_entry) : list byte :=
  match value e with Some d => cells d | None => [] end.

(** The growth step of [stash_umap_insert]:
    [if (count + 1 >= capacity) stash_arr_reserve(&buckets, next_po2(count + 1));]
    whose status is not looked at. *)
Definition reserve_for_insert (b : stash_arr stash_umap_entry)
    (rb : alloc_result stash_umap_entry) : option (stash_arr stash_umap_entry) :=
  if count b + 1 >=? capacity b
  then let newSize := u_stash_next_po2_u64 (count b + 1) in
       snd <$> stash_arr_reserve b newSize rb
  else Some b.

Definition stash_umap_insert (t : stash_umap) (k : Z) (v : option (list byte))
    (rb : alloc_result stash_umap_entry) (rv : alloc_result byte)
    : option (Z * stash_umap) :=
  match v with
  | None => Some (STASH_ERROR_OUT_OF_MEMORY, t)
  | Some v =>
      if negb (stash_umap_is_valid t) then Some (STASH_ERROR_OUT_OF_MEMORY, t)
      else
        b ← reserve_for_insert (buckets t) rb;
        let t := with_buckets t b in
        slot_index ← u_stash_find_free_slot t k;
        if slot_index =? -2 then Some (STASH_KEY_EXISTS, t)
        else if slot_index =? -1 then Some (STASH_ERROR_OUT_OF_MEMORY, t)
        else
          match STASH_MALLOC (value_size t) 1 rv with
          | None => Some (STASH_ERROR_OUT_OF_MEMORY, t)
          | Some value_copy =>
              bytes ← memcpy (cells value_copy) 0 v (value_size t);
              p ← stash_arr_at (buckets t) (to_size_t slot_index);
              cs ← store (arr_cells (buckets t)) p
                     (Entry k (Some (Block (base value_copy) bytes)) true);
              Some (STASH_SUCCESS,
                    Umap (with_cells (buckets t) cs) (umap_count t + 1) (value_size t))
          end
  end.

Definition stash_umap_remove (t : stash_umap) (k : Z) (element : option (list byte))
    : option (Z * stash_umap * option (list byte)) :=
  if negb (stash_umap_is_valid t) then Some (STASH_ERROR_KEY_NOT_FOUND, t, element)
  else
    index ← u_stash_find_entry_index t k;
    if index <? 0 then Some (STASH_ERROR_KEY_NOT_FOUND, t, element)
    else
      p ← stash_arr_at (buckets t) (u32 index);
      entry ← load (arr_cells (buckets t)) p;
      element ← match element with
                | Some out => Some <$> memcpy out 0 (value_bytes entry) (value_size t)
                | None => Some None
                end;
      cs ← store (arr_cells (buckets t)) p (Entry (key entry) None false);
      Some (STASH_SUCCESS,
            Umap (with_cells (buckets t) cs) (umap_count t - 1) (value_size t),
            element).

Definition stash_umap_get (t : stash_umap) (k : Z) (element : option (list byte))
    : option (Z * option (list byte)) :=
  match element with
  | None => Some (STASH_ERROR_KEY_NOT_FOUND, None)
  | Some out =>
      if negb (stash_umap_is_valid t) then Some (STASH_ERROR_KEY_NOT_FOUND, element)
      else
        index ← u_stash_find_entry_index t k;
        if index <? 0 then Some (STASH_ERROR_KEY_NOT_FOUND, element)
        else
          p ← stash_arr_at (buckets t) (u32 index);
          entry ← load (arr_cells (buckets t)) p;
          out ← memcpy out 0 (value_bytes entry) (value_size t);
          Some (STASH_SUCCESS, Some out)
  end.

Definition stash_umap_contains (t : stash_umap) (k : Z) : option bool :=
  if negb (stash_umap_is_valid t) then Some false
  else index ← u_stash_find_entry_index t k; Some (index >=? 0).

(** The loop of [stash_umap_clear] from bucket [i] on: an occupied
    bucket loses its value buffer and its flag, and keeps its key. *)
Fixpoint clear_loop (n : nat) (b : stash_arr stash_umap_entry) (i : Z)
    : option (stash_arr stash_umap_entry) :=
  match n with
  | O => Some b
  | S n =>
      b ← match stash_arr_at b i with
          | Some p =>
              entry ← load (arr_cells b) p;
              if occupied entry
              then cs ← store (arr_cells b) p (Entry (key entry) None false);
                   Some (with_cells b cs)
              else Some b
          | None => Some b
          end;
      clear_loop n b (i + 1)
  end.

Definition stash_umap_clear (t : stash_umap) : option stash_umap :=
  if negb (stash_umap_is_valid t) then Some t
  else
    b ← clear_loop (Z.to_nat (count (buckets t))) (buckets t) 0;
    Some (Umap b 0 (value_size t)).

Definition stash_umap_count (t : stash_umap) : Z :=
  if stash_umap_is_valid t then umap_count t else 0.

(** ** Registry *)

Record stash_reg (T : Type) := Reg {
  elements : stash_arr T;
  valid_flags : stash_arr bool;
  free_ids : stash_arr Z;
  next_id : Z;
  reg_elem_size : Z
}.
Arguments Reg {T} elements valid_flags free_ids next_id reg_elem_size.
Arguments elements {T} s.
Arguments valid_flags {T} s.
Arguments free_ids {T} s.
Arguments next_id {T} s.
Arguments reg_elem_size {T} s.

Section Registry.
Context {T : Type} `{!Elem T}.

Definition stash_reg_create (capacity elem_size : Z)
    (rf : alloc_result Z) (rv : alloc_result bool) (re : alloc_result T)
    : stash_reg T :=
  let free_ids := stash_arr_create capacity sizeof_uint32_t rf in
  let valid_flags := stash_arr_create capacity sizeof_bool rv in
  let elements := stash_arr_create capacity elem_size re in
  Reg elements valid_flags free_ids 1 elem_size.

(** [next_id] and [elem_size] are left as they are. *)
Definition stash_reg_destroy (reg : stash_reg T) : stash_reg T :=
  Reg (stash_arr_destroy (elements reg)) (stash_arr_destroy (valid_flags reg))
      (stash_arr_destroy (free_ids reg)) (next_id reg) (reg_elem_size reg).

Definition stash_reg_is_valid (reg : stash_reg T) : bool :=
  stash_arr_is_valid (valid_flags reg)
  && stash_arr_is_valid (elements reg)
  && stash_arr_is_valid (free_ids reg).

(** [((bool* )reg->valid_flags.data)[id - 1]] is read without a bounds
    check. *)
Definition stash_reg_exists (reg : stash_reg T) (id : Z) : option bool :=
  if (id =? 0) || (id >=? next_id reg) then Some false
  else load (arr_cells (valid_flags reg)) (u32 (id - 1)).

(** [memcpy(elem, element, reg->elem_size)] or
    [memset(elem, 0, reg->elem_size)] through the pointer [elem] into
    [reg->elements]: a store of one [T] when the registry and its
    element array agree on the element size, and nothing at all when
    [reg->elem_size] is 0. *)
Definition write_element (reg : stash_reg T) (elem : option Z) (element : option T)
    : option (list T) :=
  p ← elem;
  zero_width (reg_elem_size reg) (arr_cells (elements reg))
    (if reg_elem_size reg =? elem_size (elements reg)
     then store (arr_cells (elements reg)) p
            (match element with Some e => e | None => elem_zero end)
     else None).

Definition stash_reg_push (reg : stash_reg T) (element : option T)
    (re : alloc_result T) (rv : alloc_result bool) : option (Z * stash_reg T) :=
  let id := 0 in
  '(id, reg) ←
    (if count (free_ids reg) >? 0
     then
       '(_, fi, out) ← stash_arr_pop_back (free_ids reg) (Some id);
       Some (default id out,
             Reg (elements reg) (valid_flags reg) fi (next_id reg) (reg_elem_size reg))
     else
       '(_, els) ← stash_arr_push_back (elements reg) None re;
       '(_, vf) ← stash_arr_push_back (valid_flags reg) (Some true) rv;
       Some (next_id reg,
             Reg els vf (free_ids reg) (u32 (next_id reg + 1)) (reg_elem_size reg)));
  let elem := stash_arr_at (elements reg) (u32 (id - 1)) in
  cs ← write_element reg elem element;
  fl ← store (arr_cells (valid_flags reg)) (u32 (id - 1)) true;
  Some (id, Reg (with_cells (elements reg) cs) (with_cells (valid_flags reg) fl)
              (free_ids reg) (next_id reg) (reg_elem_size reg)).

Definition stash_reg_pop (reg : stash_reg T) (id : Z) (element : option T)
    (rf : alloc_result Z) : option (bool * stash_reg T * option T) :=
  ex ← stash_reg_exists reg id;
  if negb ex then Some (false, reg, element)
  else
    element ← match element with
              | Some old =>
                  elem ← stash_arr_at (elements reg) (u32 (id - 1));
                  Some <$> zero_width (reg_elem_size reg) old
                             (if reg_elem_size reg =? elem_size (elements reg)
                              then load (arr_cells (elements reg)) elem
                              else None)
              | None => Some None
              end;
    '(_, fi) ← stash_arr_push_back (free_ids reg) (Some id) rf;
    fl ← store (arr_cells (valid_flags reg)) (u32 (id - 1)) false;
    Some (true,
          Reg (elements reg) (with_cells (valid_flags reg) fl) fi
            (next_id reg) (reg_elem_size reg),
          element).

(** [None] is [NULL]; otherwise the slot of the element. *)
Definition stash_reg_get (reg : stash_reg T) (id : Z) : option (option Z) :=
  ex ← stash_reg_exists reg id;
  if negb ex then Some None
  else Some (stash_arr_at (elements reg) (u32 (id - 1))).

Definition stash_reg_get_alloc_count (reg : stash_reg T) : Z :=
  u32 (count (elements reg)).
End Registry.

(** ** Well-formed containers and sample values *)

(** A valid array ([stash_arr_is_valid]) whose record describes its
    buffer: [capacity] slots are allocated and the live ones are among
    them. *)
Definition wf_arr {T} (a : stash_arr T) : Prop :=
  stash_arr_is_valid a = true
  ∧ 0 <= count a <= capacity a
  ∧ Z.of_nat (length (arr_cells a)) = capacity a.

(** An empty array of four [uint32_t] slots, as [stash_arr_create] makes it. *)
Definition sample_empty : stash_arr Z :=
  stash_arr_create 4 4 (AllocOk 4096 (fun _ => 0)).

(** An array of two [uint32_t] slots. *)
Definition sample_small : stash_arr Z :=
  stash_arr_create 2 4 (AllocOk 4096 (fun _ => 0)).

(** [10, 20] in a full array of capacity two. *)
Definition sample_full : stash_arr Z := Arr (Some (Block 4096 [10; 20])) 2 2 4.

(** [10, 20, 30] in an array of capacity four. *)
Definition sample_three : stash_arr Z := Arr (Some (Block 4096 [10; 20; 30; 0])) 3 4 4.

(** A valid table whose bucket indices fit the [int] that
    [u_stash_find_free_slot] returns them in. *)
Definition wf_umap (t : stash_umap) : Prop :=
  wf_arr (buckets t) ∧ count (buckets t) <= 2 ^ 31.

(** Bucket [i] of the table, when it is one of the [buckets.count]. *)
Definition bucket (t : stash_umap) (i : Z) : option stash_umap_entry :=
  if (0 <=? i) && (i <? count (buckets t)) then load (arr_cells (buckets t)) i
  else None.

Definition all_occupied (t : stash_umap) : Prop :=
  ∀ i, 0 <= i < count (buckets t) →
       ∃ e, bucket t i = Some e ∧ occupied e = true.

(** Some occupied bucket holds the key. *)
Definition key_stored (t : stash_umap) (k : Z) : Prop :=
  ∃ i e, bucket t i = Some e ∧ occupied e = true ∧ key e = k.

(** One [stash_umap_insert] after the other; the status of each is kept. *)
Fixpoint stash_umap_insert_seq (t : stash_umap)
    (reqs : list (Z * option (list byte)
                  * alloc_result stash_umap_entry * alloc_result byte))
    : option (list Z * stash_umap) :=
  match reqs with
  | [] => Some ([], t)
  | (k, v, rb, rv) :: reqs =>
      '(st, t) ← stash_umap_insert t k v rb rv;
      '(sts, t) ← stash_umap_insert_seq t reqs;
      Some (st :: sts, t)
  end.

(** The record describes the buffer: [capacity] slots, the live ones
    among them. *)
Definition arr_inv {A} `{!Elem A} (a : stash_arr A) : Prop :=
  0 <= count a <= capacity a ∧ Z.of_nat (length (arr_cells a)) = capacity a.

(** What every array satisfies that the array functions build, the zero
    record and what grows from it included: [data] is [NULL] exactly
    when [capacity] is 0, and the buffer holds [capacity] slots, which
    are no bytes at all when [elem_size] is 0. *)
Definition arr_shape {A} (a : stash_arr A) : Prop :=
  0 <= count a <= capacity a
  ∧ (data a ≠ None ↔ 0 < capacity a)
  ∧ ((elem_size a ≠ 0 ∧ Z.of_nat (length (arr_cells a)) = capacity a)
     ∨ (elem_size a = 0 ∧ arr_cells a = [])).

Section RegistryInvariant.
Context {T : Type} `{!Elem T}.

(** The stack of retired identifiers, bottom first. *)
Definition free_list (reg : stash_reg T) : list Z :=
  take (Z.to_nat (count (free_ids reg))) (arr_cells (free_ids reg)).

(** [valid_flags[id - 1]] *)
Definition flag (reg : stash_reg T) (id : Z) : option bool :=
  load (arr_cells (valid_flags reg)) (id - 1).

(** The invariant of the specification.  The [free_ids] stack has
    [free_ids.count] entries; each of them is to hold an identifier. *)
Definition registry_invariant (reg : stash_reg T) : Prop :=
  count (elements reg) = count (valid_flags reg)
  ∧ (∀ i, 0 <= i < count (free_ids reg) →
          ∃ id, load (arr_cells (free_ids reg)) i = Some id
                ∧ id ≠ 0 ∧ id < next_id reg ∧ flag reg id = Some false)
  ∧ (∀ id, 0 <= id < 2 ^ 32 →
           ∃ live, stash_reg_exists reg id = Some live
                   ∧ (live = true ↔ 1 <= id < next_id reg ∧ flag reg id = Some true)).

(** What the operations maintain, on a valid registry and on one that
    [create] left with a zero record: the flags are a typed array, the
    elements are one unless the registry was made for elements of size
    0, and the stack of retired identifiers is one unless its allocation
    failed. *)
Definition reg_inv (reg : stash_reg T) : Prop :=
  arr_shape (elements reg) ∧ arr_inv (valid_flags reg) ∧ arr_shape (free_ids reg)
  ∧ count (elements reg) = count (valid_flags reg)
  ∧ next_id reg = count (elements reg) + 1 ∧ next_id reg < 2 ^ 32
  ∧ NoDup (free_list reg)
  ∧ (∀ id, id ∈ free_list reg → 0 < id < next_id reg ∧ flag reg id = Some false)
  ∧ (elem_size (elements reg) = reg_elem_size reg ∨ elem_size (elements reg) = 0)
  ∧ arr_shape (valid_flags reg)
  ∧ (reg_elem_size reg ≠ 0 → arr_inv (elements reg)).

(** The registries that [create], [push] and [pop] produce, as long as
    no call runs into undefined behaviour and [next_id++] does not wrap
    around. *)
Inductive reachable : stash_reg T → Prop :=
| reach_create capacity elem_size rf rv re :
    0 <= capacity → 0 <= elem_size →
    reachable (stash_reg_create capacity elem_size rf rv re)
| reach_push reg element re rv id reg' :
    reachable reg → next_id reg + 1 < 2 ^ 32 →
    stash_reg_push reg element re rv = Some (id, reg') →
    reachable reg'
| reach_pop reg id element rf popped reg' out :
    reachable reg → 0 <= id < 2 ^ 32 →
    stash_reg_pop reg id element rf = Some (popped, reg', out) →
    reachable reg'.
End RegistryInvariant.

(** The live elements of an array, first to last. *)
Definition live {A} (a : stash_arr A) : list A :=
  take (Z.to_nat (count a)) (arr_cells a).

(** A registry of four [uint32_t] slots. *)
Definition sample_reg : stash_reg Z :=
  stash_reg_create 4 4 (AllocOk 4096 (fun _ => 0)) (AllocOk 8192 (fun _ => false))
    (AllocOk 12288 (fun _ => 0)).

(** [sample_reg] after [push(10)] and [push(20)]. *)
Definition sample_reg_two : stash_reg Z :=
  Reg (Arr (Some (Block 12288 [10; 20; 0; 0])) 2 4 4)
      (Arr (Some (Block 8192 [true; true; false; false])) 2 4 1)
      (Arr (Some (Block 4096 [0; 0; 0; 0])) 0 4 4)
      3 4.

(** [sample_reg] after [push(10)], [push(20)] and [pop(1)]. *)
Definition sample_reg_popped : stash_reg Z :=
  Reg (Arr (Some (Block 12288 [10; 20; 0; 0])) 2 4 4)
      (Arr (Some (Block 8192 [false; true; false; false])) 2 4 1)
      (Arr (Some (Block 4096 [1; 0; 0; 0])) 1 4 4)
      3 4.


(** A registry of four [uint32_t] slots whose [free_ids] array could not
    be allocated. *)
Definition sample_reg_no_free : stash_reg Z :=
  stash_reg_create 4 4 AllocFail (AllocOk 8192 (fun _ => false))
    (AllocOk 12288 (fun _ => 0)).

(** A table of four buckets for one-byte values, as [stash_umap_create]
    makes it. *)
Definition sample_map : stash_umap :=
  Umap (Arr (Some (Block 4096 (replicate 4 (Entry 0 None false)))) 4 4
          sizeof_stash_umap_entry) 0 1.

(** [sample_map] after [insert(42, 100)]. *)
Definition sample_map_42 : stash_umap :=
  Umap (Arr (Some (Block 4096 (Entry 42 (Some (Block 8192 [x64])) true
                               :: replicate 3 (Entry 0 None false)))) 4 4
          sizeof_stash_umap_entry) 1 1.

(** A table of two buckets holding the keys 1 and 2. *)
Definition sample_full_map : stash_umap :=
  Umap (Arr (Some (Block 4096 [Entry 2 (Some (Block 8192 [x02])) true;
                               Entry 1 (Some (Block 8200 [x01])) true])) 2 2
          sizeof_stash_umap_entry) 2 1.






(** The indices from [i] on, [n] of them, at which [P] holds, in
    increasing order: what a loop that walks upwards and stops at each
    hit visits. *)
Fixpoint indices_from (P : Z → bool) (n : nat) (i : Z) : list Z :=
  match n with
  | O => []
  | S n => if P i then i :: indices_from P n (i + 1) else indices_from P n (i + 1)
  end.

(** ** Iterators of the table

    [it.curr] and [it.next] are the addresses of value buffers;
    [it.prev] holds the index of the current bucket, cast to a pointer. *)
















(** ** Iterators of the registry

    [it.curr] and [it.next] are addresses of elements; [it.prev] holds
    the identifier of the current element, cast to a pointer. *)

(** [stash_arr_at] as the address it returns. *)
Definition at_ptr {A} (a : stash_arr A) (index : Z) : Z :=
  match stash_arr_at a index with Some p => slot_ptr a p | None => NULL end.

Section RegistryIterators.
Context {T : Type} `{!Elem T}.

(** [while (id < reg->next_id && !flags[id - 1]) id++;] *)
Fixpoint reg_scan_up (fuel : nat) (reg : stash_reg T) (id : Z) : option Z :=
  match fuel with
  | O => None
  | S fuel =>
      if id <? next_id reg
      then flag ← load (arr_cells (valid_flags reg)) (u32 (id - 1));
           if negb flag then reg_scan_up fuel reg (u32 (id + 1)) else Some id
      else Some id
  end.

(** [while (id >= 1 && !flags[id - 1]) id--;] *)
Fixpoint reg_scan_down (fuel : nat) (reg : stash_reg T) (id : Z) : option Z :=
  match fuel with
  | O => None
  | S fuel =>
      if id >=? 1
      then flag ← load (arr_cells (valid_flags reg)) (u32 (id - 1));
           if negb flag then reg_scan_down fuel reg (u32 (id - 1)) else Some id
      else Some id
  end.

(** The element after [id], as [it.next] gets it. *)
Definition reg_next_elem (reg : stash_reg T) (id : Z) : option Z :=
  next_id' ← reg_scan_up (S (Z.to_nat (next_id reg - id))) reg id;
  if next_id' <? next_id reg
  then Some (at_ptr (elements reg) (u32 (next_id' - 1)))
  else Some NULL.

(** The [for] loop of [stash_reg_begin] from [id] on. *)
Fixpoint reg_begin_loop (fuel : nat) (reg : stash_reg T) (id : Z)
    : option stash_it :=
  match fuel with
  | O => None
  | S fuel =>
      if id <? next_id reg
      then flag ← load (arr_cells (valid_flags reg)) (u32 (id - 1));
           if (flag : bool)
           then nxt ← reg_next_elem reg (u32 (id + 1));
                Some (It (at_ptr (elements reg) (u32 (id - 1))) id nxt)
           else reg_begin_loop fuel reg (u32 (id + 1))
      else Some (It NULL NULL NULL)
  end.

Definition stash_reg_begin (reg : stash_reg T) : option stash_it :=
  if count (elements reg) =? 0 then Some (It NULL NULL NULL)
  else reg_begin_loop (S (Z.to_nat (next_id reg))) reg 1.

(** The [for] loop of [stash_reg_end] from [id] down.  [it.prev] is
    assigned twice when there is an earlier element; the identifier
    stays. *)
Fixpoint reg_end_loop (fuel : nat) (reg : stash_reg T) (id : Z)
    : option stash_it :=
  match fuel with
  | O => None
  | S fuel =>
      if id >=? 1
      then flag ← load (arr_cells (valid_flags reg)) (u32 (id - 1));
           if (flag : bool)
           then
             let it := It (at_ptr (elements reg) (u32 (id - 1))) id NULL in
             prev_id ← reg_scan_down (S (Z.to_nat id)) reg (u32 (id - 1));
             if prev_id >=? 1
             then Some (set_prev
                          (set_prev it (at_ptr (elements reg) (u32 (prev_id - 1))))
                          id)
             else Some it
           else reg_end_loop fuel reg (u32 (id - 1))
      else Some (It NULL NULL NULL)
  end.

Definition stash_reg_end (reg : stash_reg T) : option stash_it :=
  if count (elements reg) =? 0 then Some (It NULL NULL NULL)
  else reg_end_loop (S (Z.to_nat (next_id reg))) reg (u32 (next_id reg - 1)).

Definition stash_reg_previous (reg : stash_reg T) (it : stash_it)
    : option stash_it :=
  if count (elements reg) =? 0 then Some it
  else if curr it =? NULL
  then if negb (next it =? NULL) then Some it else stash_reg_end reg
  else
    let curr_id := u32 (prev it) in
    prev_id ← reg_scan_down (S (Z.to_nat curr_id)) reg (u32 (curr_id - 1));
    if prev_id >=? 1
    then Some (It (at_ptr (elements reg) (u32 (prev_id - 1))) prev_id (curr it))
    else Some (It NULL NULL (curr it)).

Definition stash_reg_next (reg : stash_reg T) (it : stash_it) : option stash_it :=
  if count (elements reg) =? 0 then Some it
  else if curr it =? NULL
  then if negb (prev it =? NULL) then Some it else stash_reg_begin reg
  else if next it =? NULL then Some (It NULL (curr it) (next it))
  else
    let curr_id := u32 (prev it) in
    next_id' ← reg_scan_up (S (Z.to_nat (next_id reg - (curr_id + 1)))) reg
                 (u32 (curr_id + 1));
    let it := It (next it) next_id' (next it) in
    if next_id' <? next_id reg
    then nxt ← reg_next_elem reg (u32 (next_id' + 1));
         Some (set_next it nxt)
    else Some (set_next it NULL).

(** Whether [id] is an issued identifier whose flag is set. *)
Definition id_live (reg : stash_reg T) (id : Z) : bool :=
  match load (arr_cells (valid_flags reg)) (id - 1) with
  | Some flag => flag
  | None => false
  end.

(** The live identifiers, in increasing order. *)
Definition live_ids (reg : stash_reg T) : list Z :=
  indices_from (id_live reg) (Z.to_nat (next_id reg - 1)) 1.

(** The address of the element of [id]. *)
Definition elem_ptr (reg : stash_reg T) (id : Z) : Z :=
  slot_ptr (elements reg) (id - 1).

(** [it = stash_reg_begin(reg)] followed by [k] times
    [stash_reg_next(reg, &it)], and the same from the end. *)
Fixpoint reg_walk (reg : stash_reg T) (k : nat) : option stash_it :=
  match k with
  | O => stash_reg_begin reg
  | S k => it ← reg_walk reg k; stash_reg_next reg it
  end.

Fixpoint reg_walk_back (reg : stash_reg T) (k : nat) : option stash_it :=
  match k with
  | O => stash_reg_end reg
  | S k => it ← reg_walk_back reg k; stash_reg_previous reg it
  end.
End RegistryIterators.

(** * Properties *)

(** Case analysis on the integer comparison a definition branches on. *)
Ltac case_zb :=
  match goal with
  | |- context [?x >? ?y] => destruct (Z.gtb_spec x y)
  | |- context [?x >=? ?y] => destruct (Z.geb_spec x y)
  | |- context [?x <? ?y] => destruct (Z.ltb_spec x y)
  | |- context [?x <=? ?y] => destruct (Z.leb_spec x y)
  | |- context [?x =? ?y] => destruct (Z.eqb_spec x y)
  end.

(** Projections and updates of array records given by their fields. *)
Ltac arr_simpl :=
  cbn [arr_cells with_cells with_count data count capacity elem_size cells base] in *.

Ltac case_zb_in H :=
  match type of H with
  | context [?x >? ?y] => destruct (Z.gtb_spec x y)
  | context [?x >=? ?y] => destruct (Z.geb_spec x y)
  | context [?x <? ?y] => destruct (Z.ltb_spec x y)
  | context [?x <=? ?y] => destruct (Z.leb_spec x y)
  | context [?x =? ?y] => destruct (Z.eqb_spec x y)
  end.

(** ** Memory primitives *)

Section MemoryFacts.
Context {T : Type}.
Implicit Types (cs : list T) (i n : Z) (v : T).

Lemma in_block_spec cs i n :
  in_block cs i n = true ↔ 0 <= i ∧ i + n <= Z.of_nat (length cs).
Proof. unfold in_block. rewrite andb_true_iff, Z.leb_le, Z.leb_le. tauto. Qed.

Lemma load_Some cs i v :
  load cs i = Some v ↔ 0 <= i ∧ cs !! Z.to_nat i = Some v.
Proof.
  unfold load. destruct (in_block cs i 1) eqn:E.
  - apply in_block_spec in E. intuition.
  - split; [discriminate|]. intros [Hi Hl].
    apply lookup_lt_Some in Hl.
    assert (in_block cs i 1 = true) by (apply in_block_spec; lia). congruence.
Qed.

Lemma load_is_Some cs i : 0 <= i < Z.of_nat (length cs) → is_Some (load cs i).
Proof.
  intros Hi. destruct (lookup_lt_is_Some_2 cs (Z.to_nat i)) as [v Hv]; [lia|].
  exists v. apply load_Some. split; [lia|done].
Qed.

Lemma load_bound cs i v : load cs i = Some v → 0 <= i < Z.of_nat (length cs).
Proof. intros [Hi Hl]%load_Some. apply lookup_lt_Some in Hl. lia. Qed.

Lemma store_Some cs i v cs' :
  store cs i v = Some cs' ↔
  0 <= i < Z.of_nat (length cs) ∧ cs' = <[Z.to_nat i := v]> cs.
Proof.
  unfold store. destruct (in_block cs i 1) eqn:E.
  - apply in_block_spec in E. split.
    + intros [= <-]. split; [lia|done].
    + intros [_ ->]. done.
  - split; [discriminate|]. intros [Hi _].
    assert (in_block cs i 1 = true) by (apply in_block_spec; lia). congruence.
Qed.

Lemma store_is_Some cs i v : 0 <= i < Z.of_nat (length cs) → is_Some (store cs i v).
Proof. intros Hi. eexists. apply store_Some. split; [lia|done]. Qed.

Lemma store_length cs i v cs' : store cs i v = Some cs' → length cs' = length cs.
Proof. intros [_ ->]%store_Some. apply length_insert. Qed.

Lemma load_store_eq cs i v cs' : store cs i v = Some cs' → load cs' i = Some v.
Proof.
  intros [Hi ->]%store_Some. apply load_Some. split; [lia|].
  apply list_lookup_insert_eq. lia.
Qed.

Lemma load_store_ne cs i v cs' j :
  store cs i v = Some cs' → i ≠ j → 0 <= j → load cs' j = load cs j.
Proof.
  intros [Hi ->]%store_Some Hne Hj. unfold load, in_block.
  rewrite length_insert. rewrite list_lookup_insert_ne by lia. done.
Qed.

Lemma memmove_same cs i n :
  0 <= i → i + n <= Z.of_nat (length cs) → memmove cs i i n = Some cs.
Proof.
  intros Hi Hn. unfold memmove. destruct (n <=? 0) eqn:E; [done|].
  apply Z.leb_gt in E.
  assert (in_block cs i n = true) as -> by (apply in_block_spec; lia). simpl.
  f_equal. rewrite <- (take_drop (Z.to_nat i) cs) at 4. f_equal.
  rewrite <- (take_drop (Z.to_nat n) (drop (Z.to_nat i) cs)) at 2. f_equal.
  rewrite drop_drop. f_equal. lia.
Qed.

Lemma length_fresh_cells (junk : nat → T) from k :
  length (fresh_cells junk from k) = k.
Proof. unfold fresh_cells. by rewrite length_map, length_seq. Qed.
End MemoryFacts.

(** Accesses of zero bytes. *)
Lemma zero_width_Some {A} es (u x : A) : zero_width es u (Some x) = Some x.
Proof. done. Qed.

Lemma zero_width_ne {A} es (u : A) access :
  es ≠ 0 → zero_width es u access = access.
Proof.
  intros Hes. destruct access; [done|]. simpl. by destruct (Z.eqb_spec es 0).
Qed.

Lemma load_nil {A} (i : Z) : load ([] : list A) i = None.
Proof.
  unfold load, in_block. by destruct (_ && _).
Qed.

Lemma store_nil {A} (i : Z) (v : A) : store [] i v = None.
Proof.
  unfold store, in_block. simpl. change (Z.of_nat 0) with 0.
  destruct (Z.leb_spec 0 i), (Z.leb_spec (i + 1) 0); simpl; (done || lia).
Qed.


(** ** Utils *)

Lemma lor_ge_l a b : 0 <= b → a <= Z.lor a b.
Proof.
  intros Hb. pose proof (Z.sub_lor_l_same_l b a) as Hsub.
  assert (0 <= Z.land b (Z.lnot a)) by (apply Z.land_nonneg; by left). lia.
Qed.

(** The capacity request covers the count it is computed from. *)
Lemma u_stash_next_po2_u64_ge x : 0 <= x → x <= u_stash_next_po2_u64 x.
Proof.
  intros Hx. unfold u_stash_next_po2_u64.
  destruct (Z.eqb_spec x 0); [lia|].
  destruct (Z.land x (x - 1) =? 0); [rewrite Z.shiftl_mul_pow2 by lia; lia|].
  cbv zeta.
  assert (∀ y k, 0 <= y → 0 <= Z.shiftr y k) as Hs
    by (intros y k Hy; by apply Z.shiftr_nonneg).
  assert (∀ y k, 0 <= y → y <= Z.lor y (Z.shiftr y k) ∧ 0 <= Z.lor y (Z.shiftr y k))
    as Hstep.
  { intros y k Hy. pose proof (lor_ge_l y (Z.shiftr y k) (Hs y k Hy)). lia. }
  pose proof (Hstep (x - 1) 1 ltac:(lia)) as [H1 H1'].
  pose proof (Hstep _ 2 H1') as [H2 H2'].
  pose proof (Hstep _ 4 H2') as [H3 H3'].
  pose proof (Hstep _ 8 H3') as [H4 H4'].
  pose proof (Hstep _ 16 H4') as [H5 H5'].
  pose proof (Hstep _ 32 H5') as [H6 H6'].
  lia.
Qed.

(** ** Array *)


Section ArrayFacts.
Context {T : Type} `{!Elem T}.
Implicit Types (a src : stash_arr T).

Lemma arr_cells_Arr p cs c k e :
  arr_cells (Arr (Some (Block p cs)) c k e : stash_arr T) = cs.
Proof. done. Qed.

Lemma arr_cells_with_cells a cs :
  data a ≠ None → arr_cells (with_cells a cs) = cs.
Proof. unfold arr_cells, with_cells. by destruct (data a). Qed.

Lemma stash_arr_is_valid_with_cells a cs :
  stash_arr_is_valid (with_cells a cs) = stash_arr_is_valid a.
Proof. by destruct a as [[d|] c n e]. Qed.

Lemma count_with_cells a cs : count (with_cells a cs) = count a.
Proof. by destruct a as [[d|] c n e]. Qed.

Lemma capacity_with_cells a cs : capacity (with_cells a cs) = capacity a.
Proof. by destruct a as [[d|] c n e]. Qed.

Lemma elem_size_with_cells a cs : elem_size (with_cells a cs) = elem_size a.
Proof. by destruct a as [[d|] c n e]. Qed.

Lemma wf_arr_data a : wf_arr a → data a ≠ None ∧ 0 < capacity a ∧ 0 < elem_size a.
Proof.
  intros (Hv & _ & _). unfold stash_arr_is_valid in Hv.
  apply andb_true_iff in Hv as [Hv He]. apply andb_true_iff in Hv as [Hd Hc].
  apply Z.gtb_lt in He, Hc. destruct (data a); [|done]. repeat split; [done|lia..].
Qed.

(** What [stash_arr_insert] leaves in [count]: the sum when the
    elements fit, the rounded-up capacity request when they do not. *)
Lemma stash_arr_insert_count a index elements n r a' :
  stash_arr_insert a index elements n r = Some (STASH_SUCCESS, a') →
  index <= count a
  ∧ count a' = (if count a + n >? capacity a
                then u_stash_next_po2_u64 (count a + n) else count a + n).
Proof.
  unfold stash_arr_insert. intros H.
  case_zb_in H; [discriminate|]. split; [done|].
  destruct (count a + n >? capacity a).
  - destruct (stash_arr_reserve a _ r) as [[ret a1]|] eqn:Hr; [|discriminate].
    simpl in H.
    case_zb_in H; [injection H as -> _; unfold STASH_SUCCESS in *; lia|].
    destruct (zero_width _ _ (memmove _ _ _ _)); [|discriminate]. simpl in H.
    destruct (zero_width _ _ (memcpy _ _ _ _)); [|discriminate]. simpl in H.
    by injection H as <-.
  - simpl in H. destruct (zero_width _ _ (memmove _ _ _ _)); [|discriminate].
    simpl in H.
    destruct (zero_width _ _ (memcpy _ _ _ _)); [|discriminate]. simpl in H.
    by injection H as <-.
Qed.

(** When the new elements fit the capacity, [insert] is total and adds
    [n] to [count]. *)
Lemma stash_arr_insert_fits a index elements n r :
  wf_arr a → 0 <= index <= count a → 0 <= n <= Z.of_nat (length elements) →
  count a + n <= capacity a →
  ∃ a', stash_arr_insert a index elements n r = Some (STASH_SUCCESS, a')
        ∧ count a' = count a + n.
Proof.
  intros Hwf Hidx Hn Hfit. destruct Hwf as (Hv & Hc & Hl).
  unfold stash_arr_insert.
  case_zb; [lia|]. case_zb; [lia|]. simpl.
  assert (∃ cs, memmove (arr_cells a) (index + n) index (count a - index) = Some cs
                ∧ length cs = length (arr_cells a)) as (cs & -> & Hcs).
  { unfold memmove. destruct (count a - index <=? 0); [eauto|].
    assert (in_block (arr_cells a) (index + n) (count a - index) = true) as ->
      by (apply in_block_spec; lia).
    assert (in_block (arr_cells a) index (count a - index) = true) as ->
      by (apply in_block_spec; lia).
    simpl. eexists. split; [done|].
    rewrite !length_app, !length_take, !length_drop. lia. }
  simpl.
  assert (is_Some (memcpy cs index elements n)) as [cs' ->].
  { unfold memcpy. destruct (n <=? 0); [eauto|].
    assert (in_block cs index n = true) as -> by (apply in_block_spec; lia).
    assert (in_block elements 0 n = true) as -> by (apply in_block_spec; lia).
    simpl. eauto. }
  simpl. eexists. split; [done|]. done.
Qed.

(** [stash_arr_push_at] moves the tail onto itself: apart from slot
    [index] every slot keeps what it held. *)
Lemma stash_arr_push_at_cells a index e r :
  wf_arr a → 0 <= index < count a → count a < capacity a →
  stash_arr_push_at a index (Some e) r
  = Some (STASH_SUCCESS,
          with_count (with_cells a (<[Z.to_nat index := e]> (arr_cells a)))
            (count a + 1)).
Proof.
  intros Hwf Hidx Hcap. destruct (wf_arr_data a Hwf) as (Hd & _ & _).
  destruct Hwf as (Hv & Hc & Hl).
  unfold stash_arr_push_at, grow_for_push.
  case_zb; [lia|]. case_zb; [lia|].
  simpl. rewrite memmove_same by lia. simpl.
  destruct (store_is_Some (arr_cells a) index e) as [cs Hcs]; [lia|].
  rewrite Hcs. simpl. apply store_Some in Hcs as [_ ->]. done.
Qed.


(** A copy of a non-empty array holds the live slots of its source. *)
Lemma stash_arr_copy_spec src p junk :
  0 < count src → 0 < elem_size src →
  count src <= Z.of_nat (length (arr_cells src)) →
  stash_arr_copy src (AllocOk p junk)
  = Some (Arr (Some (Block p (take (Z.to_nat (count src)) (arr_cells src))))
            (count src) (count src) (elem_size src)).
Proof.
  intros Hc He Hl. unfold stash_arr_copy.
  case_zb; [nia|].
  simpl. rewrite Z.div_mul by lia. unfold memcpy.
  case_zb; [lia|].
  assert (in_block (fresh_cells junk 0 (Z.to_nat (count src))) 0 (count src) = true)
    as -> by (apply in_block_spec; rewrite length_fresh_cells; lia).
  assert (in_block (arr_cells src) 0 (count src) = true) as ->
    by (apply in_block_spec; lia).
  simpl. rewrite drop_ge by (rewrite length_fresh_cells; lia).
  by rewrite app_nil_r.
Qed.

(** C7, as amended: for every array [src] with at least one element, a
    positive element size and its live slots inside its buffer, when
    the allocation made by [stash_arr_copy] succeeds the copy compares
    equal to [src], has [count == capacity == src.count], the element
    size of [src], and slot by slot the contents of [src]. *)
Theorem stash_arr_copy_compare src p junk :
  0 < count src → 0 < elem_size src →
  count src <= Z.of_nat (length (arr_cells src)) →
  ∃ c, stash_arr_copy src (AllocOk p junk) = Some c
       ∧ stash_arr_compare c src = Some true
       ∧ count c = count src ∧ capacity c = count src
       ∧ elem_size c = elem_size src
       ∧ ∀ i, 0 <= i < count src → load (arr_cells c) i = load (arr_cells src) i.
Proof.
  intros Hc He Hl. eexists. split; [by apply stash_arr_copy_spec|].
  split; [|split; [done|split; [done|split; [done|]]]].
  - unfold stash_arr_compare. simpl. rewrite !Z.eqb_refl. simpl.
    unfold memcmp_eq. rewrite arr_cells_Arr. case_zb; [lia|].
    assert (in_block (take (Z.to_nat (count src)) (arr_cells src)) 0 (count src) = true)
      as -> by (apply in_block_spec; rewrite length_take; lia).
    assert (in_block (arr_cells src) 0 (count src) = true) as ->
      by (apply in_block_spec; lia).
    simpl. f_equal. apply bool_decide_eq_true. by rewrite take_take, Nat.min_id.
  - intros i Hi. rewrite arr_cells_Arr. unfold load, in_block. rewrite length_take.
    rewrite lookup_take_lt by lia.
    replace (i + 1 <=? Z.of_nat (Z.to_nat (count src) `min` length (arr_cells src)))
      with true by (symmetry; apply Z.leb_le; lia).
    replace (i + 1 <=? Z.of_nat (length (arr_cells src)))
      with true by (symmetry; apply Z.leb_le; lia).
    done.
Qed.
End ArrayFacts.

(** The copy of [sample_three]. *)
Lemma stash_arr_copy_compare_witness :
  ∃ c, stash_arr_copy sample_three (AllocOk 8192 (fun _ => 0)) = Some c
       ∧ stash_arr_compare c sample_three = Some true
       ∧ count c = 3 ∧ capacity c = 3 ∧ elem_size c = 4
       ∧ ∀ i, 0 <= i < 3 → load (arr_cells c) i = load (arr_cells sample_three) i.
Proof.
  apply (stash_arr_copy_compare sample_three 8192 (fun _ => 0)); simpl; lia.
Defined.

(** The copy of an empty array is the zero record, whose element size is
    not the one of its source. *)
Lemma stash_arr_copy_empty_differs :
  wf_arr sample_empty
  ∧ ∀ r, stash_arr_copy sample_empty r = Some zero_arr
         ∧ stash_arr_compare (zero_arr : stash_arr Z) sample_empty = Some false
         ∧ elem_size (zero_arr : stash_arr Z) ≠ elem_size sample_empty.
Proof.
  split; [by vm_compute|]. intros r. split; [done|]. split; [done|]. by vm_compute.
Qed.

(** C2: [sample_full] is the array [10, 20] that two [push_back] build in a
    buffer of capacity two; inserting one element at index 2 returns
    [STASH_SUCCESS] and leaves [count == 4], not [2 + 1]: the count is
    taken from the variable that was rounded up for the capacity. *)
Theorem stash_arr_insert_count_after_growth :
  (∃ a1, stash_arr_push_back sample_small (Some 10) AllocFail = Some (STASH_SUCCESS, a1)
         ∧ stash_arr_push_back a1 (Some 20) AllocFail = Some (STASH_SUCCESS, sample_full))
  ∧ wf_arr sample_full
  ∧ stash_arr_insert sample_full 2 [30] 1 (AllocOk 8192 (fun _ => 0))
    = Some (STASH_SUCCESS, Arr (Some (Block 8192 [10; 20; 30; 0])) 4 4 4)
  ∧ count sample_full + 1 = 3.
Proof.
  split; [eexists; split; reflexivity|]. split; [by vm_compute|].
  split; reflexivity.
Qed.

(** C3: [sample_three] is the array [10, 20, 30] with one spare slot;
    [push_at(0, 99)] returns [STASH_SUCCESS] and leaves [99, 20, 30] and
    the spare slot as the four live elements: slot 0 is overwritten and
    nothing is shifted. *)
Theorem stash_arr_push_at_overwrites :
  wf_arr sample_three
  ∧ stash_arr_push_at sample_three 0 (Some 99) AllocFail
    = Some (STASH_SUCCESS, Arr (Some (Block 4096 [99; 20; 30; 0])) 4 4 4)
  ∧ load (arr_cells sample_three) 0 = Some 10.
Proof. split; [by vm_compute|]. split; reflexivity. Qed.

(** C6: on [sample_three], whose buffer is at address 4096 with elements
    of 4 bytes, the iterator on the last element is
    [curr = 4104, prev = 4100, next = NULL]; [stash_arr_next] turns it
    into [curr = NULL, prev = NULL, next = 4]: the last element is not
    retained in [prev], and [next] is no longer [NULL]. *)
Theorem stash_arr_next_loses_last :
  stash_arr_end sample_three = It 4104 4100 NULL
  ∧ stash_arr_next sample_three (stash_arr_next sample_three (stash_arr_begin sample_three))
    = It 4104 4100 NULL
  ∧ slot_ptr sample_three (count sample_three - 1) = 4104
  ∧ stash_arr_next sample_three (It 4104 4100 NULL) = It NULL NULL 4.
Proof. repeat split; reflexivity. Qed.

(** ** Table *)

Section ReserveFacts.
Context {T : Type} `{!Elem T}.
Implicit Types (a : stash_arr T).

Lemma stash_arr_reserve_spec a n r st a' :
  Z.of_nat (length (arr_cells a)) = capacity a → elem_size a ≠ 0 →
  stash_arr_reserve a n r = Some (st, a') →
  count a' = count a ∧ elem_size a' = elem_size a
  ∧ capacity a <= capacity a'
  ∧ Z.of_nat (length (arr_cells a')) = capacity a'
  ∧ (data a ≠ None → data a' ≠ None)
  ∧ (∀ i, i < capacity a → load (arr_cells a') i = load (arr_cells a) i)
  ∧ (st = STASH_SUCCESS ∨ st = STASH_ERROR_OUT_OF_MEMORY ∧ a' = a).
Proof.
  intros Hl He. unfold stash_arr_reserve.
  case_zb; [intros [= <- <-]; by eauto 10 with lia|].
  destruct r as [|p junk]; simpl; [intros [= <- <-]; by eauto 10 with lia|].
  intros [= <- <-]. simpl. rewrite Z.div_mul by done. fold (arr_cells a).
  assert (length (arr_cells a) < Z.to_nat n)%nat by lia.
  rewrite !arr_cells_Arr.
  repeat split; [lia| |done| |by left].
  - rewrite length_take, length_app, length_fresh_cells. lia.
  - intros i Hi. unfold load, in_block.
    rewrite length_take, length_app, length_fresh_cells.
    destruct (0 <=? i) eqn:E0; [|done]. apply Z.leb_le in E0. simpl.
    replace (i + 1 <=? Z.of_nat (Z.to_nat n `min`
               (length (arr_cells a) + (Z.to_nat n - length (arr_cells a)))))
      with true by (symmetry; apply Z.leb_le; lia).
    replace (i + 1 <=? Z.of_nat (length (arr_cells a)))
      with true by (symmetry; apply Z.leb_le; lia).
    rewrite lookup_take_lt by lia. apply lookup_app_l. lia.
Qed.

Lemma stash_arr_reserve_total a n r :
  wf_arr a → is_Some (stash_arr_reserve a n r).
Proof.
  intros Hwf. destruct (wf_arr_data a Hwf) as (_ & _ & He).
  unfold stash_arr_reserve. case_zb; [done|].
  by destruct (STASH_REALLOC _ _ _ _).
Qed.

Lemma stash_arr_reserve_wf a n r st a' :
  wf_arr a → stash_arr_reserve a n r = Some (st, a') → wf_arr a'.
Proof.
  intros Hwf Hr. destruct (wf_arr_data a Hwf) as (Hd & Hc & He).
  destruct Hwf as (Hv & Hcnt & Hl).
  destruct (stash_arr_reserve_spec a n r st a' Hl ltac:(lia) Hr)
    as (Hc' & He' & Hcap & Hl' & Hd' & _ & _).
  split; [|split; [lia|done]].
  unfold stash_arr_is_valid. specialize (Hd' Hd).
  destruct (data a'); [|done]. simpl.
  apply andb_true_iff. split; apply Z.gtb_lt; lia.
Qed.
End ReserveFacts.

Section ProbeFacts.
Implicit Types (b : stash_arr stash_umap_entry) (k cap orig index : Z).

Lemma to_int_small i : 0 <= i < 2 ^ 31 → to_int i = i.
Proof. intros Hi. unfold to_int. rewrite Z.mod_small by lia. lia. Qed.

Lemma to_size_t_small i : 0 <= i < 2 ^ 64 → to_size_t i = i.
Proof. intros Hi. unfold to_size_t. by rewrite Z.mod_small by lia. Qed.

Lemma u32_small i : 0 <= i < 2 ^ 32 → u32 i = i.
Proof. intros Hi. unfold u32. by rewrite Z.mod_small by lia. Qed.

(** The probe sequence: after [d] steps the loop is at
    [(orig + d) mod cap], and it is back at [orig] after exactly [cap]
    steps. *)
Lemma probe_next orig d cap :
  0 < cap → ((orig + d) mod cap + 1) mod cap = (orig + (d + 1)) mod cap.
Proof. intros Hc. rewrite Z.add_mod_idemp_l by lia. f_equal. lia. Qed.

Lemma probe_wrap orig e cap :
  0 <= orig < cap → 0 < e <= cap → (orig + e) mod cap = orig ↔ e = cap.
Proof.
  intros Ho He. split.
  - intros Hm. destruct (Z_lt_dec (orig + e) cap) as [Hlt|Hge].
    + rewrite Z.mod_small in Hm by lia. lia.
    + replace (orig + e) with (orig + e - cap + 1 * cap) in Hm by lia.
      rewrite Z_mod_plus_full, Z.mod_small in Hm by lia. lia.
  - intros ->. replace (orig + cap) with (orig + 1 * cap) by lia.
    rewrite Z_mod_plus_full. apply Z.mod_small. lia.
Qed.

Lemma find_free_loop_S fuel b k cap orig index :
  find_free_loop (S fuel) b k cap orig index =
  let continue :=
    if (index + 1) mod cap =? orig then Some (-1)
    else find_free_loop fuel b k cap orig ((index + 1) mod cap) in
  match stash_arr_at b index with
  | Some p =>
      entry ← load (arr_cells b) p;
      if negb (occupied entry) then Some (to_int index)
      else if key entry =? k then Some (-2)
      else continue
  | None => continue
  end.
Proof. reflexivity. Qed.

Lemma find_entry_loop_S fuel b k cap orig index :
  find_entry_loop (S fuel) b k cap orig index =
  let continue :=
    if (index + 1) mod cap =? orig then Some (-1)
    else find_entry_loop fuel b k cap orig ((index + 1) mod cap) in
  match stash_arr_at b index with
  | Some p =>
      entry ← load (arr_cells b) p;
      if occupied entry && (key entry =? k) then Some index
      else if negb (occupied entry) then Some (-1)
      else continue
  | None => continue
  end.
Proof. reflexivity. Qed.

(** What [find_free_loop] can return: one of the two codes, or the index
    of a bucket that is not occupied. *)
Lemma find_free_loop_result b k cap orig fuel index s :
  count b <= 2 ^ 31 →
  find_free_loop fuel b k cap orig index = Some s →
  s = -1 ∨ s = -2
  ∨ (0 <= s < count b ∧ ∃ e, load (arr_cells b) s = Some e ∧ occupied e = false).
Proof.
  intros Hb. revert index.
  induction fuel as [|fuel IH]; intros index; [discriminate|].
  rewrite find_free_loop_S. cbv zeta. unfold stash_arr_at.
  destruct (Z.geb_spec index (count b)).
  - destruct (Z.eqb_spec ((index + 1) mod cap) orig); [intros [= <-]; auto|apply IH].
  - destruct (load (arr_cells b) index) as [e|] eqn:He; simpl; [|discriminate].
    destruct (occupied e) eqn:Ho; simpl.
    + destruct (Z.eqb_spec (key e) k); [intros [= <-]; auto|].
      destruct (Z.eqb_spec ((index + 1) mod cap) orig); [intros [= <-]; auto|apply IH].
    + intros [= <-]. right; right. pose proof (load_bound _ _ _ He).
      rewrite to_int_small by lia. split; [lia|eauto].
Qed.
(** After the bucket that [find_free_loop] chose is filled with the key,
    [find_entry_loop] walks the same buckets and stops there. *)
Lemma find_free_then_entry b b' k cap orig J v fuel index :
  count b <= 2 ^ 31 → count b' = count b → 0 <= J →
  (∀ i, 0 <= i → i ≠ J → load (arr_cells b') i = load (arr_cells b) i) →
  load (arr_cells b') J = Some (Entry k v true) →
  find_free_loop fuel b k cap orig index = Some J →
  find_entry_loop fuel b' k cap orig index = Some J.
Proof.
  intros Hb Hc HJ Hsame HJe. revert index.
  induction fuel as [|fuel IH]; intros index; [discriminate|].
  intros Hfree.
  pose proof (find_free_loop_result _ _ _ _ _ _ _ Hb Hfree) as Hres.
  revert Hfree. rewrite find_free_loop_S, find_entry_loop_S. cbv zeta.
  unfold stash_arr_at. rewrite Hc.
  destruct (Z.geb_spec index (count b)).
  - destruct (Z.eqb_spec ((index + 1) mod cap) orig);
      [intros [= <-]; lia|apply IH].
  - destruct (load (arr_cells b) index) as [e|] eqn:He; simpl; [|discriminate].
    pose proof (load_bound _ _ _ He).
    destruct (occupied e) eqn:Ho; simpl.
    + destruct (Z.eqb_spec (key e) k); [intros [= <-]; lia|].
      assert (index ≠ J).
      { intros ->. destruct Hres as [?|[?|(_ & e' & He' & Ho')]]; [lia..|].
        congruence. }
      rewrite Hsame, He by lia. simpl. rewrite Ho. simpl.
      destruct (Z.eqb_spec (key e) k); [done|].
      destruct (Z.eqb_spec ((index + 1) mod cap) orig);
        [intros [= <-]; lia|apply IH].
    + rewrite to_int_small by lia. intros [= ->]. rewrite HJe. simpl.
      by rewrite Z.eqb_refl.
Qed.

(** After the bucket that [find_entry_loop] found is marked free, the
    same walk ends there without a hit. *)
Lemma find_entry_after_remove b b' k cap orig J fuel index :
  count b' = count b → 0 <= J →
  (∀ i, 0 <= i → i ≠ J → load (arr_cells b') i = load (arr_cells b) i) →
  (∃ e, load (arr_cells b') J = Some e ∧ occupied e = false) →
  find_entry_loop fuel b k cap orig index = Some J →
  find_entry_loop fuel b' k cap orig index = Some (-1).
Proof.
  intros Hc HJ Hsame (eJ & HeJ & HoJ). revert index.
  induction fuel as [|fuel IH]; intros index; [discriminate|].
  rewrite !find_entry_loop_S. cbv zeta. unfold stash_arr_at. rewrite Hc.
  destruct (Z.geb_spec index (count b)).
  - destruct (Z.eqb_spec ((index + 1) mod cap) orig); [done|apply IH].
  - destruct (load (arr_cells b) index) as [e|] eqn:He; simpl; [|discriminate].
    pose proof (load_bound _ _ _ He).
    destruct (Z.eq_dec index J) as [->|Hne].
    + intros _. rewrite HeJ. simpl. by rewrite HoJ.
    + rewrite Hsame, He by lia. simpl.
      destruct (occupied e) eqn:Ho; simpl; [|intros [= <-]; lia].
      destruct (Z.eqb_spec (key e) k); [intros [= ->]; lia|].
      destruct (Z.eqb_spec ((index + 1) mod cap) orig); [done|apply IH].
Qed.

(** [buckets.count] units of fuel are enough: the walk is back at its
    start after that many steps. *)
Lemma find_free_loop_fuel b k cap orig n d :
  cap = count b → 0 <= orig < cap →
  count b <= Z.of_nat (length (arr_cells b)) →
  Z.of_nat n + d = cap → 0 <= d < cap →
  is_Some (find_free_loop n b k cap orig ((orig + d) mod cap)).
Proof.
  intros Hcap Ho Hl. revert d.
  induction n as [|n IH]; intros d Hn Hd; [lia|].
  assert (0 <= (orig + d) mod cap < cap) as Hi by (apply Z.mod_pos_bound; lia).
  rewrite find_free_loop_S. cbv zeta. unfold stash_arr_at.
  rewrite probe_next by lia.
  destruct (Z.geb_spec ((orig + d) mod cap) (count b)); [lia|].
  destruct (load_is_Some (arr_cells b) ((orig + d) mod cap)) as [e ->]; [lia|].
  simpl. destruct (occupied e); simpl; [|done].
  destruct (key e =? k); [done|].
  destruct (Z.eqb_spec ((orig + (d + 1)) mod cap) orig) as [|Hw]; [done|].
  apply IH; [lia|]. rewrite probe_wrap in Hw by lia. lia.
Qed.

Lemma find_entry_loop_fuel b k cap orig n d :
  cap = count b → 0 <= orig < cap →
  count b <= Z.of_nat (length (arr_cells b)) →
  Z.of_nat n + d = cap → 0 <= d < cap →
  is_Some (find_entry_loop n b k cap orig ((orig + d) mod cap)).
Proof.
  intros Hcap Ho Hl. revert d.
  induction n as [|n IH]; intros d Hn Hd; [lia|].
  assert (0 <= (orig + d) mod cap < cap) as Hi by (apply Z.mod_pos_bound; lia).
  rewrite find_entry_loop_S. cbv zeta. unfold stash_arr_at.
  rewrite probe_next by lia.
  destruct (Z.geb_spec ((orig + d) mod cap) (count b)); [lia|].
  destruct (load_is_Some (arr_cells b) ((orig + d) mod cap)) as [e ->]; [lia|].
  simpl. destruct (occupied e && (key e =? k)); [done|].
  destruct (negb (occupied e)); [done|].
  destruct (Z.eqb_spec ((orig + (d + 1)) mod cap) orig) as [|Hw]; [done|].
  apply IH; [lia|]. rewrite probe_wrap in Hw by lia. lia.
Qed.

(** On a table without a free bucket the walk visits every bucket. *)
Lemma find_free_loop_full_absent b k cap orig n d :
  cap = count b → 0 <= orig < cap →
  (∀ i, 0 <= i < cap →
        ∃ e, load (arr_cells b) i = Some e ∧ occupied e = true ∧ key e ≠ k) →
  Z.of_nat n + d = cap → 0 <= d < cap →
  find_free_loop n b k cap orig ((orig + d) mod cap) = Some (-1).
Proof.
  intros Hcap Ho Hall. revert d.
  induction n as [|n IH]; intros d Hn Hd; [lia|].
  assert (0 <= (orig + d) mod cap < cap) as Hi by (apply Z.mod_pos_bound; lia).
  rewrite find_free_loop_S. cbv zeta. unfold stash_arr_at.
  rewrite probe_next by lia.
  destruct (Z.geb_spec ((orig + d) mod cap) (count b)); [lia|].
  destruct (Hall _ Hi) as (e & -> & Hocc & Hk). simpl. rewrite Hocc. simpl.
  destruct (Z.eqb_spec (key e) k); [done|].
  destruct (Z.eqb_spec ((orig + (d + 1)) mod cap) orig) as [|Hw]; [done|].
  apply IH; [lia|]. rewrite probe_wrap in Hw by lia. lia.
Qed.

Lemma find_free_loop_full_present b k cap orig n d d' :
  cap = count b → 0 <= orig < cap →
  (∀ i, 0 <= i < cap →
        ∃ e, load (arr_cells b) i = Some e ∧ occupied e = true) →
  (∃ e, load (arr_cells b) ((orig + d') mod cap) = Some e ∧ key e = k) →
  Z.of_nat n + d = cap → 0 <= d <= d' → d' < cap →
  find_free_loop n b k cap orig ((orig + d) mod cap) = Some (-2).
Proof.
  intros Hcap Ho Hall (ek & Hek & Hkk). revert d.
  induction n as [|n IH]; intros d Hn Hd Hd'; [lia|].
  assert (0 <= (orig + d) mod cap < cap) as Hi by (apply Z.mod_pos_bound; lia).
  rewrite find_free_loop_S. cbv zeta. unfold stash_arr_at.
  rewrite probe_next by lia.
  destruct (Z.geb_spec ((orig + d) mod cap) (count b)); [lia|].
  destruct (Hall _ Hi) as (e & He & Hocc). rewrite He. simpl. rewrite Hocc. simpl.
  destruct (Z.eqb_spec (key e) k); [done|].
  assert (d ≠ d') by (intros ->; congruence).
  destruct (Z.eqb_spec ((orig + (d + 1)) mod cap) orig) as [Hw|Hw].
  - rewrite probe_wrap in Hw by lia. lia.
  - apply IH; lia.
Qed.
Lemma find_entry_loop_full_absent b k cap orig n d :
  cap = count b → 0 <= orig < cap →
  (∀ i, 0 <= i < cap →
        ∃ e, load (arr_cells b) i = Some e ∧ occupied e = true ∧ key e ≠ k) →
  Z.of_nat n + d = cap → 0 <= d < cap →
  find_entry_loop n b k cap orig ((orig + d) mod cap) = Some (-1).
Proof.
  intros Hcap Ho Hall. revert d.
  induction n as [|n IH]; intros d Hn Hd; [lia|].
  assert (0 <= (orig + d) mod cap < cap) as Hi by (apply Z.mod_pos_bound; lia).
  rewrite find_entry_loop_S. cbv zeta. unfold stash_arr_at.
  rewrite probe_next by lia.
  destruct (Z.geb_spec ((orig + d) mod cap) (count b)); [lia|].
  destruct (Hall _ Hi) as (e & -> & Hocc & Hk). simpl. rewrite Hocc. simpl.
  destruct (Z.eqb_spec (key e) k); [done|].
  destruct (Z.eqb_spec ((orig + (d + 1)) mod cap) orig) as [|Hw]; [done|].
  apply IH; [lia|]. rewrite probe_wrap in Hw by lia. lia.
Qed.

Lemma find_entry_loop_full_present b k cap orig n d d' :
  cap = count b → 0 <= orig < cap →
  (∀ i, 0 <= i < cap →
        ∃ e, load (arr_cells b) i = Some e ∧ occupied e = true) →
  (∃ e, load (arr_cells b) ((orig + d') mod cap) = Some e ∧ key e = k) →
  Z.of_nat n + d = cap → 0 <= d <= d' → d' < cap →
  ∃ s, find_entry_loop n b k cap orig ((orig + d) mod cap) = Some s ∧ 0 <= s.
Proof.
  intros Hcap Ho Hall (ek & Hek & Hkk). revert d.
  induction n as [|n IH]; intros d Hn Hd Hd'; [lia|].
  assert (0 <= (orig + d) mod cap < cap) as Hi by (apply Z.mod_pos_bound; lia).
  rewrite find_entry_loop_S. cbv zeta. unfold stash_arr_at.
  rewrite probe_next by lia.
  destruct (Z.geb_spec ((orig + d) mod cap) (count b)); [lia|].
  destruct (Hall _ Hi) as (e & He & Hocc). rewrite He. simpl. rewrite Hocc. simpl.
  destruct (Z.eqb_spec (key e) k); [eexists; split; [done|lia]|].
  assert (d ≠ d') by (intros ->; congruence).
  destruct (Z.eqb_spec ((orig + (d + 1)) mod cap) orig) as [Hw|Hw].
  - rewrite probe_wrap in Hw by lia. lia.
  - apply IH; lia.
Qed.
End ProbeFacts.

Section TableFacts.
Implicit Types (t : stash_umap) (b : stash_arr stash_umap_entry) (k : Z).

Lemma wf_arr_with_cells b cs :
  wf_arr b → length cs = length (arr_cells b) → wf_arr (with_cells b cs).
Proof.
  intros Hwf Hl. destruct (wf_arr_data b Hwf) as (Hd & _ & _).
  destruct Hwf as (Hv & Hc & Hlen).
  split; [by rewrite stash_arr_is_valid_with_cells|].
  rewrite count_with_cells, capacity_with_cells, arr_cells_with_cells by done.
  split; [done|lia].
Qed.

Lemma reserve_for_insert_spec b rb :
  wf_arr b →
  ∃ b1, reserve_for_insert b rb = Some b1
        ∧ wf_arr b1 ∧ count b1 = count b ∧ capacity b <= capacity b1
        ∧ ∀ i, i < capacity b → load (arr_cells b1) i = load (arr_cells b) i.
Proof.
  intros Hwf. unfold reserve_for_insert.
  destruct (count b + 1 >=? capacity b); [|by eauto 10 with lia].
  destruct (stash_arr_reserve_total b (u_stash_next_po2_u64 (count b + 1)) rb Hwf)
    as [[st b1] Hr].
  rewrite Hr. simpl. exists b1.
  pose proof (stash_arr_reserve_wf _ _ _ _ _ Hwf Hr).
  destruct (wf_arr_data b Hwf) as (_ & _ & He).
  destruct Hwf as (_ & _ & Hl).
  destruct (stash_arr_reserve_spec _ _ _ _ _ Hl ltac:(lia) Hr)
    as (? & ? & ? & ? & ? & ? & _).
  eauto 10.
Qed.

Lemma hash_range k cap : 0 < cap → 0 <= u_stash_umap_hash_u32 k cap < cap.
Proof. intros Hc. unfold u_stash_umap_hash_u32. apply Z.mod_pos_bound. lia. Qed.

Lemma find_entry_loop_result b k cap orig fuel index s :
  find_entry_loop fuel b k cap orig index = Some s →
  s = -1
  ∨ (0 <= s < count b
     ∧ ∃ e, load (arr_cells b) s = Some e ∧ occupied e = true ∧ key e = k).
Proof.
  revert index. induction fuel as [|fuel IH]; intros index; [discriminate|].
  rewrite find_entry_loop_S. cbv zeta. unfold stash_arr_at.
  destruct (Z.geb_spec index (count b)).
  - destruct (Z.eqb_spec ((index + 1) mod cap) orig); [intros [= <-]; auto|apply IH].
  - destruct (load (arr_cells b) index) as [e|] eqn:He; simpl; [|discriminate].
    pose proof (load_bound _ _ _ He).
    destruct (occupied e) eqn:Ho; simpl; [|intros [= <-]; auto].
    destruct (Z.eqb_spec (key e) k).
    + intros [= <-]. right. split; [lia|eauto].
    + destruct (Z.eqb_spec ((index + 1) mod cap) orig); [intros [= <-]; auto|apply IH].
Qed.

(** [u_stash_find_free_slot] always returns on a well-formed table. *)
Lemma u_stash_find_free_slot_spec t k :
  wf_umap t →
  ∃ s, u_stash_find_free_slot t k = Some s
       ∧ (s = -1 ∨ s = -2
          ∨ (0 <= s < count (buckets t)
             ∧ ∃ e, load (arr_cells (buckets t)) s = Some e ∧ occupied e = false)).
Proof.
  intros [Hwf Hb]. unfold u_stash_find_free_slot.
  destruct (negb (stash_umap_is_valid t) || (count (buckets t) =? 0)) eqn:E;
    [by eauto|].
  apply orb_false_iff in E as [_ Hc]. apply Z.eqb_neq in Hc.
  destruct Hwf as (_ & Hcnt & Hl).
  pose proof (hash_range k (count (buckets t)) ltac:(lia)) as Hh.
  destruct (find_free_loop_fuel (buckets t) k (count (buckets t))
              (u_stash_umap_hash_u32 k (count (buckets t)))
              (Z.to_nat (count (buckets t))) 0) as [s Hs]; [done|done|lia|lia|lia|].
  rewrite Z.add_0_r, Z.mod_small in Hs by done.
  exists s. split; [done|]. by eapply find_free_loop_result.
Qed.

Lemma u_stash_find_entry_index_spec t k :
  wf_umap t →
  ∃ s, u_stash_find_entry_index t k = Some s
       ∧ (s = -1
          ∨ (0 <= s < count (buckets t)
             ∧ ∃ e, load (arr_cells (buckets t)) s = Some e
                    ∧ occupied e = true ∧ key e = k)).
Proof.
  intros [Hwf Hb]. unfold u_stash_find_entry_index.
  destruct (negb (stash_umap_is_valid t) || (count (buckets t) =? 0)) eqn:E;
    [by eauto|].
  apply orb_false_iff in E as [_ Hc]. apply Z.eqb_neq in Hc.
  destruct Hwf as (_ & Hcnt & Hl).
  pose proof (hash_range k (count (buckets t)) ltac:(lia)) as Hh.
  destruct (find_entry_loop_fuel (buckets t) k (count (buckets t))
              (u_stash_umap_hash_u32 k (count (buckets t)))
              (Z.to_nat (count (buckets t))) 0) as [s Hs]; [done|done|lia|lia|lia|].
  rewrite Z.add_0_r, Z.mod_small in Hs by done.
  exists s. split; [done|]. by eapply find_entry_loop_result.
Qed.
Lemma wf_umap_valid t : wf_umap t → stash_umap_is_valid t = true.
Proof. by intros [(Hv & _) _]. Qed.

Lemma value_copy_is_Some (junk : nat → byte) vs bytes :
  vs <= Z.of_nat (length bytes) →
  is_Some (memcpy (fresh_cells junk 0 (Z.to_nat (vs / 1))) 0 bytes vs).
Proof.
  intros Hv. unfold memcpy. case_zb; [done|].
  rewrite Z.div_1_r.
  assert (in_block (fresh_cells junk 0 (Z.to_nat vs)) 0 vs = true) as ->
    by (apply in_block_spec; rewrite length_fresh_cells; lia).
  assert (in_block bytes 0 vs = true) as -> by (apply in_block_spec; lia).
  done.
Qed.

(** C8: on a well-formed table, [stash_umap_insert] returns one of
    [STASH_SUCCESS], [STASH_KEY_EXISTS] and [STASH_ERROR_OUT_OF_MEMORY],
    and whichever it returns, [buckets.count] is what it was; the
    capacity of the bucket array does not decrease.  (The value passed
    is [NULL] or a buffer of at least [value_size] bytes.) *)
Theorem stash_umap_insert_buckets_count t k v rb rv :
  wf_umap t →
  (∀ bytes, v = Some bytes → value_size t <= Z.of_nat (length bytes)) →
  ∃ st t', stash_umap_insert t k v rb rv = Some (st, t')
    ∧ (st = STASH_SUCCESS ∨ st = STASH_KEY_EXISTS
       ∨ st = STASH_ERROR_OUT_OF_MEMORY)
    ∧ count (buckets t') = count (buckets t)
    ∧ capacity (buckets t) <= capacity (buckets t')
    ∧ wf_umap t'.
Proof.
  intros Hwf Hv. unfold stash_umap_insert.
  destruct v as [bytes|]; [|by eauto 10 with lia].
  rewrite (wf_umap_valid t Hwf). simpl.
  destruct Hwf as [Hwfb Hb].
  destruct (reserve_for_insert_spec (buckets t) rb Hwfb)
    as (b1 & -> & Hwf1 & Hc1 & Hcap1 & Hload1).
  simpl.
  assert (wf_umap (with_buckets t b1)) as Hwft1 by (split; simpl; [done|lia]).
  destruct (u_stash_find_free_slot_spec (with_buckets t b1) k Hwft1)
    as (s & -> & Hs).
  simpl in *.
  destruct Hs as [->|[->|(Hs & e & He & Ho)]]; simpl; [by eauto 10..|].
  destruct (Z.eqb_spec s (-2)); [lia|]. destruct (Z.eqb_spec s (-1)); [lia|].
  destruct rv as [|p junk]; simpl; [by eauto 10|].
  destruct (value_copy_is_Some junk (value_size t) bytes) as [stored ->];
    [by apply Hv|].
  simpl. unfold stash_arr_at. rewrite to_size_t_small by lia.
  destruct (Z.geb_spec s (count b1)); [lia|]. simpl.
  pose proof (load_bound _ _ _ He) as Hsl.
  destruct (store_is_Some (arr_cells b1) s (Entry k (Some (Block p stored)) true))
    as [cs Hcs]; [done|].
  rewrite Hcs. simpl. eexists _, _. split; [done|]. split; [by left|].
  simpl. rewrite count_with_cells, capacity_with_cells.
  split; [done|]. split; [done|]. split; simpl.
  - apply wf_arr_with_cells; [done|]. by eapply store_length.
  - rewrite count_with_cells. lia.
Qed.
Lemma memcpy_exact (cs src : list byte) n :
  Z.of_nat (length cs) = n → Z.of_nat (length src) = n →
  memcpy cs 0 src n = Some src.
Proof.
  intros Hc Hs. unfold memcpy. case_zb.
  - assert (length cs = 0%nat) as ->%nil_length_inv by lia.
    assert (length src = 0%nat) as ->%nil_length_inv by lia. done.
  - assert (in_block cs 0 n = true) as -> by (apply in_block_spec; lia).
    assert (in_block src 0 n = true) as -> by (apply in_block_spec; lia).
    simpl. rewrite take_ge, drop_ge by lia. by rewrite app_nil_r.
Qed.

Lemma find_free_slot_loop t k s :
  u_stash_find_free_slot t k = Some s → 0 <= s →
  count (buckets t) ≠ 0
  ∧ find_free_loop (Z.to_nat (count (buckets t))) (buckets t) k (count (buckets t))
      (u_stash_umap_hash_u32 k (count (buckets t)))
      (u_stash_umap_hash_u32 k (count (buckets t))) = Some s.
Proof.
  unfold u_stash_find_free_slot.
  destruct (negb (stash_umap_is_valid t)); simpl; [intros [= <-]; lia|].
  destruct (Z.eqb_spec (count (buckets t)) 0); [intros [= <-]; lia|done].
Qed.

Lemma find_entry_index_loop t k s :
  u_stash_find_entry_index t k = Some s → 0 <= s →
  count (buckets t) ≠ 0
  ∧ find_entry_loop (Z.to_nat (count (buckets t))) (buckets t) k (count (buckets t))
      (u_stash_umap_hash_u32 k (count (buckets t)))
      (u_stash_umap_hash_u32 k (count (buckets t))) = Some s.
Proof.
  unfold u_stash_find_entry_index.
  destruct (negb (stash_umap_is_valid t)); simpl; [intros [= <-]; lia|].
  destruct (Z.eqb_spec (count (buckets t)) 0); [intros [= <-]; lia|done].
Qed.

Lemma find_entry_index_on_loop t k :
  stash_umap_is_valid t = true → count (buckets t) ≠ 0 →
  u_stash_find_entry_index t k
  = find_entry_loop (Z.to_nat (count (buckets t))) (buckets t) k (count (buckets t))
      (u_stash_umap_hash_u32 k (count (buckets t)))
      (u_stash_umap_hash_u32 k (count (buckets t))).
Proof.
  intros Hv Hc. unfold u_stash_find_entry_index. rewrite Hv. simpl.
  by destruct (Z.eqb_spec (count (buckets t)) 0).
Qed.

(** A successful insert is found again, with the value it stored. *)
Lemma stash_umap_get_after_insert t k v rb rv t' out :
  wf_umap t →
  Z.of_nat (length v) = value_size t → Z.of_nat (length out) = value_size t →
  stash_umap_insert t k (Some v) rb rv = Some (STASH_SUCCESS, t') →
  stash_umap_get t' k (Some out) = Some (STASH_SUCCESS, Some v).
Proof.
  intros Hwf Hlv Hlo. unfold stash_umap_insert.
  rewrite (wf_umap_valid t Hwf). simpl.
  destruct Hwf as [Hwfb Hb].
  destruct (reserve_for_insert_spec (buckets t) rb Hwfb)
    as (b1 & -> & Hwf1 & Hc1 & Hcap1 & Hload1).
  simpl.
  assert (wf_umap (with_buckets t b1)) as Hwft1 by (split; simpl; [done|lia]).
  destruct (u_stash_find_free_slot_spec (with_buckets t b1) k Hwft1)
    as (s & Hslot & Hs).
  rewrite Hslot. simpl.
  destruct Hs as [->|[->|(Hs & e & He & Ho)]]; simpl; [discriminate..|].
  change (buckets (with_buckets t b1)) with b1 in Hs, He.
  destruct (Z.eqb_spec s (-2)); [lia|]. destruct (Z.eqb_spec s (-1)); [lia|].
  destruct rv as [|p junk]; simpl; [discriminate|].
  rewrite memcpy_exact; [|rewrite length_fresh_cells, Z.div_1_r; lia|done].
  simpl. unfold stash_arr_at. rewrite to_size_t_small by lia.
  destruct (Z.geb_spec s (count b1)); [lia|]. simpl.
  destruct (store (arr_cells b1) s (Entry k (Some (Block p v)) true))
    as [cs|] eqn:Hcs; simpl; [|discriminate].
  intros [= <-].
  destruct (wf_arr_data b1 Hwf1) as (Hd1 & _ & _).
  destruct (find_free_slot_loop _ _ _ Hslot) as [Hne Hloop]; [lia|].
  simpl in Hne, Hloop.
  unfold stash_umap_get.
  assert (stash_umap_is_valid
            (Umap (with_cells b1 cs) (umap_count t + 1) (value_size t)) = true)
    as Hv'.
  { unfold stash_umap_is_valid. simpl. rewrite stash_arr_is_valid_with_cells.
    apply Hwf1. }
  rewrite Hv'. simpl.
  rewrite find_entry_index_on_loop by (simpl; rewrite ?count_with_cells; done).
  simpl. rewrite count_with_cells.
  rewrite (find_free_then_entry b1 (with_cells b1 cs) k _ _ s
             (Some (Block p v)) _ _); [|lia|apply count_with_cells|lia| | |done].
  - simpl. destruct (Z.ltb_spec s 0); [lia|].
    unfold stash_arr_at. rewrite u32_small by lia.
    destruct (Z.geb_spec s (count b1)); [lia|]. simpl.
    rewrite arr_cells_with_cells by done.
    rewrite (load_store_eq _ _ _ _ Hcs). simpl.
    unfold value_bytes. simpl. by rewrite memcpy_exact.
  - intros i Hi Hne'. rewrite arr_cells_with_cells by done.
    by eapply load_store_ne.
  - rewrite arr_cells_with_cells by done. by eapply load_store_eq.
Qed.

(** A successful remove leaves a table that does not contain the key. *)
Lemma stash_umap_contains_after_remove t k element t' out :
  wf_umap t →
  stash_umap_remove t k element = Some (STASH_SUCCESS, t', out) →
  stash_umap_contains t' k = Some false.
Proof.
  intros Hwf. unfold stash_umap_remove.
  rewrite (wf_umap_valid t Hwf). simpl.
  destruct (u_stash_find_entry_index_spec t k Hwf) as (j & Hj & Hcases).
  rewrite Hj. simpl.
  destruct Hwf as [Hwfb Hb].
  destruct Hcases as [->|(Hjr & e & He & Ho & Hk)]; simpl; [discriminate|].
  destruct (Z.ltb_spec j 0); [lia|].
  unfold stash_arr_at. rewrite u32_small by lia.
  destruct (Z.geb_spec j (count (buckets t))); [lia|]. simpl.
  rewrite He. simpl.
  destruct (match element with
            | Some out0 => Some <$> memcpy out0 0 (value_bytes e) (value_size t)
            | None => Some None
            end) as [el|]; simpl; [|discriminate].
  destruct (store (arr_cells (buckets t)) j (Entry (key e) None false))
    as [cs|] eqn:Hcs; simpl; [|discriminate].
  intros [= <- <-].
  destruct (wf_arr_data _ Hwfb) as (Hd & _ & _).
  destruct (find_entry_index_loop _ _ _ Hj) as [Hne Hloop]; [lia|].
  unfold stash_umap_contains.
  assert (stash_umap_is_valid
            (Umap (with_cells (buckets t) cs) (umap_count t - 1) (value_size t))
          = true) as Hv'.
  { unfold stash_umap_is_valid. simpl. rewrite stash_arr_is_valid_with_cells.
    apply Hwfb. }
  rewrite Hv'. simpl.
  rewrite find_entry_index_on_loop by (simpl; rewrite ?count_with_cells; done).
  simpl. rewrite count_with_cells.
  rewrite (find_entry_after_remove (buckets t) (with_cells (buckets t) cs) k _ _ j _ _);
    [done|apply count_with_cells|lia| | |done].
  - intros i Hi Hne'. rewrite arr_cells_with_cells by done.
    by eapply load_store_ne.
  - rewrite arr_cells_with_cells by done. eexists. split; [by eapply load_store_eq|done].
Qed.

(** C1: on a well-formed table, if [insert(k, v)] returns [STASH_SUCCESS]
    then [get(k)] on the resulting table returns [STASH_SUCCESS] and
    copies out exactly [v]; and if [remove(k)] returns [STASH_SUCCESS]
    then [contains(k)] is false on the resulting table. *)
Theorem stash_umap_roundtrip t k :
  wf_umap t →
  (∀ v rb rv t' out,
     Z.of_nat (length v) = value_size t → Z.of_nat (length out) = value_size t →
     stash_umap_insert t k (Some v) rb rv = Some (STASH_SUCCESS, t') →
     stash_umap_get t' k (Some out) = Some (STASH_SUCCESS, Some v))
  ∧ (∀ element t' out,
     stash_umap_remove t k element = Some (STASH_SUCCESS, t', out) →
     stash_umap_contains t' k = Some false).
Proof.
  intros Hwf. split.
  - intros v rb rv t' out. by apply stash_umap_get_after_insert.
  - intros element t' out. by apply stash_umap_contains_after_remove.
Qed.
Lemma bucket_Some t i e :
  bucket t i = Some e ↔
  0 <= i < count (buckets t) ∧ load (arr_cells (buckets t)) i = Some e.
Proof.
  unfold bucket. destruct (Z.leb_spec 0 i), (Z.ltb_spec i (count (buckets t)));
    simpl; split; try discriminate; try tauto; lia.
Qed.

Lemma bucket_with_buckets t b1 :
  wf_umap t → count b1 = count (buckets t) →
  (∀ i, i < capacity (buckets t) →
        load (arr_cells b1) i = load (arr_cells (buckets t)) i) →
  ∀ i, bucket (with_buckets t b1) i = bucket t i.
Proof.
  intros [(_ & Hc & _) _] Hcnt Hload i. unfold bucket. simpl. rewrite Hcnt.
  destruct (Z.leb_spec 0 i), (Z.ltb_spec i (count (buckets t))); simpl; try done.
  apply Hload. lia.
Qed.

Lemma find_free_slot_on_loop t k :
  stash_umap_is_valid t = true → count (buckets t) ≠ 0 →
  u_stash_find_free_slot t k
  = find_free_loop (Z.to_nat (count (buckets t))) (buckets t) k (count (buckets t))
      (u_stash_umap_hash_u32 k (count (buckets t)))
      ((u_stash_umap_hash_u32 k (count (buckets t)) + 0) mod count (buckets t)).
Proof.
  intros Hv Hc. unfold u_stash_find_free_slot. rewrite Hv. simpl.
  destruct (Z.eqb_spec (count (buckets t)) 0); [done|].
  rewrite Z.add_0_r. unfold u_stash_umap_hash_u32. by rewrite Z.mod_mod by done.
Qed.

Lemma find_entry_index_on_loop' t k :
  stash_umap_is_valid t = true → count (buckets t) ≠ 0 →
  u_stash_find_entry_index t k
  = find_entry_loop (Z.to_nat (count (buckets t))) (buckets t) k (count (buckets t))
      (u_stash_umap_hash_u32 k (count (buckets t)))
      ((u_stash_umap_hash_u32 k (count (buckets t)) + 0) mod count (buckets t)).
Proof.
  intros Hv Hc. rewrite find_entry_index_on_loop by done.
  rewrite Z.add_0_r. unfold u_stash_umap_hash_u32. by rewrite Z.mod_mod by done.
Qed.

(** On a table without a free bucket, [contains] tells whether some bucket
    holds the key. *)
Lemma stash_umap_contains_full t k :
  wf_umap t → all_occupied t →
  (key_stored t k → stash_umap_contains t k = Some true)
  ∧ (¬ key_stored t k → stash_umap_contains t k = Some false).
Proof.
  intros Hwf Hall. unfold stash_umap_contains.
  rewrite (wf_umap_valid t Hwf). simpl.
  pose proof Hwf as [Hwfb Hb].
  assert (∀ i, 0 <= i < count (buckets t) →
            ∃ e, load (arr_cells (buckets t)) i = Some e ∧ occupied e = true)
    as Hall1.
  { intros i Hi. destruct (Hall i Hi) as (e & [_ He]%bucket_Some & Ho). eauto. }
  destruct (Z.eq_dec (count (buckets t)) 0) as [Hz|Hnz].
  { unfold u_stash_find_entry_index. rewrite (wf_umap_valid t Hwf). simpl.
    destruct (Z.eqb_spec (count (buckets t)) 0); [|done]. simpl. split; [|done].
    intros (i & e0 & [Hi _]%bucket_Some & _). lia. }
  rewrite find_entry_index_on_loop' by (by try apply wf_umap_valid).
  set (orig := u_stash_umap_hash_u32 k (count (buckets t))).
  assert (0 <= orig < count (buckets t)) as Ho.
  { apply hash_range. destruct Hwfb as (_ & ? & _). lia. }
  split.
  - intros (i & e & [Hi He]%bucket_Some & Hocc & Hk).
    destruct (find_entry_loop_full_present (buckets t) k (count (buckets t)) orig
                (Z.to_nat (count (buckets t))) 0 ((i - orig) mod count (buckets t)))
      as (s & -> & Hs); [done|done|done| |lia| | |].
    + exists e. split; [|done].
      rewrite Z.add_mod_idemp_r by lia.
      replace (orig + (i - orig)) with i by lia. by rewrite Z.mod_small by lia.
    + pose proof (Z.mod_pos_bound (i - orig) (count (buckets t))). lia.
    + pose proof (Z.mod_pos_bound (i - orig) (count (buckets t))). lia.
    + simpl. f_equal. apply Z.geb_le. lia.
  - intros Habs.
    rewrite (find_entry_loop_full_absent (buckets t) k (count (buckets t)) orig);
      [done|done|done| |lia|lia].
    intros i Hi. destruct (Hall1 i Hi) as (e & He & Hocc).
    exists e. split; [done|]. split; [done|]. intros Hk. apply Habs.
    exists i, e. split; [|done]. apply bucket_Some. split; [lia|done].
Qed.

(** C5: on a well-formed table all of whose [buckets.count] buckets are
    occupied, inserting a key that is not present (no bucket holds it,
    [contains] is false) returns [STASH_ERROR_OUT_OF_MEMORY], and
    inserting a key that is present (some bucket holds it, [contains] is
    true) returns [STASH_KEY_EXISTS]; the buckets and the element count are
    what they were. *)
Theorem stash_umap_insert_full t k v rb rv :
  wf_umap t → all_occupied t →
  (¬ key_stored t k →
   stash_umap_contains t k = Some false
   ∧ ∃ t', stash_umap_insert t k (Some v) rb rv = Some (STASH_ERROR_OUT_OF_MEMORY, t')
           ∧ umap_count t' = umap_count t ∧ ∀ i, bucket t' i = bucket t i)
  ∧ (key_stored t k →
     stash_umap_contains t k = Some true
     ∧ ∃ t', stash_umap_insert t k (Some v) rb rv = Some (STASH_KEY_EXISTS, t')
             ∧ umap_count t' = umap_count t ∧ ∀ i, bucket t' i = bucket t i).
Proof.
  intros Hwf Hall.
  destruct (stash_umap_contains_full t k Hwf Hall) as [Hct Hcf].
  cut ((¬ key_stored t k →
        ∃ t', stash_umap_insert t k (Some v) rb rv
              = Some (STASH_ERROR_OUT_OF_MEMORY, t')
              ∧ umap_count t' = umap_count t ∧ ∀ i, bucket t' i = bucket t i)
       ∧ (key_stored t k →
          ∃ t', stash_umap_insert t k (Some v) rb rv = Some (STASH_KEY_EXISTS, t')
                ∧ umap_count t' = umap_count t ∧ ∀ i, bucket t' i = bucket t i)).
  { intros [Habs Hpres]. split; intros Hk; (split; [auto|auto]). }
  unfold stash_umap_insert.
  rewrite (wf_umap_valid t Hwf). simpl.
  pose proof Hwf as [Hwfb Hb].
  destruct (reserve_for_insert_spec (buckets t) rb Hwfb)
    as (b1 & -> & Hwf1 & Hc1 & Hcap1 & Hload1).
  simpl.
  pose proof (bucket_with_buckets t b1 Hwf Hc1 Hload1) as Hframe.
  assert (stash_umap_is_valid (with_buckets t b1) = true) as Hv1 by apply Hwf1.
  assert (∀ i, 0 <= i < count b1 →
            ∃ e, load (arr_cells b1) i = Some e ∧ occupied e = true) as Hall1.
  { intros i Hi. destruct (Hall i) as (e & He & Ho); [lia|].
    apply bucket_Some in He as [_ He]. exists e. split; [|done].
    rewrite Hload1; [done|]. destruct Hwfb as (_ & ? & _). lia. }
  destruct (Z.eq_dec (count b1) 0) as [Hz|Hnz].
  { (* no bucket at all *)
    unfold u_stash_find_free_slot. rewrite Hv1. simpl.
    destruct (Z.eqb_spec (count b1) 0); [|done]. simpl. split.
    - intros _. by eauto.
    - intros (i & e0 & [Hi _]%bucket_Some & _). lia. }
  rewrite find_free_slot_on_loop by done. simpl.
  set (orig := u_stash_umap_hash_u32 k (count b1)).
  assert (0 <= orig < count b1) as Ho.
  { apply hash_range. destruct Hwf1 as (_ & ? & _). lia. }
  split.
  - intros Habs.
    rewrite (find_free_loop_full_absent b1 k (count b1) orig);
      [by eauto|done|done| |lia|lia].
    intros i Hi. destruct (Hall1 i Hi) as (e & He & Hocc).
    exists e. split; [done|]. split; [done|]. intros Hk. apply Habs.
    exists i, e. split; [|done]. apply bucket_Some. split; [lia|].
    rewrite <- Hload1; [done|]. destruct Hwfb as (_ & ? & _). lia.
  - intros (i & e & [Hi He]%bucket_Some & Hocc & Hk).
    rewrite (find_free_loop_full_present b1 k (count b1) orig _ 0
               ((i - orig) mod count b1)); [by eauto|done|done|done| |lia| |].
    + exists e. split; [|done].
      rewrite Z.add_mod_idemp_r by lia.
      replace (orig + (i - orig)) with i by lia.
      rewrite Z.mod_small by lia.
      rewrite Hload1; [done|]. destruct Hwfb as (_ & ? & _). lia.
    + pose proof (Z.mod_pos_bound (i - orig) (count b1)). lia.
    + pose proof (Z.mod_pos_bound (i - orig) (count b1)). lia.
Qed.

(** Without a bucket and with room to spare, an insert changes nothing. *)
Lemma stash_umap_insert_no_bucket t k v rb rv :
  count (buckets t) = 0 → 1 < capacity (buckets t) →
  stash_umap_insert t k v rb rv = Some (STASH_ERROR_OUT_OF_MEMORY, t).
Proof.
  destruct t as [b c vs]. simpl. intros Hc Hcap. unfold stash_umap_insert.
  destruct v as [v|]; [|done].
  destruct (negb (stash_umap_is_valid (Umap b c vs))); [done|].
  simpl. unfold reserve_for_insert. rewrite Hc.
  destruct (Z.geb_spec (0 + 1) (capacity b)); [lia|]. simpl.
  unfold u_stash_find_free_slot. simpl. rewrite Hc. simpl.
  by rewrite orb_true_r.
Qed.

Lemma stash_umap_insert_seq_no_bucket t reqs :
  count (buckets t) = 0 → 1 < capacity (buckets t) →
  stash_umap_insert_seq t reqs
  = Some (map (fun _ => STASH_ERROR_OUT_OF_MEMORY) reqs, t).
Proof.
  intros Hc Hcap. induction reqs as [|[[[k v] rb] rv] reqs IH]; [done|].
  simpl. rewrite stash_umap_insert_no_bucket by done. simpl. by rewrite IH.
Qed.

(** C10: a table created with [initialCapacity == 0], the allocation
    having succeeded, is valid with a bucket array of capacity 16 and
    [buckets.count == 0]; every insert on it, whatever the key, the value
    and the allocator do, returns [STASH_ERROR_OUT_OF_MEMORY] and leaves
    the table as it is, so this holds for every later insert too and the
    table never holds an element. *)
Theorem stash_umap_create_zero_capacity vs p junk r' :
  ∃ t, stash_umap_create 0 vs (AllocOk p junk) r' = Some t
       ∧ stash_umap_is_valid t = true
       ∧ capacity (buckets t) = 16 ∧ count (buckets t) = 0 ∧ umap_count t = 0
       ∧ (∀ k v rb rv,
            stash_umap_insert t k v rb rv = Some (STASH_ERROR_OUT_OF_MEMORY, t))
       ∧ (∀ reqs,
            stash_umap_insert_seq t reqs
            = Some (map (fun _ => STASH_ERROR_OUT_OF_MEMORY) reqs, t)).
Proof.
  exists (Umap (Arr (Some (Block p (fresh_cells junk 0 16))) 0 16
                  sizeof_stash_umap_entry) 0 vs).
  split; [reflexivity|]. do 4 (split; [reflexivity|]). split.
  - intros k v rb rv. by apply stash_umap_insert_no_bucket.
  - intros reqs. by apply stash_umap_insert_seq_no_bucket.
Qed.
End TableFacts.

(** ** Registry *)

Section PushPopFacts.
Context {A : Type} `{!Elem A}.
Implicit Types (a : stash_arr A).

Lemma store_data a i v cs : store (arr_cells a) i v = Some cs → data a ≠ None.
Proof.
  intros [Hi _]%store_Some. unfold arr_cells in Hi.
  destruct (data a); [done|]. simpl in Hi. lia.
Qed.

Lemma stash_arr_reserve_cells a n r st a' :
  Z.of_nat (length (arr_cells a)) = capacity a → elem_size a ≠ 0 →
  stash_arr_reserve a n r = Some (st, a') →
  ∃ ext, arr_cells a' = arr_cells a ++ ext.
Proof.
  intros Hl He. unfold stash_arr_reserve.
  case_zb; [intros [= <- <-]; exists []; by rewrite app_nil_r|].
  destruct r as [|p junk]; simpl;
    [intros [= <- <-]; exists []; by rewrite app_nil_r|].
  intros [= <- <-]. rewrite Z.div_mul by done. fold (arr_cells a).
  rewrite arr_cells_Arr. eexists. apply take_app_ge. lia.
Qed.

Lemma arr_inv_with_cells a cs :
  arr_inv a → data a ≠ None → length cs = length (arr_cells a) →
  arr_inv (with_cells a cs).
Proof.
  intros [Hc Hl] Hd Hcs. unfold arr_inv.
  rewrite arr_cells_with_cells by done.
  destruct a as [[d|] c n e]; [simpl in *|done]. split; [done|lia].
Qed.

Lemma stash_arr_push_back_spec a element r st a' :
  arr_inv a → elem_size a ≠ 0 →
  stash_arr_push_back a element r = Some (st, a') →
  (st = STASH_SUCCESS ∧ arr_inv a' ∧ count a' = count a + 1
   ∧ elem_size a' = elem_size a
   ∧ ∃ ext, arr_cells a'
            = <[Z.to_nat (count a) :=
                  match element with Some e => e | None => elem_zero end]>
                (arr_cells a ++ ext))
  ∨ (st = STASH_ERROR_OUT_OF_MEMORY ∧ a' = a ∧ capacity a <= count a).
Proof.
  intros [Hc Hl] Hes. unfold stash_arr_push_back, grow_for_push.
  assert (∀ a1 ext,
    count a1 = count a → elem_size a1 = elem_size a →
    Z.of_nat (length (arr_cells a1)) = capacity a1 →
    arr_cells a1 = arr_cells a ++ ext →
    (cs ← zero_width (elem_size a1) (arr_cells a1)
            (store (arr_cells a1) (count a1)
               (match element with Some e => e | None => elem_zero end));
     Some (STASH_SUCCESS, with_count (with_cells a1 cs) (count a1 + 1)))
    = Some (st, a') →
    st = STASH_SUCCESS ∧ arr_inv a' ∧ count a' = count a + 1
    ∧ elem_size a' = elem_size a
    ∧ ∃ ext, arr_cells a'
             = <[Z.to_nat (count a) :=
                   match element with Some e => e | None => elem_zero end]>
                 (arr_cells a ++ ext)) as Hstore.
  { intros a1 ext Hc1 He1 Hl1 Hext.
    rewrite zero_width_ne by congruence.
    destruct (store (arr_cells a1) (count a1) _) as [cs|] eqn:Hcs; simpl;
      [|discriminate].
    intros [= <- <-]. pose proof (store_data _ _ _ _ Hcs) as Hd1.
    apply store_Some in Hcs as [Hi ->].
    destruct a1 as [[d|] c1 n1 e1]; [|done]. unfold arr_inv. arr_simpl.
    rewrite length_insert. subst c1.
    split; [done|]. split; [lia|]. split; [done|]. split; [done|].
    exists ext. by rewrite <- Hext. }
  destruct (Z.geb_spec (count a) (capacity a)).
  - destruct (stash_arr_reserve a _ r) as [[ret a1]|] eqn:Hr; simpl; [|discriminate].
    destruct (stash_arr_reserve_cells _ _ _ _ _ Hl Hes Hr) as [ext Hext].
    destruct (stash_arr_reserve_spec _ _ _ _ _ Hl Hes Hr)
      as (Hc1 & He1 & Hcap1 & Hl1 & _ & _ & [->|[-> ->]]).
    + simpl. intros H1. left. by eapply Hstore.
    + simpl. intros [= <- <-]. right. split; [done|]. split; [done|lia].
  - simpl. intros H1. left. eapply (Hstore a []); try done. by rewrite app_nil_r.
Qed.


Lemma stash_arr_pop_back_spec a x st a' out :
  arr_inv a → 0 < count a →
  stash_arr_pop_back a (Some x) = Some (st, a', out) →
  st = STASH_SUCCESS ∧ a' = with_count a (count a - 1)
  ∧ ∃ v, out = Some v ∧ load (arr_cells a) (count a - 1) = Some v.
Proof.
  intros [Hc Hl] Hpos. unfold stash_arr_pop_back.
  destruct (Z.eqb_spec (count a) 0); [lia|].
  change (arr_cells (with_count a (count a - 1))) with (arr_cells a).
  change (count (with_count a (count a - 1))) with (count a - 1).
  destruct (load_is_Some (arr_cells a) (count a - 1)) as [v ->]; [lia|].
  simpl. intros [= <- <- <-]. eauto.
Qed.

(** ** Arrays of any element size *)

Lemma arr_shape_inv a : arr_shape a → elem_size a ≠ 0 → arr_inv a.
Proof. intros (Hc & _ & [[_ Hl]|[He _]]) Hes; [done|done]. Qed.

Lemma arr_shape_zero a :
  arr_shape a → elem_size a = 0 → arr_cells a = [].
Proof. by intros (_ & _ & [[He _]|[_ Hl]]) Hes. Qed.

Lemma with_cells_same a : with_cells a (arr_cells a) = a.
Proof. by destruct a as [[[p cs]|] c n e]. Qed.

Lemma arr_shape_with_count a n :
  arr_shape a → 0 <= n <= capacity a → arr_shape (with_count a n).
Proof. intros (Hc & Hd & Hl) Hn. unfold arr_shape. arr_simpl. by split; [|split]. Qed.

Lemma arr_shape_with_cells a cs :
  arr_shape a → elem_size a ≠ 0 → length cs = length (arr_cells a) →
  arr_shape (with_cells a cs).
Proof.
  intros (Hc & Hd & Hl) He Hcs. destruct Hl as [[_ Hl]|[? _]]; [|done].
  destruct a as [[d|] c n e]; unfold arr_shape; arr_simpl.
  - split; [done|]. split; [split; [intros _; by apply Hd|done]|].
    left. split; [done|]. lia.
  - split; [done|]. split; [done|]. by left.
Qed.

(** [stash_arr_reserve] on any array the functions build. *)
Lemma stash_arr_reserve_shape a n r st a' :
  arr_shape a → stash_arr_reserve a n r = Some (st, a') →
  arr_shape a' ∧ count a' = count a ∧ elem_size a' = elem_size a
  ∧ ((st = STASH_SUCCESS ∧ n <= capacity a' ∧ capacity a <= capacity a')
     ∨ (st = STASH_ERROR_OUT_OF_MEMORY ∧ a' = a ∧ capacity a < n)).
Proof.
  intros Hs. pose proof Hs as (Hc & Hd & Hl). unfold stash_arr_reserve.
  destruct (Z.geb_spec (capacity a) n);
    [intros [= <- <-]; split; [done|]; split; [done|]; split; [done|];
     left; split; [done|lia]|].
  destruct r as [|p junk]; simpl;
    [intros [= <- <-]; split; [done|]; split; [done|]; split; [done|];
     right; by split; [|split; [|lia]]|].
  intros [= <- <-]. simpl.
  split; [|by split; [|split; [|left; split; [|lia]]]].
  split; [simpl; lia|]. split; [simpl; split; [lia|done]|]. simpl.
  destruct Hl as [[He Hl]|[He Hl]].
  - left. split; [done|]. fold (arr_cells a).
    rewrite Z.div_mul by done. rewrite arr_cells_Arr.
    rewrite length_take, length_app, length_fresh_cells. lia.
  - right. split; [done|]. rewrite arr_cells_Arr. by rewrite He, Z.mul_0_r.
Qed.

(** [stash_arr_push_back] on any array the functions build: with slots
    of zero bytes only the count moves. *)
Lemma stash_arr_push_back_shape a element r st a' :
  arr_shape a → stash_arr_push_back a element r = Some (st, a') →
  (st = STASH_SUCCESS ∧ arr_shape a' ∧ count a' = count a + 1
   ∧ elem_size a' = elem_size a)
  ∨ (st = STASH_ERROR_OUT_OF_MEMORY ∧ a' = a ∧ capacity a <= count a).
Proof.
  intros Hs Hpush. destruct (Z.eq_dec (elem_size a) 0) as [Hz|Hnz].
  - revert Hpush. unfold stash_arr_push_back, grow_for_push.
    pose proof (u_stash_next_po2_u64_ge (count a + 1)) as Hpo2.
    assert (∀ a1, arr_shape a1 → elem_size a1 = 0 → count a1 < capacity a1 →
              count a1 = count a →
              (cs ← zero_width (elem_size a1) (arr_cells a1)
                      (store (arr_cells a1) (count a1)
                         (match element with Some e => e | None => elem_zero end));
               Some (STASH_SUCCESS, with_count (with_cells a1 cs) (count a1 + 1)))
              = Some (st, a') →
              st = STASH_SUCCESS ∧ arr_shape a' ∧ count a' = count a + 1
              ∧ elem_size a' = 0) as Hno.
    { intros a1 Hs1 Hz1 Hroom Hc1. rewrite (arr_shape_zero a1 Hs1 Hz1).
      rewrite store_nil. simpl. rewrite Hz1. simpl. intros [= <- <-].
      pose proof (with_cells_same a1) as Hsame.
      rewrite (arr_shape_zero a1 Hs1 Hz1) in Hsame. rewrite Hsame.
      split; [done|]. destruct Hs1 as (Hcc & Hdd & Hll).
      split; [|by split; [simpl; lia|]].
      split; [simpl; lia|]. by split. }
    destruct (Z.geb_spec (count a) (capacity a)) as [Hfull|Hroom].
    + destruct (stash_arr_reserve a _ r) as [[ret a1]|] eqn:Hr; simpl;
        [|discriminate].
      destruct (stash_arr_reserve_shape _ _ _ _ _ Hs Hr)
        as (Hs1 & Hc1 & He1 & [(-> & Hn & _)|(-> & -> & _)]).
      * simpl. intros H1. left.
        destruct Hs as (Hc & _).
        destruct (Hno a1 Hs1 ltac:(congruence) ltac:(lia) Hc1 H1)
          as (? & ? & ? & ?).
        split; [done|]. split; [done|]. split; [done|congruence].
      * simpl. intros [= <- <-]. right. by split; [|split; [|lia]].
    + simpl. intros H1. left.
      destruct (Hno a Hs Hz Hroom eq_refl H1) as (? & ? & ? & ?).
      split; [done|]. split; [done|]. split; [done|congruence].
  - pose proof (arr_shape_inv a Hs Hnz) as Hi.
    destruct (stash_arr_push_back_spec _ _ _ _ _ Hi Hnz Hpush)
      as [(-> & Hi' & Hc' & He' & ext & Hext)|(-> & -> & Hfull)];
      [left|by right].
    split; [done|]. split; [|done]. destruct Hi' as [Hcc Hll].
    destruct Hi as [Hc _].
    split; [done|]. split; [|left; split; [congruence|done]].
    split; [intros _; lia|]. intros _. intros Hd. unfold arr_cells in Hll.
    rewrite Hd in Hll. simpl in Hll. lia.
Qed.

(** [stash_arr_pop_back] reads nothing from slots of zero bytes. *)
Lemma stash_arr_pop_back_zero a x st a' out :
  arr_shape a → elem_size a = 0 → 0 < count a →
  stash_arr_pop_back a (Some x) = Some (st, a', out) →
  st = STASH_SUCCESS ∧ a' = with_count a (count a - 1) ∧ out = Some x.
Proof.
  intros Hs Hz Hpos. unfold stash_arr_pop_back.
  destruct (Z.eqb_spec (count a) 0); [lia|].
  change (arr_cells (with_count a (count a - 1))) with (arr_cells a).
  change (elem_size (with_count a (count a - 1))) with (elem_size a).
  rewrite (arr_shape_zero a Hs Hz), Hz.
  rewrite load_nil. simpl. by intros [= <- <- <-].
Qed.
End PushPopFacts.

Section RegistryFacts.
Context {T : Type} `{!Elem T}.
Implicit Types (reg : stash_reg T) (id : Z).

Lemma arr_inv_create {A} `{!Elem A} capacity es (r : alloc_result A) :
  0 <= capacity →
  arr_inv (stash_arr_create capacity es r) ∧ count (stash_arr_create capacity es r) = 0.
Proof.
  intros Hc. unfold stash_arr_create, arr_inv.
  destruct (Z.eqb_spec capacity 0), (Z.eqb_spec es 0); simpl; try (split; [split|]; done).
  destruct r as [|p junk]; simpl; [split; [split|]; done|].
  arr_simpl. rewrite length_fresh_cells, Z.div_mul by done. split; [split|]; lia.
Qed.

Lemma arr_shape_create {A} `{!Elem A} capacity es (r : alloc_result A) :
  0 <= capacity → arr_shape (stash_arr_create capacity es r).
Proof.
  intros Hc.
  assert (arr_shape (zero_arr : stash_arr A)) as Hzero.
  { split; [done|]. split; [split; [done|]; unfold zero_arr; simpl; lia|].
    by right. }
  unfold stash_arr_create.
  destruct (Z.eqb_spec capacity 0), (Z.eqb_spec es 0); simpl; try done.
  destruct r as [|p junk]; simpl; [done|].
  unfold arr_shape. arr_simpl.
  split; [lia|]. split; [split; [lia|done]|]. left. split; [done|].
  rewrite length_fresh_cells, Z.div_mul by done. lia.
Qed.

Lemma stash_reg_create_inv capacity es rf rv (re : alloc_result T) :
  0 <= capacity → reg_inv (stash_reg_create capacity es rf rv re).
Proof.
  intros Hc.
  destruct (arr_inv_create capacity es re Hc) as [Hie Hce].
  destruct (arr_inv_create capacity sizeof_bool rv Hc) as [Hiv Hcv].
  destruct (arr_inv_create capacity sizeof_uint32_t rf Hc) as [Hif Hcf].
  pose proof (arr_shape_create capacity es re Hc) as Hse.
  pose proof (arr_shape_create capacity sizeof_bool rv Hc) as Hsv.
  pose proof (arr_shape_create capacity sizeof_uint32_t rf Hc) as Hsf.
  unfold stash_reg_create, reg_inv, free_list. simpl.
  rewrite Hce, Hcv, Hcf. simpl.
  do 6 (split; [done|]). split; [apply NoDup_nil_2|].
  split; [intros id []%elem_of_nil|].
  split; [|done].
  unfold stash_arr_create.
  destruct ((capacity =? 0) || (es =? 0)); [by right|].
  destruct (STASH_MALLOC _ _ re); [by left|by right].
Qed.

(** The top of the stack of retired identifiers. *)
Lemma free_list_top reg v :
  arr_inv (free_ids reg) → 0 < count (free_ids reg) →
  load (arr_cells (free_ids reg)) (count (free_ids reg) - 1) = Some v →
  free_list reg
  = take (Z.to_nat (count (free_ids reg) - 1)) (arr_cells (free_ids reg)) ++ [v].
Proof.
  intros [Hc Hl] Hpos [_ Hv]%load_Some. unfold free_list.
  replace (Z.to_nat (count (free_ids reg)))
    with (S (Z.to_nat (count (free_ids reg) - 1))) by lia.
  by apply take_S_r.
Qed.

(** The element is written as one [T], or not at all. *)
Lemma write_element_typed reg p element cs :
  reg_elem_size reg ≠ 0 →
  write_element reg (Some p) element = Some cs →
  reg_elem_size reg = elem_size (elements reg)
  ∧ store (arr_cells (elements reg)) p
      (match element with Some e => e | None => elem_zero end) = Some cs.
Proof.
  intros Hes. unfold write_element. simpl. rewrite zero_width_ne by done.
  by destruct (Z.eqb_spec (reg_elem_size reg) (elem_size (elements reg))).
Qed.

Lemma write_element_zero reg p element cs :
  reg_elem_size reg = 0 → arr_cells (elements reg) = [] →
  write_element reg (Some p) element = Some cs → cs = [].
Proof.
  intros Hes Hnil. unfold write_element. simpl. rewrite Hnil, store_nil, Hes.
  destruct (0 =? elem_size (elements reg)); simpl; by intros [= <-].
Qed.

Lemma write_element_shape reg p element cs :
  arr_shape (elements reg) →
  elem_size (elements reg) = reg_elem_size reg ∨ elem_size (elements reg) = 0 →
  (reg_elem_size reg ≠ 0 → arr_inv (elements reg)) →
  write_element reg (Some p) element = Some cs →
  arr_shape (with_cells (elements reg) cs)
  ∧ (reg_elem_size reg ≠ 0 → arr_inv (with_cells (elements reg) cs)).
Proof.
  intros Hs Hes Hty Hw. destruct (Z.eq_dec (reg_elem_size reg) 0) as [Hz|Hnz].
  - assert (elem_size (elements reg) = 0) as Hz' by (destruct Hes; congruence).
    pose proof (arr_shape_zero _ Hs Hz') as Hnil.
    rewrite (write_element_zero _ _ _ _ Hz Hnil Hw), <- Hnil, with_cells_same.
    split; [done|]. by intros [].
  - destruct (write_element_typed _ _ _ _ Hnz Hw) as [Heq Hcs].
    split.
    + apply arr_shape_with_cells; [done|congruence|by eapply store_length].
    + intros _. apply arr_inv_with_cells;
        [by apply Hty|by eapply store_data|by eapply store_length].
Qed.

(** What a push does, case by case, on any registry. *)
Lemma stash_reg_push_cases reg element re rv id reg' :
  reg_inv reg →
  stash_reg_push reg element re rv = Some (id, reg') →
  (0 < count (free_ids reg) ∧ elem_size (free_ids reg) ≠ 0
   ∧ load (arr_cells (free_ids reg)) (count (free_ids reg) - 1) = Some id
   ∧ ∃ cs fl,
       write_element reg (Some (id - 1)) element = Some cs
       ∧ store (arr_cells (valid_flags reg)) (id - 1) true = Some fl
       ∧ reg' = Reg (with_cells (elements reg) cs) (with_cells (valid_flags reg) fl)
                  (with_count (free_ids reg) (count (free_ids reg) - 1))
                  (next_id reg) (reg_elem_size reg))
  ∨ (count (free_ids reg) = 0 ∧ id = next_id reg
     ∧ ∃ els vf cs fl,
         stash_arr_push_back (elements reg) None re = Some (STASH_SUCCESS, els)
         ∧ stash_arr_push_back (valid_flags reg) (Some true) rv
           = Some (STASH_SUCCESS, vf)
         ∧ write_element (Reg els vf (free_ids reg) (u32 (next_id reg + 1))
                            (reg_elem_size reg)) (Some (id - 1)) element = Some cs
         ∧ store (arr_cells vf) (id - 1) true = Some fl
         ∧ reg' = Reg (with_cells els cs) (with_cells vf fl) (free_ids reg)
                    (u32 (next_id reg + 1)) (reg_elem_size reg)).
Proof.
  intros (Hse & Hiv & Hsf & Hcnt & Hnext & Hlt & Hnd & Hfree & Hes & Hsv & Hty)
    Hpush.
  unfold stash_reg_push in Hpush.
  pose proof Hse as (Hce & _).
  destruct (Z.gtb_spec (count (free_ids reg)) 0) as [Hpos|Hzero].
  - left. split; [done|].
    destruct (stash_arr_pop_back (free_ids reg) (Some 0)) as [[[st fi] out]|] eqn:Hpop;
      [|discriminate].
    destruct (Z.eq_dec (elem_size (free_ids reg)) 0) as [Hz|Hnz].
    { (* nothing is read from a stack of zero-byte slots: the identifier
         stays 0 and its element is looked up at index 2^32 - 1 *)
      destruct (stash_arr_pop_back_zero _ _ _ _ _ Hsf Hz Hpos Hpop)
        as (-> & -> & ->).
      simpl in Hpush. unfold stash_arr_at in Hpush.
      change (u32 (0 - 1)) with (2 ^ 32 - 1) in Hpush.
      destruct (Z.geb_spec (2 ^ 32 - 1) (count (elements reg))); [|lia].
      discriminate. }
    split; [done|].
    pose proof (arr_shape_inv _ Hsf Hnz) as Hif.
    destruct (stash_arr_pop_back_spec _ _ _ _ _ Hif Hpos Hpop)
      as (-> & -> & v & -> & Hv).
    simpl in Hpush.
    assert (v ∈ free_list reg) as Hin.
    { rewrite (free_list_top reg v) by done. apply elem_of_app. right.
      by apply list_elem_of_singleton. }
    destruct (Hfree v Hin) as [Hvr _].
    rewrite u32_small in Hpush by lia.
    unfold stash_arr_at in Hpush. simpl in Hpush.
    destruct (Z.geb_spec (v - 1) (count (elements reg))); [discriminate|].
    match type of Hpush with
    | context [write_element ?r ?e ?x] =>
        destruct (write_element r e x) as [cs|] eqn:Hcs; [|discriminate]
    end.
    simpl in Hpush.
    destruct (store (arr_cells (valid_flags reg)) (v - 1) true) as [fl|] eqn:Hfl;
      [|discriminate].
    simpl in Hpush. injection Hpush as <- <-. split; [done|]. by eauto.
  - right. destruct Hsf as (Hcf & _). split; [lia|].
    destruct (stash_arr_push_back (elements reg) None re) as [[st1 els]|] eqn:Hpe;
      [|discriminate].
    simpl in Hpush.
    destruct (stash_arr_push_back (valid_flags reg) (Some true) rv)
      as [[st2 vf]|] eqn:Hpv; [|discriminate].
    simpl in Hpush.
    replace (u32 (next_id reg - 1)) with (count (elements reg)) in Hpush
      by (rewrite u32_small by lia; lia).
    unfold stash_arr_at in Hpush. simpl in Hpush.
    destruct (stash_arr_push_back_shape _ _ _ _ _ Hse Hpe)
      as [(-> & Hse1 & Hc1 & He1)|(-> & -> & Hfull1)].
    2:{ destruct (Z.geb_spec (count (elements reg)) (count (elements reg)));
          [discriminate|lia]. }
    destruct (Z.geb_spec (count (elements reg)) (count els)); [lia|].
    match type of Hpush with
    | context [write_element ?r ?e ?x] =>
        destruct (write_element r e x) as [cs|] eqn:Hcs; [|discriminate]
    end.
    simpl in Hpush.
    destruct (store (arr_cells vf) (count (elements reg)) true) as [fl|] eqn:Hfl;
      [|discriminate].
    simpl in Hpush. injection Hpush as <- <-.
    destruct (stash_arr_push_back_shape _ _ _ _ _ Hsv Hpv)
      as [(-> & Hsv1 & Hc2 & He2)|(-> & -> & Hfull2)].
    2:{ apply store_Some in Hfl as [Hfl _]. destruct Hiv as [_ Hlv]. lia. }
    split; [done|].
    replace (next_id reg - 1) with (count (elements reg)) by lia.
    by eauto 10.
Qed.

(** The flags a push has written to are a typed array. *)
Lemma flags_typed {A} `{!Elem A} (a : stash_arr A) i v cs :
  arr_shape a → store (arr_cells a) i v = Some cs → elem_size a ≠ 0.
Proof.
  intros Hs Hcs Hz. rewrite (arr_shape_zero a Hs Hz), store_nil in Hcs. done.
Qed.


(** A registry of elements of positive size keeps typed arrays of
    elements and flags. *)
Lemma reg_inv_elements reg :
  reg_inv reg → reg_elem_size reg ≠ 0 → arr_inv (elements reg).
Proof.
  intros (_ & _ & _ & _ & _ & _ & _ & _ & _ & _ & Hty). done.
Qed.

Lemma reg_inv_free_ids reg :
  reg_inv reg → elem_size (free_ids reg) ≠ 0 → arr_inv (free_ids reg).
Proof.
  intros (_ & _ & Hsf & _) Hnz. by apply arr_shape_inv.
Qed.

Lemma stash_arr_is_valid_elem_size {A} (a : stash_arr A) :
  stash_arr_is_valid a = true → 0 < elem_size a.
Proof.
  unfold stash_arr_is_valid. intros [_ He]%andb_true_iff. by apply Z.gtb_lt in He.
Qed.

(** On a valid registry the three arrays are typed. *)
Lemma reg_inv_valid reg :
  reg_inv reg → stash_reg_is_valid reg = true →
  arr_inv (elements reg) ∧ arr_inv (free_ids reg)
  ∧ 0 < elem_size (elements reg) ∧ 0 < elem_size (valid_flags reg)
  ∧ 0 < elem_size (free_ids reg)
  ∧ reg_elem_size reg = elem_size (elements reg).
Proof.
  intros (Hse & Hiv & Hsf & Hcnt & Hnext & Hlt & Hnd & Hfree & Hes & Hsv & Hty)
    Hvalid.
  unfold stash_reg_is_valid in Hvalid.
  apply andb_true_iff in Hvalid as [Hvalid Hvf].
  apply andb_true_iff in Hvalid as [Hvv Hve].
  apply stash_arr_is_valid_elem_size in Hvf, Hvv, Hve.
  assert (reg_elem_size reg = elem_size (elements reg)) as Heq
    by (destruct Hes; lia).
  split; [apply Hty; lia|]. split; [apply arr_shape_inv; [done|lia]|]. done.
Qed.


Lemma stash_reg_push_inv reg element re rv id reg' :
  reg_inv reg → next_id reg + 1 < 2 ^ 32 →
  stash_reg_push reg element re rv = Some (id, reg') →
  reg_inv reg'.
Proof.
  intros Hinv Hwrap Hpush.
  pose proof (stash_reg_push_cases _ _ _ _ _ _ Hinv Hpush) as Hspec.
  destruct Hinv as (Hse & Hiv & Hsf & Hcnt & Hnext & Hlt & Hnd & Hfree & Hes & Hsv & Hty).
  destruct Hspec as [(Hpos & Hnz & Htop & cs & fl & Hcs & Hfl & ->)
                    |(Hzero & -> & els & vf & cs & fl & Hpe & Hpv & Hcs & Hfl & ->)].
  - pose proof (arr_shape_inv _ Hsf Hnz) as Hif.
    pose proof (free_list_top reg id Hif Hpos Htop) as Hlist.
    rewrite Hlist in Hnd, Hfree. apply NoDup_app in Hnd as (Hnd & Hnotin & _).
    destruct (write_element_shape _ _ _ _ Hse Hes Hty Hcs) as [Hse' Hty'].
    unfold reg_inv, free_list, flag. simpl.
    rewrite !count_with_cells.
    rewrite (arr_cells_with_cells (valid_flags reg)) by (by eapply store_data).
    split; [done|].
    split; [apply arr_inv_with_cells;
              [done|by eapply store_data|by eapply store_length]|].
    split; [apply arr_shape_with_count; [done|destruct Hif as [? ?]; lia]|].
    do 3 (split; [done|]). split; [done|].
    split; [|split; [by rewrite elem_size_with_cells|]].
    + intros id' Hin.
      destruct (Hfree id') as [Hr Hflag]; [apply elem_of_app; by left|].
      split; [done|].
      rewrite (load_store_ne _ _ _ _ _ Hfl); [done| |lia].
      intros Heq. apply (Hnotin id' Hin). apply list_elem_of_singleton. lia.
    + split; [|done].
      apply arr_shape_with_cells;
        [done|by eapply flags_typed|by eapply store_length].
  - pose proof Hse as (Hce & _).
    destruct (stash_arr_push_back_shape _ _ _ _ _ Hse Hpe)
      as [(_ & Hse1 & Hc1 & He1)|(Hst & _)]; [|done].
    destruct (stash_arr_push_back_shape _ _ _ _ _ Hsv Hpv)
      as [(_ & Hsv1 & Hc2 & He2)|(Hst & _)]; [|done].
    pose proof (flags_typed _ _ _ _ Hsv1 Hfl) as Hvnz.
    destruct (stash_arr_push_back_spec _ _ _ _ _ Hiv ltac:(congruence) Hpv)
      as [(_ & Hiv1 & _)|(Hst & _)]; [|done].
    assert (reg_elem_size reg ≠ 0 → arr_inv els) as Hty1.
    { intros Hnz. pose proof Hcs as Hcs'.
      apply write_element_typed in Hcs' as [Heq _]; [|exact Hnz]. simpl in Heq.
      destruct (stash_arr_push_back_spec _ _ _ _ _ (Hty Hnz) ltac:(congruence) Hpe)
        as [(_ & Hie1 & _)|(Hst & _)]; done. }
    destruct (write_element_shape
                (Reg els vf (free_ids reg) (u32 (next_id reg + 1))
                   (reg_elem_size reg)) _ _ _ Hse1
                ltac:(simpl; by rewrite He1) Hty1 Hcs) as [Hse' Hty'].
    simpl in Hse', Hty'.
    unfold reg_inv, free_list, flag. simpl.
    rewrite !count_with_cells, Hzero. simpl.
    split; [done|].
    split; [apply arr_inv_with_cells;
              [done|by eapply store_data|by eapply store_length]|].
    split; [done|]. split; [lia|].
    rewrite u32_small by lia.
    split; [lia|]. split; [lia|]. split; [apply NoDup_nil_2|].
    split; [intros id' []%elem_of_nil|].
    split; [by rewrite elem_size_with_cells, He1|].
    split; [|done].
    apply arr_shape_with_cells; [done|done|by eapply store_length].
Qed.

Lemma stash_reg_exists_spec reg id :
  reg_inv reg → 0 <= id < 2 ^ 32 →
  ∃ live, stash_reg_exists reg id = Some live
          ∧ (live = true ↔ 1 <= id < next_id reg ∧ flag reg id = Some true).
Proof.
  intros (Hse & Hiv & Hsf & Hcnt & Hnext & Hlt & Hnd & Hfree & Hes & _) Hid.
  unfold stash_reg_exists, flag.
  destruct (Z.eqb_spec id 0) as [->|Hnz]; simpl.
  { exists false. split; [done|]. split; [done|]. lia. }
  destruct (Z.geb_spec id (next_id reg)).
  { exists false. split; [done|]. split; [done|]. lia. }
  rewrite u32_small by lia.
  destruct (load_is_Some (arr_cells (valid_flags reg)) (id - 1)) as [live Hl].
  { destruct Hiv as [? ?]. lia. }
  exists live. split; [done|]. rewrite Hl. split.
  - intros ->. split; [lia|done].
  - by intros [_ [= ->]].
Qed.

(** What a pop does. *)
Lemma stash_reg_pop_spec reg id element rf popped reg' out :
  reg_inv reg → 0 <= id < 2 ^ 32 →
  stash_reg_pop reg id element rf = Some (popped, reg', out) →
  (popped = false ∧ reg' = reg ∧ out = element
   ∧ stash_reg_exists reg id = Some false)
  ∨ (popped = true ∧ 1 <= id < next_id reg ∧ flag reg id = Some true
     ∧ ∃ st fi fl,
         stash_arr_push_back (free_ids reg) (Some id) rf = Some (st, fi)
         ∧ store (arr_cells (valid_flags reg)) (id - 1) false = Some fl
         ∧ reg' = Reg (elements reg) (with_cells (valid_flags reg) fl) fi
                    (next_id reg) (reg_elem_size reg)).
Proof.
  intros Hinv Hid. unfold stash_reg_pop.
  destruct (stash_reg_exists_spec reg id Hinv Hid) as (live & Hex & Hlive).
  rewrite Hex. simpl. destruct live; simpl.
  - destruct (proj1 Hlive eq_refl) as [Hr Hflag].
    destruct (match element with
              | Some _ => _
              | None => Some None
              end) as [el|]; simpl; [|discriminate].
    destruct (stash_arr_push_back (free_ids reg) (Some id) rf) as [[st fi]|];
      simpl; [|discriminate].
    rewrite u32_small by lia.
    destruct (store (arr_cells (valid_flags reg)) (id - 1) false) as [fl|];
      simpl; [|discriminate].
    intros [= <- <- <-]. right. by eauto 10.
  - intros [= <- <- <-]. by left.
Qed.

(** A retired identifier goes on top of the stack. *)
Lemma free_list_push_back reg id rf fi ev fl nid es :
  arr_inv (free_ids reg) → elem_size (free_ids reg) ≠ 0 →
  stash_arr_push_back (free_ids reg) (Some id) rf = Some (STASH_SUCCESS, fi) →
  free_list (Reg ev fl fi nid es : stash_reg T) = free_list reg ++ [id].
Proof.
  intros Hif Hnz Hpush.
  destruct (stash_arr_push_back_spec _ _ _ _ _ Hif Hnz Hpush)
    as [(_ & Hif1 & Hc1 & _ & ext & Hext)|(Hst & _)]; [|done].
  unfold free_list. simpl. destruct Hif as [Hcf Hlf].
  assert (count (free_ids reg) + 1
          <= Z.of_nat (length (arr_cells (free_ids reg) ++ ext))) as Hroom.
  { destruct Hif1 as [Hcf1 Hlf1]. rewrite Hext, length_insert in Hlf1. lia. }
  rewrite Hc1, Hext.
  replace (Z.to_nat (count (free_ids reg) + 1))
    with (S (Z.to_nat (count (free_ids reg)))) by lia.
  rewrite (take_S_r _ _ id) by (apply list_lookup_insert_eq; lia).
  rewrite take_insert_ge by lia. by rewrite take_app_le by lia.
Qed.


Lemma stash_reg_pop_inv reg id element rf popped reg' out :
  reg_inv reg → 0 <= id < 2 ^ 32 →
  stash_reg_pop reg id element rf = Some (popped, reg', out) →
  reg_inv reg'.
Proof.
  intros Hinv Hid Hpop.
  destruct (stash_reg_pop_spec _ _ _ _ _ _ _ Hinv Hid Hpop)
    as [(_ & -> & _)|(_ & Hr & Hflag & st & fi & fl & Hpush & Hfl & ->)]; [done|].
  destruct Hinv as (Hse & Hiv & Hsf & Hcnt & Hnext & Hlt & Hnd & Hfree & Hes & Hsv & Hty).
  assert (id ∉ free_list reg) as Hnotin.
  { intros Hin. destruct (Hfree id Hin) as [_ Hf]. congruence. }
  assert (∀ id', 0 < id' → flag reg id' = Some false →
                 load fl (id' - 1) = Some false) as Hflags.
  { intros id' Hpos Hf. destruct (Z.eq_dec id id') as [<-|Hne].
    - by eapply load_store_eq.
    - rewrite (load_store_ne _ _ _ _ _ Hfl); [done|lia|lia]. }
  assert (arr_shape (with_cells (valid_flags reg) fl)) as Hsv'.
  { apply arr_shape_with_cells;
      [done|by eapply flags_typed|by eapply store_length]. }
  unfold reg_inv, flag. simpl. rewrite count_with_cells.
  rewrite (arr_cells_with_cells (valid_flags reg)) by (by eapply store_data).
  split; [done|].
  split; [apply arr_inv_with_cells;
            [done|by eapply store_data|by eapply store_length]|].
  destruct (stash_arr_push_back_shape _ _ _ _ _ Hsf Hpush)
    as [(-> & Hsf1 & Hc1 & He1)|(_ & -> & _)].
  - split; [done|]. do 3 (split; [done|]).
    destruct (Z.eq_dec (elem_size (free_ids reg)) 0) as [Hz|Hnz].
    + (* a stack of zero-byte slots holds nothing *)
      assert (free_list (Reg (elements reg) (with_cells (valid_flags reg) fl) fi
                           (next_id reg) (reg_elem_size reg)) = []) as ->.
      { unfold free_list. simpl.
        rewrite (arr_shape_zero fi Hsf1) by congruence. apply take_nil. }
      split; [apply NoDup_nil_2|]. split; [intros id' []%elem_of_nil|done].
    + pose proof (arr_shape_inv _ Hsf Hnz) as Hif.
      rewrite (free_list_push_back reg id rf fi) by done. split.
      * apply NoDup_app. split; [done|]. split; [|apply NoDup_singleton].
        intros x Hx ->%list_elem_of_singleton. done.
      * split; [|done].
        intros id' [Hin| ->%list_elem_of_singleton]%elem_of_app.
        -- destruct (Hfree id' Hin) as [? ?]. split; [done|].
           apply Hflags; [lia|done].
        -- split; [lia|]. by eapply load_store_eq.
  - split; [done|]. do 3 (split; [done|]). split; [done|]. split; [|done].
    intros id' Hin. destruct (Hfree id' Hin) as [? ?]. split; [done|].
    apply Hflags; [lia|done].
Qed.

Lemma reachable_inv reg : reachable reg → reg_inv reg.
Proof.
  induction 1 as [capacity es rf rv re Hc _
                 |reg element re rv id reg' _ IH Hwrap Hpush
                 |reg id element rf popped reg' out _ IH Hid Hpop].
  - by apply stash_reg_create_inv.
  - by eapply stash_reg_push_inv.
  - by eapply stash_reg_pop_inv.
Qed.

(** The stack of retired identifiers is a typed array exactly when it
    is a valid one: its element size never changes. *)
Lemma reachable_free_ids_typed reg :
  reachable reg → stash_arr_is_valid (free_ids reg) = true →
  arr_inv (free_ids reg) ∧ elem_size (free_ids reg) ≠ 0.
Proof.
  intros Hinv%reachable_inv Hvalid.
  apply stash_arr_is_valid_elem_size in Hvalid.
  split; [apply reg_inv_free_ids; [done|lia]|lia].
Qed.

(** The invariant of the specification follows from what the operations
    maintain, when the stack of retired identifiers is a typed array or
    is empty. *)
Lemma reg_inv_invariant reg :
  reg_inv reg →
  elem_size (free_ids reg) ≠ 0 ∨ count (free_ids reg) = 0 →
  registry_invariant reg.
Proof.
  intros Hinv Hfi.
  pose proof Hinv as (Hse & Hiv & Hsf & Hcnt & Hnext & Hlt & Hnd & Hfree & Hes & _).
  split; [done|]. split.
  - intros i Hi. destruct Hfi as [Hnz|Hz]; [|lia].
    destruct (arr_shape_inv _ Hsf Hnz) as [Hcf Hlf].
    destruct (load_is_Some (arr_cells (free_ids reg)) i) as [id Hid]; [lia|].
    exists id. split; [done|].
    assert (id ∈ free_list reg) as Hin.
    { apply load_Some in Hid as [_ Hid]. unfold free_list.
      apply list_elem_of_lookup. exists (Z.to_nat i).
      rewrite lookup_take_lt by lia. done. }
    destruct (Hfree id Hin) as [? ?]. split; [lia|]. split; [lia|done].
  - intros id Hid. by apply stash_reg_exists_spec.
Qed.

(** C4, for the registries whose [free_ids] array is valid: every such
    registry that [create], [push] and [pop] produce, by calls that are
    defined and before [next_id] wraps around, satisfies the invariant:
    [elements.count == valid_flags.count]; every one of the
    [free_ids.count] entries of the [free_ids] stack is an identifier
    that is nonzero, below [next_id] and has its validity flag cleared;
    and the live identifiers are exactly those in [[1, next_id)] whose
    validity flag is set. *)
Theorem stash_reg_invariant reg :
  reachable reg → stash_arr_is_valid (free_ids reg) = true →
  registry_invariant reg.
Proof.
  intros Hreach Hvalid.
  destruct (reachable_free_ids_typed reg Hreach Hvalid) as [_ Hnz].
  apply reg_inv_invariant; [by apply reachable_inv|by left].
Qed.

(** At the wrap-around of [next_id]: with no retired identifier, the
    push that issues the identifier [2^32 - 1] leaves [next_id] at 0,
    and a push that finds [next_id] at 0 returns the null identifier. *)
Lemma stash_reg_push_wrap reg element re rv id reg' :
  count (free_ids reg) = 0 →
  stash_reg_push reg element re rv = Some (id, reg') →
  (next_id reg = 2 ^ 32 - 1 → next_id reg' = 0)
  ∧ (next_id reg = 0 → id = 0).
Proof.
  intros Hzero. unfold stash_reg_push. rewrite Hzero. simpl.
  destruct (stash_arr_push_back (elements reg) None re) as [[? els]|];
    simpl; [|discriminate].
  destruct (stash_arr_push_back (valid_flags reg) (Some true) rv) as [[? vf]|];
    simpl; [|discriminate].
  destruct (write_element _ _ _) as [cs|]; simpl; [|discriminate].
  destruct (store _ _ _) as [fl|]; simpl; [|discriminate].
  intros [= <- <-]. simpl. split; [by intros ->|done].
Qed.
End RegistryFacts.


(** ** The sample values are what the library builds *)


Lemma sample_full_map_built :
  ∃ t0 t1,
    stash_umap_create 2 1 (AllocOk 4096 (fun _ => Entry 7 None true)) AllocFail = Some t0
    ∧ stash_umap_insert t0 1 (Some [x01]) AllocFail (AllocOk 8200 (fun _ => x00))
      = Some (STASH_SUCCESS, t1)
    ∧ stash_umap_insert t1 2 (Some [x02]) AllocFail (AllocOk 8192 (fun _ => x00))
      = Some (STASH_SUCCESS, sample_full_map).
Proof. eexists _, _. repeat split; reflexivity. Qed.

Lemma sample_three_built :
  ∃ a1 a2,
    stash_arr_push_back sample_empty (Some 10) AllocFail = Some (STASH_SUCCESS, a1)
    ∧ stash_arr_push_back a1 (Some 20) AllocFail = Some (STASH_SUCCESS, a2)
    ∧ stash_arr_push_back a2 (Some 30) AllocFail = Some (STASH_SUCCESS, sample_three).
Proof. eexists _, _. repeat split; reflexivity. Qed.

Lemma wf_umap_sample_map : wf_umap sample_map.
Proof. split; [split; [reflexivity|split; [simpl; lia|reflexivity]]|simpl; lia]. Qed.

Lemma wf_umap_sample_map_42 : wf_umap sample_map_42.
Proof. split; [split; [reflexivity|split; [simpl; lia|reflexivity]]|simpl; lia]. Qed.

Lemma wf_umap_sample_full_map : wf_umap sample_full_map.
Proof. split; [split; [reflexivity|split; [simpl; lia|reflexivity]]|simpl; lia]. Qed.

Lemma sample_reg_two_reachable : reachable sample_reg_two.
Proof.
  assert (reachable sample_reg) as H0 by (apply reach_create; lia).
  unshelve epose proof (reach_push sample_reg (Some 10) AllocFail AllocFail
                          1 _ H0 _ eq_refl) as H1; [by vm_compute|].
  exact (reach_push _ (Some 20) AllocFail AllocFail 2 sample_reg_two H1
           ltac:(by vm_compute) eq_refl).
Qed.

Lemma sample_reg_popped_reachable : reachable sample_reg_popped.
Proof.
  exact (reach_pop _ 1 None AllocFail true sample_reg_popped None
           sample_reg_two_reachable ltac:(lia) eq_refl).
Qed.

(** ** The theorems at the sample values *)

(** Insert, get, remove and contains of key 42 on [sample_map]. *)
Lemma stash_umap_roundtrip_witness :
  (stash_umap_insert sample_map 42 (Some [x64]) AllocFail (AllocOk 8192 (fun _ => x00))
   = Some (STASH_SUCCESS, sample_map_42)
   ∧ stash_umap_get sample_map_42 42 (Some [x00]) = Some (STASH_SUCCESS, Some [x64]))
  ∧ (∃ t' out,
       stash_umap_remove sample_map_42 42 (Some [x00]) = Some (STASH_SUCCESS, t', out)
       ∧ stash_umap_contains t' 42 = Some false).
Proof.
  split.
  - split; [reflexivity|].
    apply (proj1 (stash_umap_roundtrip sample_map 42 wf_umap_sample_map)
             [x64] AllocFail (AllocOk 8192 (fun _ => x00))); reflexivity.
  - eexists _, _. split; [reflexivity|].
    apply (proj2 (stash_umap_roundtrip sample_map_42 42 wf_umap_sample_map_42)
             (Some [x00]) _ (Some [x64])).
    reflexivity.
Defined.

(** An insert on [sample_map]. *)
Lemma stash_umap_insert_buckets_count_witness :
  ∃ st t', stash_umap_insert sample_map 42 (Some [x64]) AllocFail
             (AllocOk 8192 (fun _ => x00)) = Some (st, t')
    ∧ (st = STASH_SUCCESS ∨ st = STASH_KEY_EXISTS ∨ st = STASH_ERROR_OUT_OF_MEMORY)
    ∧ count (buckets t') = count (buckets sample_map)
    ∧ capacity (buckets sample_map) <= capacity (buckets t')
    ∧ wf_umap t'.
Proof.
  apply (stash_umap_insert_buckets_count sample_map 42 (Some [x64]) AllocFail
           (AllocOk 8192 (fun _ => x00)) wf_umap_sample_map).
  intros bytes [= <-]. simpl. lia.
Defined.

Lemma all_occupied_sample_full_map : all_occupied sample_full_map.
Proof.
  intros i Hi. simpl in Hi.
  assert (i = 0 ∨ i = 1) as [-> | ->] by lia; eexists; split; reflexivity.
Qed.

(** The absent key 3 and the present key 1 on [sample_full_map]. *)
Lemma stash_umap_insert_full_witness :
  (stash_umap_contains sample_full_map 3 = Some false
   ∧ ∃ t', stash_umap_insert sample_full_map 3 (Some [x03]) AllocFail AllocFail
           = Some (STASH_ERROR_OUT_OF_MEMORY, t')
           ∧ umap_count t' = umap_count sample_full_map
           ∧ ∀ i, bucket t' i = bucket sample_full_map i)
  ∧ (stash_umap_contains sample_full_map 1 = Some true
     ∧ ∃ t', stash_umap_insert sample_full_map 1 (Some [x03]) AllocFail AllocFail
             = Some (STASH_KEY_EXISTS, t')
             ∧ umap_count t' = umap_count sample_full_map
             ∧ ∀ i, bucket t' i = bucket sample_full_map i).
Proof.
  split.
  - apply (proj1 (stash_umap_insert_full sample_full_map 3 [x03] AllocFail AllocFail
                    wf_umap_sample_full_map all_occupied_sample_full_map)).
    intros (i & e & [Hi He]%bucket_Some & _ & Hk). simpl in Hi.
    assert (i = 0 ∨ i = 1) as [-> | ->] by lia; injection He as <-; discriminate.
  - apply (proj2 (stash_umap_insert_full sample_full_map 1 [x03] AllocFail AllocFail
                    wf_umap_sample_full_map all_occupied_sample_full_map)).
    exists 1, (Entry 1 (Some (Block 8200 [x01])) true). repeat split.
Defined.

(** The invariant after push, push, pop. *)
Lemma stash_reg_invariant_witness : registry_invariant sample_reg_popped.
Proof.
  apply stash_reg_invariant; [apply sample_reg_popped_reachable|reflexivity].
Defined.

(** The registry that one push leaves of [sample_reg_no_free] satisfies
    the invariant; the pop of its identifier does not preserve it.  The
    [free_ids] stack then counts one entry and holds no byte: what a
    push reads back from it is the 0 its variable was initialised
    with. *)
Lemma stash_reg_invariant_lost :
  ∃ reg1 reg2,
    stash_reg_push sample_reg_no_free (Some 10) AllocFail AllocFail = Some (1, reg1)
    ∧ registry_invariant reg1
    ∧ stash_reg_pop reg1 1 None (AllocOk 4096 (fun _ => 0)) = Some (true, reg2, None)
    ∧ count (free_ids reg2) = 1
    ∧ load (arr_cells (free_ids reg2)) 0 = None
    ∧ stash_arr_pop_back (free_ids reg2) (Some 0)
      = Some (STASH_SUCCESS, with_count (free_ids reg2) 0, Some 0)
    ∧ ¬ registry_invariant reg2.
Proof.
  eexists _, _. split; [reflexivity|]. split.
  - apply reg_inv_invariant; [|by right].
    apply reachable_inv.
    eapply (reach_push sample_reg_no_free (Some 10) AllocFail AllocFail);
      [apply reach_create; lia|by vm_compute|reflexivity].
  - split; [reflexivity|]. split; [reflexivity|]. split; [reflexivity|].
    split; [reflexivity|].
    intros (_ & Hfree & _). destruct (Hfree 0) as (id & Hid & _); [simpl; lia|].
    discriminate.
Qed.


(** In a registry of elements of size 0 a push stores no byte: the
    identifier is live and [stash_reg_get] finds its slot, which holds
    nothing. *)
Lemma stash_reg_push_zero_size :
  ∃ reg',
    stash_reg_push
      (stash_reg_create 4 0 (AllocOk 4096 (fun _ => 0))
         (AllocOk 8192 (fun _ => false)) AllocFail)
      (Some 10) (AllocOk 12288 (fun _ => 0)) AllocFail = Some (1, reg')
    ∧ stash_reg_exists reg' 1 = Some true
    ∧ stash_reg_get reg' 1 = Some (Some 0)
    ∧ load (arr_cells (elements reg')) 0 = None.
Proof. eexists. split; [reflexivity|]. by split; [|split]. Qed.


(** ** Shapes of the memory primitives *)

Section MemoryShapes.
Context {T : Type}.
Implicit Types (cs src : list T) (v : T).

Lemma memmove_Some cs di si n :
  0 <= n → 0 <= di → di + n <= Z.of_nat (length cs) →
  0 <= si → si + n <= Z.of_nat (length cs) →
  memmove cs di si n
  = Some (take (Z.to_nat di) cs ++ take (Z.to_nat n) (drop (Z.to_nat si) cs)
            ++ drop (Z.to_nat (di + n)) cs).
Proof.
  intros Hn Hd Hdn Hs Hsn. unfold memmove. case_zb.
  - assert (n = 0) as -> by lia. rewrite Z.add_0_r. simpl. by rewrite take_drop.
  - by rewrite (proj2 (in_block_spec cs di n)), (proj2 (in_block_spec cs si n)) by lia.
Qed.





Lemma store_loop_Some n cs i v :
  0 <= i → i + Z.of_nat n <= Z.of_nat (length cs) →
  store_loop n cs i v
  = Some (take (Z.to_nat i) cs ++ replicate n v ++ drop (Z.to_nat i + n) cs).
Proof.
  revert cs i. induction n as [|n IH]; intros cs i Hi Hn.
  - simpl. by rewrite Nat.add_0_r, take_drop.
  - simpl store_loop. destruct (store_is_Some cs i v) as [cs' Hst]; [lia|].
    rewrite Hst. simpl. apply store_Some in Hst as [_ ->].
    rewrite IH by (rewrite ?length_insert; lia). f_equal.
    replace (Z.to_nat (i + 1)) with (S (Z.to_nat i)) by lia.
    rewrite (take_S_r _ _ v) by (apply list_lookup_insert_eq; lia).
    rewrite take_insert_ge by lia. rewrite drop_insert_lt by lia.
    rewrite <- app_assoc. simpl. by rewrite Nat.add_succ_r.
Qed.
End MemoryShapes.

(** ** Array operations on the live elements *)

Section ArrayOps.
Context {T : Type} `{!Elem T}.
Implicit Types (a : stash_arr T) (x : T) (l : list T).

Lemma length_live a : arr_inv a → length (live a) = Z.to_nat (count a).
Proof. intros [Hc Hl]. unfold live. rewrite length_take. lia. Qed.

Lemma live_with_cells_count a cs n :
  data a ≠ None → live (with_count (with_cells a cs) n) = take (Z.to_nat n) cs.
Proof. by destruct a as [[d|] c k e]. Qed.

Lemma arr_inv_data a : arr_inv a → 0 < capacity a → data a ≠ None.
Proof.
  intros [_ Hl] Hc Hd. unfold arr_cells in Hl. rewrite Hd in Hl. simpl in Hl. lia.
Qed.

Lemma arr_inv_with_cells_count a cs n :
  arr_inv a → data a ≠ None → length cs = length (arr_cells a) →
  0 <= n <= capacity a → arr_inv (with_count (with_cells a cs) n).
Proof.
  intros [Hc Hl] Hd Hlen Hn. destruct a as [[d|] c k e]; [|done].
  unfold arr_inv in *. arr_simpl. rewrite Hlen. lia.
Qed.

Lemma stash_arr_reserve_enough a n r :
  n <= capacity a → stash_arr_reserve a n r = Some (STASH_SUCCESS, a).
Proof. intros Hn. unfold stash_arr_reserve. case_zb; [done|lia]. Qed.

Lemma stash_arr_reserve_fail a n :
  capacity a < n → 0 < elem_size a →
  stash_arr_reserve a n AllocFail = Some (STASH_ERROR_OUT_OF_MEMORY, a).
Proof.
  intros Hn He. unfold stash_arr_reserve. by case_zb; [lia|].
Qed.

Lemma stash_arr_reserve_grow a n p junk :
  arr_inv a → capacity a < n → 0 < elem_size a →
  stash_arr_reserve a n (AllocOk p junk)
  = Some (STASH_SUCCESS,
          Arr (Some (Block p (arr_cells a
                              ++ fresh_cells junk (length (arr_cells a))
                                   (Z.to_nat n - length (arr_cells a)))))
            (count a) n (elem_size a)).
Proof.
  intros [Hc Hl] Hn He. unfold stash_arr_reserve. case_zb; [lia|].
  unfold STASH_REALLOC. rewrite Z.div_mul by lia.
  change (match data a with Some b => cells b | None => [] end) with (arr_cells a).
  rewrite take_ge; [done|]. rewrite length_app, length_fresh_cells. lia.
Qed.

(** The growth step of the push functions either makes room or, when the
    allocator fails on a full array, changes nothing. *)
Lemma grow_for_push_ok a r :
  arr_inv a → (count a < capacity a ∨ (0 < elem_size a ∧ r ≠ AllocFail)) →
  ∃ a1 ext, grow_for_push a r = Some (STASH_SUCCESS, a1)
    ∧ arr_inv a1 ∧ count a1 = count a ∧ elem_size a1 = elem_size a
    ∧ count a < capacity a1 ∧ arr_cells a1 = arr_cells a ++ ext ∧ data a1 ≠ None.
Proof.
  intros Ha Hor. unfold grow_for_push. case_zb.
  - destruct Hor as [?|[Hes Hr]]; [lia|]. destruct r as [|p junk]; [done|].
    pose proof (u_stash_next_po2_u64_ge (count a + 1)) as Hpo.
    destruct Ha as [Hc Hl].
    rewrite stash_arr_reserve_grow by (done || lia).
    eexists _, _. split; [done|]. unfold arr_inv. arr_simpl.
    rewrite length_app, length_fresh_cells. repeat split; try done; lia.
  - exists a, []. rewrite app_nil_r. do 6 (split; [done|]).
    apply arr_inv_data; [done|]. destruct Ha. lia.
Qed.

Lemma grow_for_push_fail a :
  arr_inv a → capacity a <= count a → 0 < elem_size a →
  grow_for_push a AllocFail = Some (STASH_ERROR_OUT_OF_MEMORY, a).
Proof.
  intros [Hi _] Hc He. unfold grow_for_push. case_zb; [|lia].
  pose proof (u_stash_next_po2_u64_ge (count a + 1)).
  apply stash_arr_reserve_fail; lia.
Qed.


(** X2: [stash_arr_pop_back] on a non-empty array returns
    [STASH_SUCCESS], copies out the last live element and leaves the
    ones before it, with the capacity unchanged; on an empty array it
    returns [STASH_EMPTY] and changes neither the array nor the output. *)
Theorem stash_arr_pop_back_last a :
  arr_inv a →
  (∀ l v y, live a = l ++ [v] →
     ∃ a', stash_arr_pop_back a (Some y) = Some (STASH_SUCCESS, a', Some v)
           ∧ live a' = l ∧ capacity a' = capacity a)
  ∧ (∀ out, live a = [] → stash_arr_pop_back a out = Some (STASH_EMPTY, a, out)).
Proof.
  intros Ha. pose proof (length_live a Ha) as Hlen. destruct Ha as [Hc Hl]. split.
  - intros l v y Hlive. rewrite Hlive, length_app in Hlen. simpl in Hlen.
    unfold stash_arr_pop_back. case_zb; [lia|].
    change (arr_cells (with_count a (count a - 1))) with (arr_cells a).
    change (count (with_count a (count a - 1))) with (count a - 1).
    assert (load (arr_cells a) (count a - 1) = Some v) as ->.
    { apply load_Some. split; [lia|].
      rewrite <- (lookup_take_lt _ (Z.to_nat (count a))) by lia.
      fold (live a). rewrite Hlive.
      replace (Z.to_nat (count a - 1)) with (length l + 0)%nat by lia.
      by rewrite lookup_app_r, Nat.add_0_r, Nat.sub_diag by lia. }
    simpl. eexists. split; [done|]. split; [|done].
    unfold live. change (arr_cells (with_count a (count a - 1))) with (arr_cells a).
    change (count (with_count a (count a - 1))) with (count a - 1).
    replace (Z.to_nat (count a - 1)) with (Init.Nat.min (length l) (Z.to_nat (count a)))
      by lia.
    rewrite <- take_take. fold (live a). rewrite Hlive. by rewrite take_app_length.
  - intros out Hlive. rewrite Hlive in Hlen. simpl in Hlen.
    unfold stash_arr_pop_back. case_zb; [done|lia].
Qed.
End ArrayOps.

(** ** Pushes and pops that shift the live elements *)

Lemma take_shift_left {A} (cs : list A) (i c n1 n2 n3 n4 : nat) :
  (i < c ≤ length cs)%nat →
  n1 = (c - 1)%nat → n2 = (c - i - 1)%nat → n3 = S i → n4 = (c - 1)%nat →
  take n1 (take i cs ++ take n2 (drop n3 cs) ++ drop n4 cs) = delete i (take c cs).
Proof.
  intros H -> -> -> ->. rewrite app_assoc, take_app_length'.
  - rewrite delete_take_drop, take_take. replace (i `min` c)%nat with i by lia.
    f_equal. rewrite take_drop_commute. do 2 f_equal. lia.
  - rewrite length_app, !length_take, length_drop. lia.
Qed.


Section ArrayShifts.
Context {T : Type} `{!Elem T}.
Implicit Types (a : stash_arr T) (x : T) (l : list T).


(** X4: [stash_arr_pop_front] on a non-empty array returns
    [STASH_SUCCESS], copies out the first live element and leaves the
    remaining ones in their order, shifted down by one slot; on an empty
    array it returns [STASH_EMPTY] and changes nothing. *)
Theorem stash_arr_pop_front_first a :
  arr_inv a →
  (∀ l v y, live a = v :: l →
     ∃ a', stash_arr_pop_front a (Some y) = Some (STASH_SUCCESS, a', Some v)
           ∧ live a' = l ∧ capacity a' = capacity a ∧ arr_inv a')
  ∧ (∀ out, live a = [] → stash_arr_pop_front a out = Some (STASH_EMPTY, a, out)).
Proof.
  intros Ha. pose proof (length_live a Ha) as Hlen. split.
  - intros l v y Hlive. rewrite Hlive in Hlen. simpl in Hlen.
    pose proof Ha as [Hc Hl].
    assert (data a ≠ None) as Hd by (apply arr_inv_data; [done|lia]).
    unfold stash_arr_pop_front. case_zb; [lia|].
    assert (load (arr_cells a) 0 = Some v) as ->.
    { apply load_Some. split; [lia|]. change (Z.to_nat 0) with 0%nat.
      rewrite <- (lookup_take_lt _ (Z.to_nat (count a))) by lia.
      fold (live a). by rewrite Hlive. }
    cbn [fmap option_fmap option_map mbind option_bind].
    rewrite memmove_Some by lia. cbn [mbind option_bind zero_width].
    eexists. split; [done|]. rewrite live_with_cells_count by done.
    split; [|split].
    + change (Z.to_nat 0) with 0%nat.
      rewrite (take_shift_left _ 0 (Z.to_nat (count a))) by lia.
      fold (live a). by rewrite Hlive.
    + by destruct a as [[d|] c k e].
    + apply arr_inv_with_cells_count; [done|done| |lia].
      rewrite !length_app, !length_take, !length_drop. lia.
  - intros out Hlive. rewrite Hlive in Hlen. simpl in Hlen. destruct Ha as [Hc Hl].
    unfold stash_arr_pop_front. case_zb; [done|lia].
Qed.

(** X5: [stash_arr_pop_at] with an index below [count] returns
    [STASH_SUCCESS], copies out the element at the index and leaves the
    live elements with that one deleted and the order of the others
    kept; an index at or past [count] gives
    [STASH_ERROR_OUT_OF_BOUNDS] and changes nothing. *)
Theorem stash_arr_pop_at_deletes a index :
  arr_inv a → 0 <= index →
  (∀ v y, live a !! Z.to_nat index = Some v →
     ∃ a', stash_arr_pop_at a index (Some y) = Some (STASH_SUCCESS, a', Some v)
           ∧ live a' = delete (Z.to_nat index) (live a)
           ∧ capacity a' = capacity a ∧ arr_inv a')
  ∧ (∀ out, count a <= index →
       stash_arr_pop_at a index out = Some (STASH_ERROR_OUT_OF_BOUNDS, a, out)).
Proof.
  intros Ha Hi. pose proof (length_live a Ha) as Hlen. split.
  - intros v y Hv. pose proof (lookup_lt_Some _ _ _ Hv) as Hlt.
    pose proof Ha as [Hc Hl].
    assert (data a ≠ None) as Hd by (apply arr_inv_data; [done|lia]).
    unfold stash_arr_pop_at. case_zb; [lia|].
    assert (load (arr_cells a) index = Some v) as ->.
    { apply load_Some. split; [lia|].
      by rewrite <- (lookup_take_lt _ (Z.to_nat (count a))) by lia. }
    cbn [fmap option_fmap option_map mbind option_bind].
    rewrite memmove_Some by lia. cbn [mbind option_bind zero_width].
    eexists. split; [done|]. rewrite live_with_cells_count by done.
    split; [|split].
    + by rewrite (take_shift_left _ (Z.to_nat index) (Z.to_nat (count a))) by lia.
    + by destruct a as [[d|] c k e].
    + apply arr_inv_with_cells_count; [done|done| |lia].
      rewrite !length_app, !length_take, !length_drop. lia.
  - intros out Hge. unfold stash_arr_pop_at. case_zb; [done|lia].
Qed.
End ArrayShifts.

(** ** Operations that change the size of an array *)

Section ArraySizes.
Context {T : Type} `{!Elem T}.
Implicit Types (a : stash_arr T) (x : T) (l : list T).

Lemma arr_cells_with_cells_length a cs :
  length cs = length (arr_cells a) → arr_cells (with_cells a cs) = cs.
Proof.
  destruct a as [[d|] c k e]; [done|]. simpl. by destruct cs.
Qed.

Lemma arr_inv_with_cells_count' a cs n :
  arr_inv a → length cs = length (arr_cells a) →
  0 <= n <= capacity a → arr_inv (with_count (with_cells a cs) n).
Proof.
  intros [Hc Hl] Hlen Hn. unfold arr_inv.
  change (arr_cells (with_count (with_cells a cs) n))
    with (arr_cells (with_cells a cs)).
  rewrite arr_cells_with_cells_length by done.
  destruct a as [[d|] c k e]; arr_simpl; lia.
Qed.





(** X9: [stash_arr_shrink_to_fit] returns 1 without a change on a full
    array (the value of [STASH_EMPTY], also returned for an empty one);
    on a partly filled array with a positive element size it brings the
    capacity down to [count] and keeps the live elements, after which a
    second call is the no-op that returns 1; when the allocator fails on
    such an array, the array is unchanged. *)
Theorem stash_arr_shrink_to_fit_live a r :
  arr_inv a →
  (count a = capacity a → stash_arr_shrink_to_fit a r = Some (1, a))
  ∧ (count a = 0 → stash_arr_shrink_to_fit a r = Some (STASH_EMPTY, a))
  ∧ (0 < count a < capacity a → 0 < elem_size a →
     (r ≠ AllocFail →
      ∃ a', stash_arr_shrink_to_fit a r = Some (STASH_SUCCESS, a')
            ∧ capacity a' = count a ∧ count a' = count a ∧ live a' = live a
            ∧ arr_inv a'
            ∧ ∀ r', stash_arr_shrink_to_fit a' r' = Some (1, a'))
     ∧ stash_arr_shrink_to_fit a AllocFail
       = Some (STASH_ERROR_OUT_OF_MEMORY, a)).
Proof.
  intros Ha. pose proof Ha as [Hc Hl]. split; [|split].
  - intros Heq. unfold stash_arr_shrink_to_fit. case_zb; [done|lia].
  - intros Heq. unfold stash_arr_shrink_to_fit. case_zb; [done|]. case_zb; [done|lia].
  - intros Hlt He. split.
    + intros Hr. destruct r as [|p junk]; [done|].
      unfold stash_arr_shrink_to_fit. case_zb; [lia|]. case_zb; [lia|].
      unfold STASH_REALLOC. rewrite Z.div_mul by lia.
      change (match data a with Some b => cells b | None => [] end)
        with (arr_cells a).
      rewrite take_app_le by lia. eexists. split; [done|].
      unfold arr_inv, live. arr_simpl. rewrite take_idemp, length_take.
      repeat split; try done; try lia.
      intros r'. unfold stash_arr_shrink_to_fit. arr_simpl. case_zb; [done|lia].
    + unfold stash_arr_shrink_to_fit. case_zb; [lia|]. by case_zb; [lia|].
Qed.

(** X10: [stash_arr_fill] on an array with a positive element size sets
    [count] to the capacity and makes every slot of the capacity a copy
    of the given element. *)
Theorem stash_arr_fill_all a x :
  arr_inv a → 0 < elem_size a →
  ∃ a', stash_arr_fill a (Some x) = Some a'
        ∧ live a' = replicate (Z.to_nat (capacity a)) x
        ∧ count a' = capacity a ∧ capacity a' = capacity a ∧ arr_inv a'.
Proof.
  intros Ha He. pose proof Ha as [Hc Hl]. unfold stash_arr_fill.
  case_zb; [lia|]. rewrite store_loop_Some by lia. cbn [mbind option_bind zero_width].
  change (Z.to_nat 0) with 0%nat. rewrite take_0, Nat.add_0_l. simpl app.
  rewrite drop_ge, app_nil_r by lia.
  set (cs := replicate (Z.to_nat (capacity a)) x).
  assert (length cs = length (arr_cells a)) as Hlen
    by (subst cs; rewrite length_replicate; lia).
  eexists. split; [done|]. split; [|split; [|split]].
  - unfold live. change (arr_cells (with_count (with_cells a cs) (capacity a)))
      with (arr_cells (with_cells a cs)).
    rewrite arr_cells_with_cells_length by done.
    change (count (with_count _ (capacity a))) with (capacity a).
    apply take_ge. subst cs. rewrite length_replicate. lia.
  - done.
  - by destruct a as [[d|] c k e].
  - apply arr_inv_with_cells_count'; [done|done|lia].
Qed.

(** X11: [stash_arr_compare] answers true exactly when the two arrays
    have the same element size and the same live elements (hence the
    same [count]); the capacity and the slots past [count] play no
    part in the answer. *)
Theorem stash_arr_compare_live a b :
  arr_inv a → arr_inv b →
  ∃ res, stash_arr_compare a b = Some res
         ∧ (res = true ↔ elem_size a = elem_size b ∧ live a = live b).
Proof.
  intros Ha Hb. pose proof (length_live a Ha) as Hla.
  pose proof (length_live b Hb) as Hlb. destruct Ha as [Hca Hlena], Hb as [Hcb Hlenb].
  unfold stash_arr_compare.
  destruct (Z.eqb_spec (count a) (count b)) as [Hc|Hc]; simpl.
  - destruct (Z.eqb_spec (elem_size a) (elem_size b)) as [He|He]; simpl.
    + unfold memcmp_eq. case_zb.
      * exists true. split; [done|]. split; [|done]. intros _. split; [done|].
        unfold live. rewrite <- Hc.
        replace (Z.to_nat (count a)) with 0%nat by lia. by rewrite !take_0.
      * rewrite (proj2 (in_block_spec _ _ _)), (proj2 (in_block_spec _ _ _)) by lia.
        simpl. eexists. split; [done|]. rewrite bool_decide_eq_true.
        unfold live. rewrite <- Hc. tauto.
    + exists false. split; [done|]. split; [done|]. tauto.
  - exists false. split; [done|]. split; [done|]. intros [_ Hlive].
    rewrite Hlive in Hla. lia.
Qed.
End ArraySizes.

(** ** The invariant of the arrays *)

Section ArrayInvariant.
Context {T : Type} `{!Elem T}.
Implicit Types (a : stash_arr T) (x : T) (l : list T).















End ArrayInvariant.

(** ** Iteration over an array *)

Section ArrayIteration.
Context {T : Type} `{!Elem T}.
Implicit Types (a : stash_arr T).

Lemma ptr_add_small p n : 0 <= p + n < 2 ^ 64 → ptr_add p n = p + n.
Proof. intros. unfold ptr_add. by apply Z.mod_small. Qed.

Lemma data_ptr_pos a : data a ≠ None → 0 < data_ptr a.
Proof. unfold data_ptr. destruct (data a); [lia|done]. Qed.

Lemma slot_ptr_small a k :
  data a ≠ None → 0 <= elem_size a → 0 <= k <= count a →
  data_ptr a + count a * elem_size a < 2 ^ 64 →
  slot_ptr a k = data_ptr a + k * elem_size a.
Proof.
  intros Hd He Hk Hw. pose proof (data_ptr_pos a Hd). unfold slot_ptr.
  apply ptr_add_small. nia.
Qed.








End ArrayIteration.

(** ** Lookups in the table *)

Section ProbeSimulations.
Implicit Types (b : stash_arr stash_umap_entry) (k cap orig index : Z).

Lemma load_negative {A} (cs : list A) i : i < 0 → load cs i = None.
Proof.
  intros Hi. unfold load, in_block. by destruct (Z.leb_spec 0 i); [lia|].
Qed.

(** The walks only look at the buckets below [buckets.count]. *)
Lemma find_entry_loop_ext b b' k cap orig fuel index :
  count b' = count b →
  (∀ i, 0 <= i < count b → load (arr_cells b') i = load (arr_cells b) i) →
  find_entry_loop fuel b' k cap orig index = find_entry_loop fuel b k cap orig index.
Proof.
  intros Hc Hsame. revert index. induction fuel as [|fuel IH]; intros index; [done|].
  rewrite !find_entry_loop_S. cbv zeta. unfold stash_arr_at. rewrite Hc, !IH.
  destruct (Z.geb_spec index (count b)); [done|].
  destruct (Z.ltb_spec index 0).
  - by rewrite !load_negative by done.
  - by rewrite Hsame by lia.
Qed.

Lemma find_free_loop_ext b b' k cap orig fuel index :
  count b' = count b →
  (∀ i, 0 <= i < count b → load (arr_cells b') i = load (arr_cells b) i) →
  find_free_loop fuel b' k cap orig index = find_free_loop fuel b k cap orig index.
Proof.
  intros Hc Hsame. revert index. induction fuel as [|fuel IH]; intros index; [done|].
  rewrite !find_free_loop_S. cbv zeta. unfold stash_arr_at. rewrite Hc, !IH.
  destruct (Z.geb_spec index (count b)); [done|].
  destruct (Z.ltb_spec index 0).
  - by rewrite !load_negative by done.
  - by rewrite Hsame by lia.
Qed.

(** A key that the lookup finds is a key that the search for a free slot
    reports as present, and the other way round. *)
Lemma find_entry_then_free b k cap orig J fuel index :
  0 <= J →
  find_entry_loop fuel b k cap orig index = Some J →
  find_free_loop fuel b k cap orig index = Some (-2).
Proof.
  intros HJ. revert index. induction fuel as [|fuel IH]; intros index; [done|].
  rewrite find_free_loop_S, find_entry_loop_S. cbv zeta. unfold stash_arr_at.
  destruct (Z.geb_spec index (count b)).
  - destruct (Z.eqb_spec ((index + 1) mod cap) orig); [intros [= <-]; lia|apply IH].
  - destruct (load (arr_cells b) index) as [e|]; simpl; [|done].
    destruct (occupied e); simpl; [|intros [= <-]; lia].
    destruct (Z.eqb_spec (key e) k); [done|].
    destruct (Z.eqb_spec ((index + 1) mod cap) orig); [intros [= <-]; lia|apply IH].
Qed.

Lemma find_free_then_entry_hit b k cap orig fuel index :
  count b <= 2 ^ 31 →
  find_free_loop fuel b k cap orig index = Some (-2) →
  ∃ J, 0 <= J ∧ find_entry_loop fuel b k cap orig index = Some J.
Proof.
  intros Hb. revert index. induction fuel as [|fuel IH]; intros index; [done|].
  rewrite find_free_loop_S, find_entry_loop_S. cbv zeta. unfold stash_arr_at.
  destruct (Z.geb_spec index (count b)).
  - destruct (Z.eqb_spec ((index + 1) mod cap) orig); [done|apply IH].
  - destruct (load (arr_cells b) index) as [e|] eqn:He; simpl; [|done].
    pose proof (load_bound _ _ _ He).
    destruct (occupied e); simpl.
    + destruct (Z.eqb_spec (key e) k); [intros _; exists index; split; [lia|done]|].
      destruct (Z.eqb_spec ((index + 1) mod cap) orig); [done|apply IH].
    + rewrite to_int_small by lia. intros [= Hto]. lia.
Qed.

(** Filling a free bucket does not disturb a walk that ends in a hit. *)
Lemma find_entry_loop_frame b b' k cap orig J s fuel index :
  count b' = count b → 0 <= J →
  (∀ i, 0 <= i → i ≠ s → load (arr_cells b') i = load (arr_cells b) i) →
  (∃ e, load (arr_cells b) s = Some e ∧ occupied e = false) →
  find_entry_loop fuel b k cap orig index = Some J →
  find_entry_loop fuel b' k cap orig index = Some J.
Proof.
  intros Hc HJ Hsame (es & Hes & Hos). revert index.
  induction fuel as [|fuel IH]; intros index; [done|].
  rewrite !find_entry_loop_S. cbv zeta. unfold stash_arr_at. rewrite Hc.
  destruct (Z.geb_spec index (count b)).
  - destruct (Z.eqb_spec ((index + 1) mod cap) orig); [done|apply IH].
  - destruct (load (arr_cells b) index) as [e|] eqn:He; simpl; [|done].
    pose proof (load_bound _ _ _ He).
    destruct (Z.eq_dec index s) as [->|Hne].
    + assert (e = es) as -> by congruence. rewrite Hos. simpl. intros [= <-]. lia.
    + rewrite Hsame, He by lia. simpl.
      destruct (occupied e && (key e =? k)); [done|].
      destruct (negb (occupied e)); [done|].
      destruct (Z.eqb_spec ((index + 1) mod cap) orig); [done|apply IH].
Qed.

(** Two keys on one walk: once the bucket of the first is freed again,
    the walk for the second stops there. *)
Lemma find_entry_loop_hidden b0 b1 b3 k k' cap orig s s' fuel index :
  count b0 <= 2 ^ 31 → count b1 = count b0 → count b3 = count b0 → 0 <= s → 0 <= s' →
  (∀ i, 0 <= i < count b0 → i ≠ s →
        load (arr_cells b1) i = load (arr_cells b0) i) →
  (∀ i, 0 <= i < count b0 → i ≠ s → i ≠ s' →
        load (arr_cells b3) i = load (arr_cells b0) i) →
  (∃ e, load (arr_cells b1) s' = Some e ∧ occupied e = false) →
  (∃ e, load (arr_cells b3) s = Some e ∧ occupied e = false) →
  find_free_loop fuel b0 k cap orig index = Some s →
  find_free_loop fuel b1 k' cap orig index = Some s' →
  find_entry_loop fuel b3 k' cap orig index = Some (-1).
Proof.
  intros Hb Hc1 Hc3 Hs Hs' Hsame1 Hsame3 (e1 & He1 & Ho1) (e3 & He3 & Ho3). revert index.
  induction fuel as [|fuel IH]; intros index; [done|].
  rewrite !find_free_loop_S, find_entry_loop_S. cbv zeta. unfold stash_arr_at.
  rewrite Hc1, Hc3.
  destruct (Z.geb_spec index (count b0)).
  - destruct (Z.eqb_spec ((index + 1) mod cap) orig); [done|apply IH].
  - destruct (Z.eq_dec index s) as [->|Hne].
    { intros _ _. rewrite He3. simpl. by rewrite Ho3. }
    destruct (load (arr_cells b0) index) as [e|] eqn:He; simpl; [|done].
    pose proof (load_bound _ _ _ He).
    rewrite Hsame1, He by lia. simpl.
    destruct (occupied e) eqn:Ho; simpl.
    2:{ rewrite to_int_small by lia. intros [= Hto]. lia. }
    destruct (Z.eqb_spec (key e) k); [intros [= <-]; lia|].
    destruct (Z.eqb_spec (key e) k'); [intros _ [= <-]; lia|].
    assert (index ≠ s').
    { intros Heq. subst index. rewrite Hsame1 in He1 by lia. congruence. }
    rewrite Hsame3, He by lia. simpl. rewrite Ho. simpl.
    destruct (Z.eqb_spec (key e) k'); [done|].
    destruct (Z.eqb_spec ((index + 1) mod cap) orig); [done|apply IH].
Qed.
End ProbeSimulations.

(** ** Lookups depend on the buckets only *)

Section TableLookups.
Implicit Types (t : stash_umap) (b : stash_arr stash_umap_entry) (k : Z).

Lemma find_entry_index_ext t t' k :
  stash_umap_is_valid t' = stash_umap_is_valid t →
  count (buckets t') = count (buckets t) →
  (∀ i, 0 <= i < count (buckets t) →
        load (arr_cells (buckets t')) i = load (arr_cells (buckets t)) i) →
  u_stash_find_entry_index t' k = u_stash_find_entry_index t k.
Proof.
  intros Hv Hc Hsame. unfold u_stash_find_entry_index. rewrite Hv, Hc.
  destruct (_ || _); [done|]. by apply find_entry_loop_ext.
Qed.

Lemma find_free_slot_ext t t' k :
  stash_umap_is_valid t' = stash_umap_is_valid t →
  count (buckets t') = count (buckets t) →
  (∀ i, 0 <= i < count (buckets t) →
        load (arr_cells (buckets t')) i = load (arr_cells (buckets t)) i) →
  u_stash_find_free_slot t' k = u_stash_find_free_slot t k.
Proof.
  intros Hv Hc Hsame. unfold u_stash_find_free_slot. rewrite Hv, Hc.
  destruct (_ || _); [done|]. by apply find_free_loop_ext.
Qed.

Lemma u32_bound i : 0 <= u32 i < 2 ^ 32.
Proof. unfold u32. apply Z.mod_pos_bound. lia. Qed.

(** Tables with the same buckets answer alike. *)
Lemma stash_umap_get_ext t t' k element :
  stash_umap_is_valid t' = stash_umap_is_valid t →
  count (buckets t') = count (buckets t) →
  value_size t' = value_size t →
  (∀ i, 0 <= i < count (buckets t) →
        load (arr_cells (buckets t')) i = load (arr_cells (buckets t)) i) →
  stash_umap_get t' k element = stash_umap_get t k element.
Proof.
  intros Hv Hc Hvs Hsame. unfold stash_umap_get. destruct element as [out|]; [|done].
  rewrite Hv, (find_entry_index_ext t t') by done. destruct (negb _); [done|].
  destruct (u_stash_find_entry_index t k) as [s|]; [|done]. simpl.
  destruct (s <? 0); [done|]. unfold stash_arr_at. rewrite Hc.
  pose proof (u32_bound s).
  destruct (Z.geb_spec (u32 s) (count (buckets t))); [done|]. simpl.
  by rewrite Hsame, Hvs by lia.
Qed.

Lemma stash_umap_contains_ext t t' k :
  stash_umap_is_valid t' = stash_umap_is_valid t →
  count (buckets t') = count (buckets t) →
  (∀ i, 0 <= i < count (buckets t) →
        load (arr_cells (buckets t')) i = load (arr_cells (buckets t)) i) →
  stash_umap_contains t' k = stash_umap_contains t k.
Proof.
  intros Hv Hc Hsame. unfold stash_umap_contains.
  by rewrite Hv, (find_entry_index_ext t t') by done.
Qed.

Lemma wf_umap_store t b1 s e cnt vs :
  wf_arr b1 → count b1 <= 2 ^ 31 →
  wf_umap (Umap (with_cells b1 (<[Z.to_nat s := e]> (arr_cells b1))) cnt vs).
Proof.
  intros Hwf Hb. split; [|simpl; by rewrite count_with_cells].
  simpl. apply wf_arr_with_cells; [done|]. by rewrite length_insert.
Qed.

(** What [stash_umap_insert] does, by the answer of the search for a
    free slot in the buckets after the growth step. *)
Lemma stash_umap_insert_spec t k v rb rv :
  wf_umap t → Z.of_nat (length v) = value_size t →
  ∃ b1 s,
    wf_arr b1 ∧ count b1 = count (buckets t)
    ∧ capacity (buckets t) <= capacity b1
    ∧ (∀ i, i < capacity (buckets t) →
            load (arr_cells b1) i = load (arr_cells (buckets t)) i)
    ∧ u_stash_find_free_slot (with_buckets t b1) k = Some s
    ∧ ((s = -2 ∧ stash_umap_insert t k (Some v) rb rv
                 = Some (STASH_KEY_EXISTS, with_buckets t b1))
       ∨ (s = -1 ∧ stash_umap_insert t k (Some v) rb rv
                    = Some (STASH_ERROR_OUT_OF_MEMORY, with_buckets t b1))
       ∨ (0 <= s < count b1
          ∧ (∃ e, load (arr_cells b1) s = Some e ∧ occupied e = false)
          ∧ stash_umap_insert t k (Some v) rb rv
            = match rv with
              | AllocFail => Some (STASH_ERROR_OUT_OF_MEMORY, with_buckets t b1)
              | AllocOk p _ =>
                  Some (STASH_SUCCESS,
                        Umap (with_cells b1
                                (<[Z.to_nat s := Entry k (Some (Block p v)) true]>
                                   (arr_cells b1)))
                          (umap_count t + 1) (value_size t))
              end)).
Proof.
  intros Hwf Hlv. unfold stash_umap_insert.
  rewrite (wf_umap_valid t Hwf). simpl.
  destruct Hwf as [Hwfb Hb].
  destruct (reserve_for_insert_spec (buckets t) rb Hwfb)
    as (b1 & -> & Hwf1 & Hc1 & Hcap1 & Hload1).
  simpl.
  assert (wf_umap (with_buckets t b1)) as Hwft1 by (split; simpl; [done|lia]).
  destruct (u_stash_find_free_slot_spec (with_buckets t b1) k Hwft1)
    as (s & Hslot & Hs).
  exists b1, s. do 4 (split; [done|]). rewrite Hslot. split; [done|]. simpl.
  destruct Hs as [->|[->|(Hs & e & He & Ho)]]; simpl; [by right; left|by left|].
  right; right. change (buckets (with_buckets t b1)) with b1 in Hs, He.
  split; [done|]. split; [by eauto|].
  destruct (Z.eqb_spec s (-2)); [lia|]. destruct (Z.eqb_spec s (-1)); [lia|].
  destruct rv as [|p junk]; simpl; [done|].
  rewrite memcpy_exact; [|rewrite length_fresh_cells, Z.div_1_r; lia|done].
  simpl. unfold stash_arr_at. rewrite to_size_t_small by lia.
  destruct (Z.geb_spec s (count b1)); [lia|]. simpl.
  destruct Hwf1 as (_ & Hcnt1 & Hlen1).
  destruct (store_is_Some (arr_cells b1) s (Entry k (Some (Block p v)) true))
    as [cs Hcs]; [lia|].
  rewrite Hcs. simpl. by apply store_Some in Hcs as [_ ->].
Qed.

(** What the three lookups do, by the answer of the search for the key. *)
Lemma stash_umap_lookup_spec t k :
  wf_umap t →
  ∃ j, u_stash_find_entry_index t k = Some j
    ∧ stash_umap_contains t k = Some (j >=? 0)
    ∧ ((j = -1
        ∧ (∀ out, stash_umap_get t k (Some out)
                  = Some (STASH_ERROR_KEY_NOT_FOUND, Some out))
        ∧ (∀ element, stash_umap_remove t k element
                      = Some (STASH_ERROR_KEY_NOT_FOUND, t, element)))
       ∨ (0 <= j < count (buckets t)
          ∧ ∃ e, load (arr_cells (buckets t)) j = Some e
                 ∧ occupied e = true ∧ key e = k
                 ∧ (∀ out, stash_umap_get t k (Some out)
                           = out' ← memcpy out 0 (value_bytes e) (value_size t);
                             Some (STASH_SUCCESS, Some out'))
                 ∧ (∀ element, stash_umap_remove t k element
                      = element' ← match element with
                                   | Some out =>
                                       Some <$> memcpy out 0 (value_bytes e)
                                                  (value_size t)
                                   | None => Some None
                                   end;
                        Some (STASH_SUCCESS,
                              Umap (with_cells (buckets t)
                                      (<[Z.to_nat j := Entry k None false]>
                                         (arr_cells (buckets t))))
                                (umap_count t - 1) (value_size t),
                              element')))).
Proof.
  intros Hwf. destruct (u_stash_find_entry_index_spec t k Hwf) as (j & Hj & Hcases).
  exists j. split; [done|]. unfold stash_umap_contains, stash_umap_get, stash_umap_remove.
  rewrite (wf_umap_valid t Hwf), Hj. simpl. split; [done|].
  destruct Hwf as [(_ & Hcnt & Hlen) Hb].
  destruct Hcases as [->|(Hjr & e & He & Ho & Hk)]; [by left|right].
  split; [done|]. exists e. do 3 (split; [done|]).
  destruct (Z.ltb_spec j 0); [lia|]. unfold stash_arr_at. rewrite u32_small by lia.
  destruct (Z.geb_spec j (count (buckets t))); [lia|]. simpl. rewrite He. simpl.
  split; [done|]. intros element.
  destruct (match element with Some out => _ | None => _ end) as [el|]; [|done].
  simpl. destruct (store_is_Some (arr_cells (buckets t)) j (Entry (key e) None false))
    as [cs Hcs]; [lia|].
  rewrite Hcs. simpl. apply store_Some in Hcs as [_ ->]. by rewrite Hk.
Qed.
End TableLookups.

(** ** Insertions and removals in the table *)

Section TableTheorems.
Implicit Types (t : stash_umap) (b : stash_arr stash_umap_entry) (k : Z).

Lemma find_free_slot_unfold t k :
  stash_umap_is_valid t = true → count (buckets t) ≠ 0 →
  u_stash_find_free_slot t k
  = find_free_loop (Z.to_nat (count (buckets t))) (buckets t) k (count (buckets t))
      (u_stash_umap_hash_u32 k (count (buckets t)))
      (u_stash_umap_hash_u32 k (count (buckets t))).
Proof.
  intros Hv Hc. unfold u_stash_find_free_slot. rewrite Hv. simpl.
  by destruct (Z.eqb_spec (count (buckets t)) 0).
Qed.

Lemma load_with_cells_insert b s e :
  wf_arr b → 0 <= s < count b →
  load (arr_cells (with_cells b (<[Z.to_nat s := e]> (arr_cells b)))) s = Some e
  ∧ ∀ i, i ≠ s → 0 <= i →
         load (arr_cells (with_cells b (<[Z.to_nat s := e]> (arr_cells b)))) i
         = load (arr_cells b) i.
Proof.
  intros Hwf Hs. destruct (wf_arr_data b Hwf) as (Hd & _ & _).
  destruct Hwf as (_ & Hcnt & Hlen).
  rewrite arr_cells_with_cells by done.
  destruct (store_is_Some (arr_cells b) s e) as [cs Hcs]; [lia|].
  pose proof Hcs as Hcs'. apply store_Some in Hcs' as [_ <-]. split.
  - by eapply load_store_eq.
  - intros i Hne Hi. by eapply load_store_ne.
Qed.

(** A successful insert, bucket by bucket. *)
Lemma stash_umap_insert_success t k v rb rv t' :
  wf_umap t → Z.of_nat (length v) = value_size t →
  stash_umap_insert t k (Some v) rb rv = Some (STASH_SUCCESS, t') →
  ∃ b1 s p,
    wf_arr b1 ∧ count b1 = count (buckets t)
    ∧ (∀ i, i < capacity (buckets t) →
            load (arr_cells b1) i = load (arr_cells (buckets t)) i)
    ∧ 0 <= s < count b1
    ∧ (∃ e, load (arr_cells b1) s = Some e ∧ occupied e = false)
    ∧ find_free_loop (Z.to_nat (count b1)) b1 k (count b1)
        (u_stash_umap_hash_u32 k (count b1)) (u_stash_umap_hash_u32 k (count b1))
      = Some s
    ∧ t' = Umap (with_cells b1 (<[Z.to_nat s := Entry k (Some (Block p v)) true]>
                                  (arr_cells b1)))
             (umap_count t + 1) (value_size t)
    ∧ wf_umap t'
    ∧ u_stash_find_entry_index t' k = Some s
    ∧ load (arr_cells (buckets t')) s = Some (Entry k (Some (Block p v)) true)
    ∧ (∀ i, i ≠ s → 0 <= i →
            load (arr_cells (buckets t')) i = load (arr_cells b1) i).
Proof.
  intros Hwf Hlv Hins. pose proof Hwf as [_ Hb].
  destruct (stash_umap_insert_spec t k v rb rv Hwf Hlv)
    as (b1 & s & Hwf1 & Hc1 & _ & Hload1 & Hslot & Hcases).
  destruct Hcases as [[_ Heq]|[[_ Heq]|(Hs & He & Heq)]];
    rewrite Heq in Hins; [done|done|].
  destruct rv as [|p junk]; [done|]. injection Hins as <-.
  destruct (find_free_slot_loop _ _ _ Hslot) as [Hne Hloop]; [lia|].
  change (buckets (with_buckets t b1)) with b1 in Hne, Hloop.
  set (new := Entry k (Some (Block p v)) true).
  destruct (load_with_cells_insert b1 s new Hwf1 Hs) as [Hnew Hother].
  assert (wf_umap (Umap (with_cells b1 (<[Z.to_nat s := new]> (arr_cells b1)))
                     (umap_count t + 1) (value_size t))) as Hwf'
    by (apply (wf_umap_store t); [done|lia]).
  exists b1, s, p. do 8 (split; [done|]). split; [|split; [exact Hnew|exact Hother]].
  rewrite find_entry_index_on_loop;
    [|by apply wf_umap_valid|simpl; by rewrite count_with_cells].
  simpl. rewrite count_with_cells.
  apply (find_free_then_entry b1 _ k _ _ s (Some (Block p v)));
    [lia|apply count_with_cells|lia| |done|done].
  intros i Hi Hne'. by apply Hother.
Qed.

(** X14: on a well-formed table, [stash_umap_contains] answers true only
    for a key that some occupied bucket holds; for a key that no
    occupied bucket holds, [contains] is false, [get] returns
    [STASH_ERROR_KEY_NOT_FOUND] with the output untouched, and [remove]
    returns [STASH_ERROR_KEY_NOT_FOUND] with the table unchanged. *)
Theorem stash_umap_lookup_sound t k :
  wf_umap t →
  (stash_umap_contains t k = Some true → key_stored t k)
  ∧ (¬ key_stored t k →
     stash_umap_contains t k = Some false
     ∧ (∀ out, stash_umap_get t k (Some out)
               = Some (STASH_ERROR_KEY_NOT_FOUND, Some out))
     ∧ (∀ element, stash_umap_remove t k element
                   = Some (STASH_ERROR_KEY_NOT_FOUND, t, element))).
Proof.
  intros Hwf.
  destruct (stash_umap_lookup_spec t k Hwf) as (j & Hj & Hcont & Hcases).
  rewrite Hcont.
  destruct Hcases as [(-> & Hget & Hrem)|(Hjr & e & He & Ho & Hk & _)].
  - split; [done|]. by intros _.
  - assert (key_stored t k) by (exists j, e; by rewrite bucket_Some).
    split; [done|]. by intros [].
Qed.

(** X15: after a successful [stash_umap_insert] of [(k, v)], a
    [stash_umap_remove] of [k] returns [STASH_SUCCESS], copies out
    exactly [v], brings [count] back to what it was before the insert,
    keeps the number of buckets, and leaves a table on which
    [contains(k)] is false. *)
Theorem stash_umap_remove_after_insert t k v rb rv t' out :
  wf_umap t →
  Z.of_nat (length v) = value_size t → Z.of_nat (length out) = value_size t →
  stash_umap_insert t k (Some v) rb rv = Some (STASH_SUCCESS, t') →
  ∃ t'', stash_umap_remove t' k (Some out) = Some (STASH_SUCCESS, t'', Some v)
         ∧ umap_count t'' = umap_count t
         ∧ count (buckets t'') = count (buckets t)
         ∧ stash_umap_contains t'' k = Some false.
Proof.
  intros Hwf Hlv Hlo Hins.
  destruct (stash_umap_insert_success t k v rb rv t' Hwf Hlv Hins)
    as (b1 & s & p & Hwf1 & Hc1 & _ & Hs & _ & _ & Heq & Hwf' & Hfind & Hnew & _).
  destruct (stash_umap_lookup_spec t' k Hwf') as (j & Hj & _ & Hcases).
  assert (j = s) as -> by congruence.
  destruct Hcases as [(-> & _)|(_ & e & He & _ & _ & _ & Hrem)]; [lia|].
  assert (e = Entry k (Some (Block p v)) true) as -> by congruence.
  specialize (Hrem (Some out)). unfold value_bytes in Hrem. simpl in Hrem.
  assert (value_size t' = value_size t) as Hvs by (by rewrite Heq).
  rewrite Hvs, memcpy_exact in Hrem by done. simpl in Hrem.
  eexists. split; [exact Hrem|]. split; [rewrite Heq; simpl; lia|].
  split; [simpl; rewrite count_with_cells, Heq; simpl; by rewrite count_with_cells|].
  by eapply stash_umap_contains_after_remove.
Qed.

(** X16: [stash_umap_insert] returns [STASH_KEY_EXISTS] exactly for the
    keys on which [stash_umap_contains] answers true; and a call that
    returns [STASH_KEY_EXISTS] leaves [count], every bucket and the
    result of every [get] as they were: the stored value is not
    overwritten. *)
Theorem stash_umap_insert_existing t k v rb rv :
  wf_umap t → Z.of_nat (length v) = value_size t →
  (stash_umap_contains t k = Some true
   ↔ ∃ t', stash_umap_insert t k (Some v) rb rv = Some (STASH_KEY_EXISTS, t'))
  ∧ (∀ t', stash_umap_insert t k (Some v) rb rv = Some (STASH_KEY_EXISTS, t') →
           umap_count t' = umap_count t
           ∧ (∀ i, bucket t' i = bucket t i)
           ∧ ∀ k' element, stash_umap_get t' k' element = stash_umap_get t k' element).
Proof.
  intros Hwf Hlv. pose proof Hwf as [Hwfb Hb].
  destruct (stash_umap_insert_spec t k v rb rv Hwf Hlv)
    as (b1 & s & Hwf1 & Hc1 & Hcap1 & Hload1 & Hslot & Hcases).
  pose proof Hwfb as (_ & Hcnt & Hlen).
  assert (wf_umap (with_buckets t b1)) as Hwft1 by (split; simpl; [done|lia]).
  assert (stash_umap_is_valid (with_buckets t b1) = stash_umap_is_valid t) as Hv
    by (by rewrite !wf_umap_valid).
  assert (∀ i, 0 <= i < count (buckets t) →
            load (arr_cells (buckets (with_buckets t b1))) i
            = load (arr_cells (buckets t)) i) as Hsame
    by (intros i Hi; apply Hload1; lia).
  assert (stash_umap_contains t k = Some true ↔ s = -2) as Hiff.
  { rewrite <- (stash_umap_contains_ext t (with_buckets t b1)) by done.
    destruct (stash_umap_lookup_spec _ k Hwft1) as (j & Hj & -> & Hjc).
    split.
    - intros [= Hge]. apply Z.geb_le in Hge.
      destruct (find_entry_index_loop _ _ _ Hj) as [Hne Hloop]; [lia|].
      apply find_entry_then_free in Hloop; [|lia].
      rewrite <- find_free_slot_unfold in Hloop; [|by apply wf_umap_valid|done].
      congruence.
    - intros ->.
      assert (count (buckets (with_buckets t b1)) ≠ 0) as Hne.
      { intros H0. unfold u_stash_find_free_slot in Hslot. rewrite H0 in Hslot.
        rewrite orb_true_r in Hslot. done. }
      rewrite find_free_slot_unfold in Hslot; [|by apply wf_umap_valid|done].
      apply find_free_then_entry_hit in Hslot as (J & HJ & Hloop); [|simpl; lia].
      rewrite <- find_entry_index_on_loop in Hloop; [|by apply wf_umap_valid|done].
      assert (j = J) as -> by congruence. f_equal. by apply Z.geb_le. }
  assert (∀ t', stash_umap_insert t k (Some v) rb rv = Some (STASH_KEY_EXISTS, t') →
            s = -2 ∧ t' = with_buckets t b1) as Hinv.
  { intros t' Hins.
    destruct Hcases as [[-> Heq]|[[_ Heq]|(_ & _ & Heq)]]; rewrite Heq in Hins.
    - by injection Hins as <-.
    - done.
    - by destruct rv. }
  split.
  - rewrite Hiff. split.
    + intros ->. destruct Hcases as [[_ Heq]|[[? _]|(? & _)]]; [by eauto|lia..].
    + intros [t' Hins]. by apply Hinv in Hins as [-> _].
  - intros t' Hins. apply Hinv in Hins as [_ ->]. split; [done|]. split.
    + by apply bucket_with_buckets.
    + intros k' element. by apply stash_umap_get_ext.
Qed.

(** X17: whatever [stash_umap_insert] of one key returns, a key that
    [stash_umap_get] finds before the call is found after it, with the
    same value. *)
Theorem stash_umap_insert_keeps_found t k v rb rv st t' k' out w :
  wf_umap t → Z.of_nat (length v) = value_size t →
  stash_umap_insert t k (Some v) rb rv = Some (st, t') →
  stash_umap_get t k' (Some out) = Some (STASH_SUCCESS, Some w) →
  stash_umap_get t' k' (Some out) = Some (STASH_SUCCESS, Some w)
  ∧ stash_umap_contains t' k' = Some true.
Proof.
  intros Hwf Hlv Hins Hget. pose proof Hwf as [Hwfb Hb].
  pose proof Hwfb as (_ & Hcnt & Hlen).
  destruct (stash_umap_insert_spec t k v rb rv Hwf Hlv)
    as (b1 & s & Hwf1 & Hc1 & Hcap1 & Hload1 & Hslot & Hcases).
  assert (wf_umap (with_buckets t b1)) as Hwft1 by (split; simpl; [done|lia]).
  assert (stash_umap_is_valid (with_buckets t b1) = stash_umap_is_valid t) as Hv
    by (by rewrite !wf_umap_valid).
  assert (∀ i, 0 <= i < count (buckets t) →
            load (arr_cells (buckets (with_buckets t b1))) i
            = load (arr_cells (buckets t)) i) as Hsame
    by (intros i Hi; apply Hload1; lia).
  rewrite <- (stash_umap_get_ext t (with_buckets t b1)) in Hget by done.
  destruct (stash_umap_lookup_spec _ k' Hwft1) as (j & Hj & Hcont & Hjc).
  destruct Hjc as [(-> & Hmiss & _)|(Hjr & e & He & Ho & Hk & Hhit & _)];
    [by rewrite Hmiss in Hget|].
  assert ((j >=? 0) = true) as Hge by (apply Z.geb_le; lia). rewrite Hge in Hcont.
  assert (t' = with_buckets t b1
          ∨ ∃ p, 0 <= s < count b1
                 ∧ (∃ e, load (arr_cells b1) s = Some e ∧ occupied e = false)
                 ∧ t' = Umap (with_cells b1
                                (<[Z.to_nat s := Entry k (Some (Block p v)) true]>
                                   (arr_cells b1)))
                          (umap_count t + 1) (value_size t)) as [->|Hsucc].
  { destruct Hcases as [[_ Heq]|[[_ Heq]|(Hs & He0 & Heq)]]; rewrite Heq in Hins.
    - left. by injection Hins as _ <-.
    - left. by injection Hins as _ <-.
    - destruct rv as [|p junk]; [left; by injection Hins as _ <-|].
      right. exists p. by injection Hins as _ <-. }
  { done. }
  destruct Hsucc as (p & Hs & (e0 & He0 & Ho0) & ->).
  set (new := Entry k (Some (Block p v)) true).
  destruct (load_with_cells_insert b1 s new Hwf1 Hs) as [Hnew Hother].
  assert (wf_umap (Umap (with_cells b1 (<[Z.to_nat s := new]> (arr_cells b1)))
                     (umap_count t + 1) (value_size t))) as Hwf'
    by (apply (wf_umap_store t); [done|lia]).
  assert (j ≠ s) as Hjs by (intros ->; simpl in He; congruence).
  destruct (find_entry_index_loop _ _ _ Hj) as [Hne Hloop]; [lia|].
  simpl in Hne, Hloop, He, Hjr.
  assert (u_stash_find_entry_index
            (Umap (with_cells b1 (<[Z.to_nat s := new]> (arr_cells b1)))
               (umap_count t + 1) (value_size t)) k' = Some j) as Hj'.
  { rewrite find_entry_index_on_loop;
      [|by apply wf_umap_valid|simpl; by rewrite count_with_cells].
    simpl. rewrite count_with_cells.
    apply (find_entry_loop_frame b1 _ k' _ _ j s);
      [apply count_with_cells|lia| |by eauto|done].
    intros i Hi Hne'. by apply Hother. }
  destruct (stash_umap_lookup_spec _ k' Hwf') as (j' & Hj'' & Hcont' & Hjc').
  assert (j' = j) as -> by congruence. rewrite Hcont', Hge. split; [|done].
  destruct Hjc' as [(-> & _)|(_ & e' & He' & _ & _ & Hhit' & _)]; [lia|].
  simpl in He'. rewrite Hother, He in He' by (done || lia).
  injection He' as <-. rewrite Hhit'. by rewrite <- Hhit.
Qed.
End TableTheorems.

(** ** Removals and probe walks *)

Section TableHoles.
Implicit Types (t : stash_umap) (b : stash_arr stash_umap_entry) (k : Z).

(** X18: buckets freed by [stash_umap_remove] end a probe walk.  When two
    keys with the same home bucket are inserted one after the other and
    the first is removed again, the second is still held by an occupied
    bucket, but [stash_umap_contains] answers false for it and
    [stash_umap_get] returns [STASH_ERROR_KEY_NOT_FOUND]. *)
Theorem stash_umap_remove_hides_collision
    t k k' v v' rb rv rb' rv' t1 t2 element t3 out :
  wf_umap t →
  Z.of_nat (length v) = value_size t → Z.of_nat (length v') = value_size t →
  u_stash_umap_hash_u32 k' (count (buckets t))
  = u_stash_umap_hash_u32 k (count (buckets t)) →
  stash_umap_insert t k (Some v) rb rv = Some (STASH_SUCCESS, t1) →
  stash_umap_insert t1 k' (Some v') rb' rv' = Some (STASH_SUCCESS, t2) →
  stash_umap_remove t2 k element = Some (STASH_SUCCESS, t3, out) →
  key_stored t3 k'
  ∧ stash_umap_contains t3 k' = Some false
  ∧ (∀ o, stash_umap_get t3 k' (Some o)
          = Some (STASH_ERROR_KEY_NOT_FOUND, Some o)).
Proof.
  intros Hwf Hlv Hlv' Hhash Hins1 Hins2 Hrem. pose proof Hwf as [_ Hb].
  destruct (stash_umap_insert_success t k v rb rv t1 Hwf Hlv Hins1)
    as (b1 & s & p & Hwfb1 & Hc1 & _ & Hs & _ & Hloop1 & Heq1 & Hwf1
        & Hfind1 & Hnew1 & Hother1).
  assert (value_size t1 = value_size t) as Hvs1 by (by rewrite Heq1).
  assert (count (buckets t1) = count b1) as Hct1
    by (rewrite Heq1; simpl; by rewrite count_with_cells).
  rewrite <- Hvs1 in Hlv'.
  destruct (stash_umap_insert_success t1 k' v' rb' rv' t2 Hwf1 Hlv' Hins2)
    as (b2 & s' & p' & Hwfb2 & Hc2 & Hload2 & Hs' & He2 & Hloop2 & Heq2 & Hwf2
        & Hfind2 & Hnew2 & Hother2).
  assert (count (buckets t2) = count b1) as Hct2
    by (rewrite Heq2; simpl; rewrite count_with_cells; congruence).
  assert (count b2 = count b1) as Hc21 by congruence.
  pose proof Hwf1 as [(_ & Hcnt1 & _) _].
  assert (∀ i, 0 <= i < count b1 →
            load (arr_cells b2) i = load (arr_cells (buckets t1)) i) as Hsame21
    by (intros i Hi; apply Hload2; lia).
  assert (load (arr_cells b2) s = Some (Entry k (Some (Block p v)) true)) as Hb2s
    by (rewrite Hsame21 by lia; done).
  assert (s ≠ s') as Hss'.
  { intros ->. destruct He2 as (e & He & Ho). rewrite Hb2s in He.
    injection He as <-. done. }
  (* the lookup of [k] in [t2] ends in bucket [s] *)
  assert (u_stash_find_entry_index t2 k = Some s) as Hfind2k.
  { destruct (find_entry_index_loop _ _ _ Hfind1) as [Hne Hloop]; [lia|].
    rewrite Hct1 in Hne, Hloop.
    rewrite find_entry_index_on_loop; [|by apply wf_umap_valid|lia].
    rewrite Hct2.
    apply (find_entry_loop_frame b2 _ k _ _ s s');
      [congruence|lia| |done|].
    - intros i Hi Hne'. by apply Hother2.
    - rewrite <- Hloop. apply find_entry_loop_ext; [done|].
      intros i Hi. apply Hsame21. lia. }
  destruct (stash_umap_lookup_spec t2 k Hwf2) as (j & Hj & _ & Hcases).
  assert (j = s) as -> by congruence.
  destruct Hcases as [(-> & _)|(_ & e & He & _ & _ & _ & Hrem')]; [lia|].
  rewrite Hrem' in Hrem.
  destruct (match element with Some o => _ | None => _ end) as [el|]; [|done].
  simpl in Hrem. injection Hrem as <- <-.
  pose proof Hwf2 as [Hwfb2' Hb2'].
  set (gone := Entry k None false).
  destruct (load_with_cells_insert (buckets t2) s gone Hwfb2') as [Hgone Hother3];
    [lia|].
  assert (wf_umap (Umap (with_cells (buckets t2)
                           (<[Z.to_nat s := gone]> (arr_cells (buckets t2))))
                     (umap_count t2 - 1) (value_size t2))) as Hwf3
    by (apply (wf_umap_store t2); [done|lia]).
  assert (key_stored
            (Umap (with_cells (buckets t2)
                     (<[Z.to_nat s := gone]> (arr_cells (buckets t2))))
               (umap_count t2 - 1) (value_size t2)) k') as Hstored.
  { exists s', (Entry k' (Some (Block p' v')) true). split; [|done].
    apply bucket_Some. simpl. rewrite count_with_cells.
    split; [lia|]. rewrite Hother3 by (done || lia). done. }
  split; [done|].
  destruct (stash_umap_lookup_spec _ k' Hwf3) as (j & Hj' & Hcont & Hcases).
  assert (j = -1) as ->.
  { rewrite find_entry_index_on_loop in Hj';
      [|by apply wf_umap_valid|simpl; rewrite count_with_cells; lia].
    simpl in Hj'. rewrite count_with_cells, Hct2 in Hj'.
    rewrite <- Hc1 in Hhash. rewrite Hc21, Hhash in Hloop2. rewrite Hhash in Hj'.
    rewrite (find_entry_loop_hidden b1 b2 _ k k' _ _ s s') in Hj';
      [congruence|lia|done|by rewrite count_with_cells|lia|lia| | |done| |done|done].
    - intros i Hi Hne'. rewrite Hsame21 by done. rewrite Hother1 by (done || lia).
      done.
    - intros i Hi Hne1 Hne2. rewrite Hother3 by (done || lia).
      rewrite Hother2 by (done || lia). rewrite Hsame21 by done.
      by rewrite Hother1 by (done || lia).
    - by eauto. }
  rewrite Hcont. split; [done|].
  destruct Hcases as [(_ & Hget & _)|(? & _)]; [done|lia].
Qed.
End TableHoles.

(** ** Operations on the whole table *)

Section TableWhole.
Implicit Types (t : stash_umap) (b : stash_arr stash_umap_entry) (k : Z).

(** A lookup that meets unoccupied buckets only finds nothing. *)
Lemma stash_umap_contains_unoccupied t :
  wf_umap t →
  (∀ i e, bucket t i = Some e → occupied e = false) →
  ∀ k, stash_umap_contains t k = Some false.
Proof.
  intros Hwf Hfree k.
  destruct (stash_umap_lookup_spec t k Hwf) as (j & _ & -> & Hcases).
  destruct Hcases as [(-> & _)|(Hj & e & He & Ho & _)]; [done|].
  rewrite (Hfree j e) in Ho; [done|]. by apply bucket_Some.
Qed.

Lemma stash_umap_create_ok n vs p junk r' :
  0 < n →
  stash_umap_create n vs (AllocOk p junk) r'
  = Some (Umap (Arr (Some (Block p (replicate (Z.to_nat n) (Entry 0 None false))))
                  n n sizeof_stash_umap_entry) 0 vs).
Proof.
  intros Hn. unfold stash_umap_create, stash_arr_create.
  destruct (Z.gtb_spec n 0); [|lia].
  destruct (Z.eqb_spec n 0); [lia|]. simpl. unfold sizeof_stash_umap_entry.
  rewrite Z.div_mul by lia.
  set (cs := fresh_cells junk 0 (Z.to_nat n)).
  assert (length cs = Z.to_nat n) as Hlen by apply length_fresh_cells.
  unfold stash_arr_is_valid. arr_simpl.
  destruct (Z.gtb_spec n 0); [|lia]. simpl.
  unfold stash_arr_resize. arr_simpl.
  destruct (Z.leb_spec n 0); [lia|].
  destruct (Z.geb_spec n n); [|lia].
  rewrite stash_arr_reserve_enough by (simpl; lia). simpl.
  rewrite arr_cells_Arr, store_loop_Some by lia. simpl.
  rewrite Z.sub_0_r, drop_ge by lia. by rewrite app_nil_r.
Qed.

(** X19: when the allocation succeeds, [stash_umap_create] with a
    capacity [0 < n <= 2^31] gives a valid table of [n] buckets, all of
    them unoccupied, with [count = 0]: it is empty and contains no
    key. *)
Theorem stash_umap_create_empty n vs p junk r' :
  0 < n <= 2 ^ 31 →
  ∃ t, stash_umap_create n vs (AllocOk p junk) r' = Some t
       ∧ wf_umap t ∧ count (buckets t) = n ∧ capacity (buckets t) = n
       ∧ umap_count t = 0 ∧ value_size t = vs
       ∧ (∀ i, 0 <= i < n → bucket t i = Some (Entry 0 None false))
       ∧ (∀ k, stash_umap_contains t k = Some false)
       ∧ stash_umap_is_empty t = true.
Proof.
  intros Hn. rewrite stash_umap_create_ok by lia. eexists. split; [done|].
  match goal with |- wf_umap ?x ∧ _ => set (t := x) end.
  assert (wf_umap t) as Hwf.
  { unfold t. split; [|simpl; lia]. split; [|split]; simpl.
    - unfold stash_arr_is_valid. simpl. by destruct (Z.gtb_spec n 0); [|lia].
    - lia.
    - rewrite arr_cells_Arr, length_replicate. lia. }
  assert (∀ i e, bucket t i = Some e → e = Entry 0 None false) as Hall.
  { intros i e [Hi [_ He]%load_Some]%bucket_Some. unfold t in He. simpl in He.
    rewrite arr_cells_Arr in He. by apply lookup_replicate in He as [-> _]. }
  split; [done|]. do 4 (split; [done|]). split; [|split].
  - intros i Hi. destruct (load_is_Some (arr_cells (buckets t)) i) as [e He].
    { unfold t. simpl. rewrite arr_cells_Arr, length_replicate. lia. }
    assert (bucket t i = Some e) as Hbi by (by apply bucket_Some).
    rewrite Hbi. f_equal. by apply (Hall i e).
  - apply stash_umap_contains_unoccupied; [done|].
    intros i e He. by rewrite (Hall i e He).
  - unfold stash_umap_is_empty. by rewrite orb_true_r.
Qed.

Lemma clear_loop_spec n b i :
  wf_arr b → 0 <= i → i + Z.of_nat n = count b →
  ∃ b', clear_loop n b i = Some b'
    ∧ wf_arr b' ∧ count b' = count b ∧ capacity b' = capacity b
    ∧ (∀ j, 0 <= j < i → load (arr_cells b') j = load (arr_cells b) j)
    ∧ (∀ j, i <= j < count b →
            ∃ e, load (arr_cells b') j = Some e ∧ occupied e = false).
Proof.
  revert b i. induction n as [|n IH]; intros b i Hwf Hi Hn.
  - exists b. simpl. do 5 (split; [done|]). intros j Hj. lia.
  - simpl clear_loop. unfold stash_arr_at.
    destruct (Z.geb_spec i (count b)); [lia|].
    pose proof Hwf as (_ & Hcnt & Hlen).
    destruct (load_is_Some (arr_cells b) i) as [e He]; [lia|].
    rewrite He. cbn [mbind option_bind zero_width].
    assert (∃ b1, (if occupied e
                   then cs ← store (arr_cells b) i (Entry (key e) None false);
                        Some (with_cells b cs)
                   else Some b) = Some b1
              ∧ wf_arr b1 ∧ count b1 = count b ∧ capacity b1 = capacity b
              ∧ (∀ j, 0 <= j → j ≠ i → load (arr_cells b1) j = load (arr_cells b) j)
              ∧ ∃ e1, load (arr_cells b1) i = Some e1 ∧ occupied e1 = false)
      as (b1 & -> & Hwf1 & Hc1 & Hcap1 & Hsame1 & e1 & He1 & Ho1).
    { destruct (occupied e) eqn:Ho.
      - destruct (load_with_cells_insert b i (Entry (key e) None false) Hwf)
          as [Hnew Hother]; [lia|].
        destruct (store_is_Some (arr_cells b) i (Entry (key e) None false))
          as [cs Hcs]; [lia|].
        rewrite Hcs. cbn [mbind option_bind zero_width]. apply store_Some in Hcs as [_ ->].
        eexists. split; [done|]. split.
        { apply wf_arr_with_cells; [done|]. by rewrite length_insert. }
        rewrite count_with_cells, capacity_with_cells.
        do 2 (split; [done|]). split; [|by eauto].
        intros j Hj Hne. by apply Hother.
      - exists b. do 5 (split; [done|]). by eauto. }
    cbn [mbind option_bind zero_width].
    destruct (IH b1 (i + 1) Hwf1) as (b' & Hcl & Hwf' & Hc' & Hcap' & Hlow & Hhigh);
      [lia|lia|].
    exists b'. split; [done|]. split; [done|]. split; [congruence|].
    split; [congruence|]. split.
    + intros j Hj. rewrite Hlow by lia. apply Hsame1; lia.
    + intros j Hj. destruct (Z.eq_dec j i) as [->|Hne].
      * exists e1. split; [|done]. rewrite Hlow by lia. done.
      * apply Hhigh. lia.
Qed.

(** X20: [stash_umap_clear] on a well-formed table keeps the number of
    buckets and the capacity, leaves no bucket occupied and sets
    [count] to 0: afterwards the table is empty and contains no key. *)
Theorem stash_umap_clear_empties t :
  wf_umap t →
  ∃ t', stash_umap_clear t = Some t'
        ∧ wf_umap t' ∧ umap_count t' = 0 ∧ value_size t' = value_size t
        ∧ count (buckets t') = count (buckets t)
        ∧ capacity (buckets t') = capacity (buckets t)
        ∧ (∀ i e, bucket t' i = Some e → occupied e = false)
        ∧ (∀ k, stash_umap_contains t' k = Some false)
        ∧ stash_umap_is_empty t' = true.
Proof.
  intros Hwf. pose proof Hwf as [Hwfb Hb]. pose proof Hwfb as (_ & Hcnt & _).
  unfold stash_umap_clear. rewrite (wf_umap_valid t Hwf). simpl.
  destruct (clear_loop_spec (Z.to_nat (count (buckets t))) (buckets t) 0 Hwfb)
    as (b' & -> & Hwf' & Hc' & Hcap' & _ & Hfree); [lia|lia|].
  simpl. eexists. split; [done|].
  assert (wf_umap (Umap b' 0 (value_size t))) as Hwft' by (split; simpl; [done|lia]).
  assert (∀ i e, bucket (Umap b' 0 (value_size t)) i = Some e → occupied e = false)
    as Hall.
  { intros i e [Hi He]%bucket_Some. simpl in Hi, He.
    destruct (Hfree i) as (e' & He' & Ho'); [lia|]. congruence. }
  split; [done|]. do 4 (split; [done|]). split; [done|]. split.
  - by apply stash_umap_contains_unoccupied.
  - unfold stash_umap_is_empty. by rewrite orb_true_r.
Qed.


(** X22: after [stash_umap_destroy] the table is invalid, and every
    table function called on it is a no-op that returns its failure
    value: [count] is 0, [is_empty] true, [contains] false, [get] and
    [remove] return [STASH_ERROR_KEY_NOT_FOUND], [insert] and [reserve]
    return [STASH_ERROR_OUT_OF_MEMORY], and [clear] and a second
    [destroy] change nothing. *)
Theorem stash_umap_destroy_inert t :
  let d := stash_umap_destroy t in
  stash_umap_is_valid d = false
  ∧ stash_umap_count d = 0
  ∧ stash_umap_is_empty d = true
  ∧ stash_umap_destroy d = d
  ∧ stash_umap_clear d = Some d
  ∧ (∀ k, stash_umap_contains d k = Some false)
  ∧ (∀ k element, stash_umap_get d k element
                  = Some (STASH_ERROR_KEY_NOT_FOUND, element))
  ∧ (∀ k element, stash_umap_remove d k element
                  = Some (STASH_ERROR_KEY_NOT_FOUND, d, element))
  ∧ (∀ k v rb rv, stash_umap_insert d k v rb rv
                  = Some (STASH_ERROR_OUT_OF_MEMORY, d))
  ∧ (∀ n rb, stash_umap_reserve d n rb = Some (STASH_ERROR_OUT_OF_MEMORY, d)).
Proof.
  intros d.
  assert (stash_umap_is_valid d = false) as Hv.
  { subst d. unfold stash_umap_destroy.
    destruct (stash_umap_is_valid t) eqn:E; simpl; [done|by rewrite E]. }
  split; [done|].
  unfold stash_umap_count, stash_umap_is_empty, stash_umap_destroy, stash_umap_clear,
    stash_umap_contains, stash_umap_get, stash_umap_remove, stash_umap_insert,
    stash_umap_reserve.
  rewrite Hv. simpl. repeat split; try done.
  - intros k [out|]; done.
  - intros k [v|]; done.
Qed.
End TableWhole.

(** ** The invariant of the tables *)

Section ListFacts.
Context {A : Type} (P : A → Prop) `{∀ x, Decision (P x)}.



End ListFacts.

Section TableInvariant.
Implicit Types (t : stash_umap) (b : stash_arr stash_umap_entry) (k : Z).



















End TableInvariant.

(** ** Handles of the registry *)

Section RegistryHandles.
Context {T : Type} `{!Elem T}.
Implicit Types (reg : stash_reg T) (id : Z).

Lemma stash_reg_exists_flag reg id :
  reg_inv reg → 1 <= id < next_id reg →
  stash_reg_exists reg id = load (arr_cells (valid_flags reg)) (id - 1).
Proof.
  intros (_ & _ & _ & _ & _ & Hlt & _) Hid. unfold stash_reg_exists.
  destruct (Z.eqb_spec id 0); [lia|]. destruct (Z.geb_spec id (next_id reg)); [lia|].
  simpl. by rewrite u32_small by lia.
Qed.

Lemma stash_reg_exists_true reg id :
  reg_inv reg → 0 <= id < 2 ^ 32 → stash_reg_exists reg id = Some true →
  1 <= id < next_id reg ∧ load (arr_cells (valid_flags reg)) (id - 1) = Some true.
Proof.
  intros Hinv Hid Hex.
  destruct (stash_reg_exists_spec reg id Hinv Hid) as (live & Hex' & Hlive).
  assert (live = true) as -> by congruence. by apply Hlive.
Qed.


Lemma stash_arr_push_back_is_Some {A} `{!Elem A} (a : stash_arr A) element r :
  arr_inv a → 0 < elem_size a → is_Some (stash_arr_push_back a element r).
Proof.
  intros Ha He. pose proof Ha as [Hc Hl].
  destruct (Z.lt_ge_cases (count a) (capacity a)) as [Hlt|Hge];
    [|destruct r as [|p junk]].
  - destruct (grow_for_push_ok a r Ha) as (a1 & ext & Hg & [Hc1 Hl1] & Hcnt & _ & Hcap & _);
      [by left|].
    unfold stash_arr_push_back. rewrite Hg. simpl.
    destruct (store_is_Some (arr_cells a1) (count a1)
                (match element with Some e => e | None => elem_zero end))
      as [cs ->]; [lia|]. by eauto.
  - unfold stash_arr_push_back. rewrite grow_for_push_fail by (done || lia).
    by eauto.
  - destruct (grow_for_push_ok a (AllocOk p junk) Ha)
      as (a1 & ext & Hg & [Hc1 Hl1] & Hcnt & _ & Hcap & _); [by right|].
    unfold stash_arr_push_back. rewrite Hg. simpl.
    destruct (store_is_Some (arr_cells a1) (count a1)
                (match element with Some e => e | None => elem_zero end))
      as [cs ->]; [lia|]. by eauto.
Qed.




(** X28: on a valid registry built by the registry functions,
    [stash_reg_pop] of a live identifier returns true and copies out the
    element stored for it, after which the identifier is not live,
    [stash_reg_get] returns [NULL] for it and a second pop returns false
    and changes nothing; for an identifier that is not live, [get] is
    [NULL] and [pop] returns false and changes nothing. *)
Theorem stash_reg_pop_live reg id :
  reachable reg → stash_reg_is_valid reg = true → 0 <= id < 2 ^ 32 →
  (stash_reg_exists reg id = Some true →
   ∀ y rf,
     ∃ reg' v, stash_reg_pop reg id (Some y) rf = Some (true, reg', Some v)
       ∧ load (arr_cells (elements reg)) (id - 1) = Some v
       ∧ stash_reg_exists reg' id = Some false
       ∧ stash_reg_get reg' id = Some None
       ∧ ∀ out rf', stash_reg_pop reg' id out rf' = Some (false, reg', out))
  ∧ (stash_reg_exists reg id = Some false →
     stash_reg_get reg id = Some None
     ∧ ∀ out rf, stash_reg_pop reg id out rf = Some (false, reg, out)).
Proof.
  intros Hinv%reachable_inv Hvalid Hid. split.
  - intros Hex y rf.
    destruct (stash_reg_exists_true reg id Hinv Hid Hex) as [Hr Hflag].
    destruct (reg_inv_valid reg Hinv Hvalid) as (Hie & Hif & Hese & Hesv & Hesf & Heq).
    pose proof Hinv as (_ & Hiv & _ & Hcnt & Hnext & Hlt & _).
    destruct (stash_arr_push_back_is_Some (free_ids reg) (Some id) rf Hif Hesf)
      as [[st fi] Hpf].
    pose proof Hie as [Hce Hle]. pose proof Hiv as [Hcv Hlv].
    destruct (load_is_Some (arr_cells (elements reg)) (id - 1)) as [v Hv]; [lia|].
    destruct (store_is_Some (arr_cells (valid_flags reg)) (id - 1) false)
      as [fl Hfl]; [lia|].
    assert (stash_reg_pop reg id (Some y) rf
            = Some (true, Reg (elements reg) (with_cells (valid_flags reg) fl) fi
                            (next_id reg) (reg_elem_size reg), Some v)) as Hpop.
    { unfold stash_reg_pop. rewrite Hex. simpl. unfold stash_arr_at.
      rewrite u32_small by lia.
      destruct (Z.geb_spec (id - 1) (count (elements reg))); [lia|]. simpl.
      rewrite Heq, Z.eqb_refl, Hv. simpl. rewrite Hpf. simpl. by rewrite Hfl. }
    pose proof (stash_reg_pop_inv _ _ _ _ _ _ _ Hinv Hid Hpop) as Hinv'.
    eexists _, _. split; [exact Hpop|]. split; [done|].
    assert (stash_reg_exists
              (Reg (elements reg) (with_cells (valid_flags reg) fl) fi
                 (next_id reg) (reg_elem_size reg)) id = Some false) as Hex'.
    { rewrite stash_reg_exists_flag by done. simpl.
      rewrite arr_cells_with_cells by (by eapply store_data).
      by eapply load_store_eq. }
    split; [done|]. split.
    + unfold stash_reg_get. by rewrite Hex'.
    + intros out rf'. unfold stash_reg_pop. by rewrite Hex'.
  - intros Hex. split.
    + unfold stash_reg_get. by rewrite Hex.
    + intros out rf. unfold stash_reg_pop. by rewrite Hex.
Qed.

Lemma NoDup_bounded_length (l : list Z) n :
  NoDup l → (∀ x, x ∈ l → 0 < x < n) → Z.of_nat (length l) <= Z.max 0 (n - 1).
Proof.
  intros Hnd Hb.
  assert (l ⊆+ seqZ 1 (n - 1)) as Hsub.
  { apply NoDup_submseteq; [done|]. intros x Hx. apply elem_of_seqZ.
    specialize (Hb x Hx). lia. }
  apply submseteq_length in Hsub. rewrite length_seqZ in Hsub. lia.
Qed.

(** X29: in a registry built by the registry functions,
    [stash_reg_get_alloc_count] is [next_id - 1], the number of
    identifiers ever issued, it is also the number of flags, and the
    free list never holds more identifiers than that.
    [stash_reg_destroy] brings the count to 0 and makes the registry
    invalid, but leaves [next_id] as it was. *)
Theorem stash_reg_alloc_count reg :
  reachable reg →
  stash_reg_get_alloc_count reg = next_id reg - 1
  ∧ count (valid_flags reg) = next_id reg - 1
  ∧ Z.of_nat (length (free_list reg)) <= stash_reg_get_alloc_count reg
  ∧ stash_reg_get_alloc_count (stash_reg_destroy reg) = 0
  ∧ stash_reg_is_valid (stash_reg_destroy reg) = false
  ∧ next_id (stash_reg_destroy reg) = next_id reg.
Proof.
  intros (Hie & Hiv & Hif & Hcnt & Hnext & Hlt & Hnd & Hfree & _)%reachable_inv.
  destruct Hie as [Hce _].
  assert (stash_reg_get_alloc_count reg = next_id reg - 1) as Hac.
  { unfold stash_reg_get_alloc_count. rewrite u32_small by lia. lia. }
  split; [done|]. split; [lia|]. split; [|done]. rewrite Hac.
  pose proof (NoDup_bounded_length (free_list reg) (next_id reg) Hnd) as Hlen.
  assert (∀ x, x ∈ free_list reg → 0 < x < next_id reg) as Hb
    by (intros x Hx; by apply Hfree).
  specialize (Hlen Hb). lia.
Qed.
End RegistryHandles.

(** ** Walks over the marked indices *)

(** ** The hits of an upward scan *)

Section IndicesFrom.
Context (P : Z → bool).

Lemma elem_of_indices_from n i j :
  j ∈ indices_from P n i ↔ i <= j < i + Z.of_nat n ∧ P j = true.
Proof.
  revert i. induction n as [|n IH]; intros i.
  - simpl. rewrite elem_of_nil. lia.
  - cbn [indices_from]. destruct (P i) eqn:HP.
    + rewrite elem_of_cons, IH. split.
      * intros [->|[Hj Hp]]; split; (done || lia).
      * intros [Hj Hp]. destruct (Z.eq_dec j i); [by left|right]. split; [lia|done].
    + rewrite IH. split.
      * intros [Hj Hp]. split; [lia|done].
      * intros [Hj Hp]. split; [|done].
        destruct (Z.eq_dec j i) as [->|]; [congruence|lia].
Qed.

(** The first hit and what follows it. *)
Lemma indices_from_cons n i j rest :
  indices_from P n i = j :: rest →
  i <= j < i + Z.of_nat n ∧ P j = true
  ∧ (∀ m, i <= m < j → P m = false)
  ∧ rest = indices_from P (Z.to_nat (i + Z.of_nat n - j - 1)) (j + 1).
Proof.
  revert i. induction n as [|n IH]; intros i; [done|].
  cbn [indices_from]. destruct (P i) eqn:HP.
  - intros [= <- <-]. split; [lia|]. split; [done|]. split; [intros m; lia|].
    f_equal. lia.
  - intros Heq. destruct (IH _ Heq) as (Hj & Hp & Hbefore & Hrest).
    split; [lia|]. split; [done|]. split.
    + intros m Hm. destruct (Z.eq_dec m i) as [->|]; [done|]. apply Hbefore. lia.
    + rewrite Hrest. f_equal. lia.
Qed.

Lemma indices_from_nil n i :
  indices_from P n i = [] → ∀ m, i <= m < i + Z.of_nat n → P m = false.
Proof.
  intros Hnil m Hm. destruct (P m) eqn:HP; [|done].
  assert (m ∈ indices_from P n i) as Hin by (by apply elem_of_indices_from).
  rewrite Hnil in Hin. by apply elem_of_nil in Hin.
Qed.

(** Every suffix of the list is the list of the hits after its head. *)
Lemma indices_from_drop n i k j rest :
  drop k (indices_from P n i) = j :: rest →
  i <= j < i + Z.of_nat n ∧ P j = true
  ∧ rest = indices_from P (Z.to_nat (i + Z.of_nat n - j - 1)) (j + 1).
Proof.
  revert n i. induction k as [|k IH]; intros n i Hdrop.
  - rewrite drop_0 in Hdrop. apply indices_from_cons in Hdrop. tauto.
  - destruct (indices_from P n i) as [|j0 rest0] eqn:Heq; [done|].
    simpl in Hdrop. apply indices_from_cons in Heq as (Hj0 & _ & _ & ->).
    apply IH in Hdrop as (Hj & Hp & ->). split; [lia|]. split; [done|].
    f_equal. lia.
Qed.

Lemma indices_from_sorted n i k1 k2 j1 j2 :
  (k1 < k2)%nat →
  indices_from P n i !! k1 = Some j1 → indices_from P n i !! k2 = Some j2 →
  j1 < j2.
Proof.
  intros Hk H1 H2.
  assert (drop k1 (indices_from P n i) !! 0%nat = Some j1) as Hd
    by (by rewrite lookup_drop, Nat.add_0_r).
  destruct (drop k1 (indices_from P n i)) as [|j rest] eqn:Hdrop; [done|].
  simpl in Hd. injection Hd as ->.
  assert (rest !! (k2 - k1 - 1)%nat = Some j2) as Hr.
  { assert (drop k1 (indices_from P n i) !! (k2 - k1)%nat = Some j2) as Hd2
      by (rewrite lookup_drop; rewrite <- H2; f_equal; lia).
    rewrite Hdrop in Hd2. replace (k2 - k1)%nat with (S (k2 - k1 - 1)) in Hd2 by lia.
    done. }
  apply indices_from_drop in Hdrop as (_ & _ & ->).
  apply list_elem_of_lookup_2, elem_of_indices_from in Hr. lia.
Qed.

(** The hits below [j], when [j] is one: the list up to it. *)
Lemma indices_from_app n1 n2 i :
  indices_from P (n1 + n2) i
  = indices_from P n1 i ++ indices_from P n2 (i + Z.of_nat n1).
Proof.
  revert i. induction n1 as [|n1 IH]; intros i.
  - simpl. by rewrite Z.add_0_r.
  - cbn [indices_from Nat.add]. rewrite IH.
    replace (i + 1 + Z.of_nat n1) with (i + Z.of_nat (S n1)) by lia.
    by destruct (P i).
Qed.
End IndicesFrom.

(** ** Iteration over the table *)

Section TableIteration.
Implicit Types (t : stash_umap) (b : stash_arr stash_umap_entry).








End TableIteration.

(** ** Iteration over the table, backwards *)

Section IndicesBelow.
Context (P : Z → bool).

Lemma indices_from_snoc n i :
  indices_from P (S n) i
  = indices_from P n i ++ (if P (i + Z.of_nat n) then [i + Z.of_nat n] else []).
Proof.
  replace (S n) with (n + 1)%nat by lia. rewrite indices_from_app.
  cbn [indices_from]. by destruct (P (i + Z.of_nat n)).
Qed.

(** The hits before the one at position [k] are the hits below it. *)
Lemma indices_from_take n i k j :
  indices_from P n i !! k = Some j →
  take k (indices_from P n i) = indices_from P (Z.to_nat (j - i)) i.
Proof.
  intros Hk.
  pose proof (list_elem_of_lookup_2 _ _ _ Hk) as [Hj Hp]%elem_of_indices_from.
  assert (indices_from P n i
          = indices_from P (Z.to_nat (j - i)) i
            ++ j :: indices_from P (Z.to_nat (i + Z.of_nat n - j - 1)) (j + 1))
    as Hsplit.
  { replace n with (Z.to_nat (j - i) + S (Z.to_nat (i + Z.of_nat n - j - 1)))%nat
      at 1 by lia.
    rewrite indices_from_app. f_equal.
    replace (i + Z.of_nat (Z.to_nat (j - i))) with j by lia.
    cbn [indices_from]. by rewrite Hp. }
  set (A := indices_from P (Z.to_nat (j - i)) i) in *.
  assert (indices_from P n i !! length A = Some j) as HA
    by (rewrite Hsplit, lookup_app_r, Nat.sub_diag by lia; done).
  assert (k = length A) as ->.
  { destruct (Nat.lt_trichotomy k (length A)) as [Hlt|[->|Hgt]]; [|done|].
    - pose proof (indices_from_sorted P n i _ _ _ _ Hlt Hk HA). lia.
    - pose proof (indices_from_sorted P n i _ _ _ _ Hgt HA Hk). lia. }
  by rewrite Hsplit, take_app_length.
Qed.
End IndicesBelow.

Section TableIterationBack.
Implicit Types (t : stash_umap) (b : stash_arr stash_umap_entry).






End TableIterationBack.

(** ** Iteration over the registry *)

Section RegistryIteration.
Context {T : Type} `{!Elem T}.
Implicit Types (reg : stash_reg T) (id : Z).

Lemma id_live_load reg id :
  reg_inv reg → 1 <= id < next_id reg →
  ∃ f, load (arr_cells (valid_flags reg)) (u32 (id - 1)) = Some f
       ∧ id_live reg id = f
       ∧ u32 (id - 1) = id - 1 ∧ u32 (id + 1) = id + 1
       ∧ at_ptr (elements reg) (u32 (id - 1)) = elem_ptr reg id.
Proof.
  intros (Hie & Hiv & _ & Hcnt & Hnext & Hlt & _) Hid.
  destruct Hiv as [Hcv Hlv]. rewrite !u32_small by lia.
  destruct (load_is_Some (arr_cells (valid_flags reg)) (id - 1)) as [f Hf]; [lia|].
  exists f. unfold id_live, at_ptr, elem_ptr, stash_arr_at. rewrite Hf.
  do 4 (split; [done|]).
  by destruct (Z.geb_spec (id - 1) (count (elements reg))); [lia|].
Qed.

Lemma reg_scan_up_spec reg fuel id :
  reg_inv reg → 1 <= id <= next_id reg → next_id reg - id < Z.of_nat fuel →
  reg_scan_up fuel reg id
  = Some (match indices_from (id_live reg) (Z.to_nat (next_id reg - id)) id with
          | j :: _ => j
          | [] => next_id reg
          end).
Proof.
  intros Hinv. revert id. induction fuel as [|fuel IH]; intros id Hid Hfuel; [lia|].
  cbn [reg_scan_up]. destruct (Z.ltb_spec id (next_id reg)).
  - destruct (id_live_load reg id Hinv) as (f & Hf & Hl & _ & Hu & _); [lia|].
    rewrite Hf, Hu. cbn [mbind option_bind zero_width].
    replace (Z.to_nat (next_id reg - id))
      with (S (Z.to_nat (next_id reg - (id + 1)))) by lia.
    cbn [indices_from]. rewrite Hl. destruct f; [done|]. apply IH; lia.
  - replace (Z.to_nat (next_id reg - id)) with 0%nat by lia. simpl. f_equal. lia.
Qed.

Lemma reg_next_elem_spec reg id :
  reg_inv reg → 1 <= id <= next_id reg →
  reg_next_elem reg id
  = Some (match indices_from (id_live reg) (Z.to_nat (next_id reg - id)) id with
          | j :: _ => elem_ptr reg j
          | [] => NULL
          end).
Proof.
  intros Hinv Hid. unfold reg_next_elem. rewrite reg_scan_up_spec by (done || lia).
  cbn [mbind option_bind zero_width].
  destruct (indices_from _ _ id) as [|j rest] eqn:Hl.
  - by destruct (Z.ltb_spec (next_id reg) (next_id reg)); [lia|].
  - apply indices_from_cons in Hl as (Hj & _).
    destruct (Z.ltb_spec j (next_id reg)); [|lia].
    destruct (id_live_load reg j Hinv) as (_ & _ & _ & _ & _ & ->); [lia|]. done.
Qed.

Lemma reg_begin_loop_spec reg fuel id :
  reg_inv reg → 1 <= id <= next_id reg → next_id reg - id < Z.of_nat fuel →
  reg_begin_loop fuel reg id
  = Some (match indices_from (id_live reg) (Z.to_nat (next_id reg - id)) id with
          | j :: rest =>
              It (elem_ptr reg j) j
                 (match rest with j' :: _ => elem_ptr reg j' | [] => NULL end)
          | [] => It NULL NULL NULL
          end).
Proof.
  intros Hinv. revert id. induction fuel as [|fuel IH]; intros id Hid Hfuel; [lia|].
  cbn [reg_begin_loop]. destruct (Z.ltb_spec id (next_id reg)).
  - destruct (id_live_load reg id Hinv) as (f & Hf & Hl & _ & Hu & Hp); [lia|].
    rewrite Hf, Hu. cbn [mbind option_bind zero_width].
    replace (Z.to_nat (next_id reg - id))
      with (S (Z.to_nat (next_id reg - (id + 1)))) by lia.
    cbn [indices_from]. rewrite Hl. destruct f.
    + rewrite reg_next_elem_spec by (done || lia). cbn [mbind option_bind zero_width].
      by rewrite Hp.
    + apply IH; lia.
  - by replace (Z.to_nat (next_id reg - id)) with 0%nat by lia.
Qed.

Lemma reg_walk_at reg k i rest :
  reg_inv reg → count (elements reg) ≠ 0 →
  (∀ j, 1 <= j < next_id reg → elem_ptr reg j ≠ NULL) →
  drop k (live_ids reg) = i :: rest →
  reg_walk reg k
  = Some (It (elem_ptr reg i) i
             (match rest with j :: _ => elem_ptr reg j | [] => NULL end)).
Proof.
  intros Hinv Hcount Hnn.
  pose proof Hinv as ([Hce _] & _ & _ & _ & Hnext & Hlt & _).
  revert i rest. induction k as [|k IH]; intros i rest Hdrop.
  - rewrite drop_0 in Hdrop. cbn [reg_walk]. unfold stash_reg_begin.
    destruct (Z.eqb_spec (count (elements reg)) 0); [done|].
    rewrite reg_begin_loop_spec by (done || lia).
    fold (live_ids reg). by rewrite Hdrop.
  - assert (∃ i0, drop k (live_ids reg) = i0 :: i :: rest) as [i0 Hdrop0].
    { destruct (lookup_lt_is_Some_2 (live_ids reg) k) as [i0 Hi0].
      { apply (f_equal length) in Hdrop. rewrite length_drop in Hdrop.
        simpl in Hdrop. lia. }
      exists i0. by rewrite (drop_S _ _ _ Hi0), Hdrop. }
    cbn [reg_walk]. rewrite (IH _ _ Hdrop0). cbn [mbind option_bind zero_width].
    pose proof Hdrop0 as (Hi0 & Hp0 & Hrest0)%indices_from_drop.
    pose proof Hdrop as (Hi & Hp & Hrest)%indices_from_drop.
    unfold stash_reg_next. cbn [curr prev next].
    destruct (Z.eqb_spec (count (elements reg)) 0); [done|].
    destruct (Z.eqb_spec (elem_ptr reg i0) NULL) as [Heq|_];
      [apply Hnn in Heq; [done|lia]|].
    destruct (Z.eqb_spec (elem_ptr reg i) NULL) as [Heq|_];
      [apply Hnn in Heq; [done|lia]|].
    rewrite (u32_small i0) by lia. rewrite (u32_small (i0 + 1)) by lia.
    rewrite reg_scan_up_spec by (done || lia).
    replace (Z.to_nat (next_id reg - (i0 + 1)))
      with (Z.to_nat (1 + Z.of_nat (Z.to_nat (next_id reg - 1)) - i0 - 1)) by lia.
    rewrite <- Hrest0. cbn [mbind option_bind zero_width].
    destruct (Z.ltb_spec i (next_id reg)); [|lia].
    rewrite (u32_small (i + 1)) by lia.
    rewrite reg_next_elem_spec by (done || lia). cbn [mbind option_bind zero_width].
    replace (Z.to_nat (next_id reg - (i + 1)))
      with (Z.to_nat (1 + Z.of_nat (Z.to_nat (next_id reg - 1)) - i - 1)) by lia.
    by rewrite <- Hrest.
Qed.

Lemma reg_scan_down_spec reg fuel id :
  reg_inv reg → 0 <= id < next_id reg → id < Z.of_nat fuel →
  reg_scan_down fuel reg id
  = Some (default 0 (last (indices_from (id_live reg) (Z.to_nat id) 1))).
Proof.
  intros Hinv. revert id. induction fuel as [|fuel IH]; intros id Hid Hfuel; [lia|].
  cbn [reg_scan_down]. destruct (Z.geb_spec id 1).
  - destruct (id_live_load reg id Hinv) as (f & Hf & Hl & Hu & _); [lia|].
    rewrite Hf, Hu. cbn [mbind option_bind zero_width].
    replace (Z.to_nat id) with (S (Z.to_nat (id - 1))) by lia.
    rewrite indices_from_snoc.
    replace (1 + Z.of_nat (Z.to_nat (id - 1))) with id by lia.
    rewrite Hl. destruct f; simpl negb; cbv iota.
    + by rewrite last_snoc.
    + rewrite app_nil_r. apply IH; lia.
  - by replace id with 0 by lia.
Qed.

Lemma reg_end_loop_spec reg fuel id :
  reg_inv reg → 0 <= id < next_id reg → id < Z.of_nat fuel →
  reg_end_loop fuel reg id
  = Some (match last (indices_from (id_live reg) (Z.to_nat id) 1) with
          | Some j => It (elem_ptr reg j) j NULL
          | None => It NULL NULL NULL
          end).
Proof.
  intros Hinv. pose proof Hinv as (_ & _ & _ & _ & _ & Hlt & _).
  revert id. induction fuel as [|fuel IH]; intros id Hid Hfuel; [lia|].
  cbn [reg_end_loop]. destruct (Z.geb_spec id 1).
  - destruct (id_live_load reg id Hinv) as (f & Hf & Hl & Hu & _ & Hp); [lia|].
    rewrite Hf, Hu. cbn [mbind option_bind zero_width].
    replace (Z.to_nat id) with (S (Z.to_nat (id - 1))) at 2 by lia.
    rewrite indices_from_snoc.
    replace (1 + Z.of_nat (Z.to_nat (id - 1))) with id by lia.
    rewrite Hl. destruct f.
    + rewrite reg_scan_down_spec by (done || lia). cbn [mbind option_bind zero_width].
      rewrite Hu in Hp. rewrite last_snoc, Hp. unfold set_prev.
      cbn [curr prev next]. by destruct (_ >=? 1).
    + rewrite app_nil_r. apply IH; lia.
  - by replace (Z.to_nat id) with 0%nat by lia.
Qed.

Lemma stash_reg_previous_at reg i nxt :
  reg_inv reg → count (elements reg) ≠ 0 → 1 <= i < next_id reg →
  elem_ptr reg i ≠ NULL →
  stash_reg_previous reg (It (elem_ptr reg i) i nxt)
  = Some (match last (indices_from (id_live reg) (Z.to_nat (i - 1)) 1) with
          | Some j => It (elem_ptr reg j) j (elem_ptr reg i)
          | None => It NULL NULL (elem_ptr reg i)
          end).
Proof.
  intros Hinv Hcount Hi Hnn. pose proof Hinv as (_ & _ & _ & _ & _ & Hlt & _).
  unfold stash_reg_previous. cbn [curr prev next].
  destruct (Z.eqb_spec (count (elements reg)) 0); [done|].
  destruct (Z.eqb_spec (elem_ptr reg i) NULL); [done|].
  rewrite (u32_small i) by lia. rewrite (u32_small (i - 1)) by lia.
  rewrite reg_scan_down_spec by (done || lia). cbn [mbind option_bind zero_width].
  destruct (last (indices_from (id_live reg) (Z.to_nat (i - 1)) 1))
    as [j|] eqn:Hlast; cbn [default from_option id].
  - apply last_Some in Hlast as [l' Hl'].
    assert (j ∈ indices_from (id_live reg) (Z.to_nat (i - 1)) 1)
      as [Hj Hp]%elem_of_indices_from
      by (rewrite Hl'; apply elem_of_app; right; by left).
    destruct (Z.geb_spec j 1); [|lia].
    destruct (id_live_load reg j Hinv) as (_ & _ & _ & _ & _ & ->); [lia|]. done.
  - done.
Qed.

Lemma reg_walk_back_at reg k i :
  reg_inv reg → count (elements reg) ≠ 0 →
  (∀ j, 1 <= j < next_id reg → elem_ptr reg j ≠ NULL) →
  reverse (live_ids reg) !! k = Some i →
  reg_walk_back reg k
  = Some (It (elem_ptr reg i) i
             (match k with
              | O => NULL
              | S k' => match reverse (live_ids reg) !! k' with
                        | Some j => elem_ptr reg j
                        | None => NULL
                        end
              end)).
Proof.
  intros Hinv Hcount Hnn.
  pose proof Hinv as ([Hce _] & _ & _ & _ & Hnext & Hlt & _).
  revert i. induction k as [|k IH]; intros i Hk.
  - cbn [reg_walk_back]. unfold stash_reg_end.
    destruct (Z.eqb_spec (count (elements reg)) 0); [done|].
    rewrite u32_small by lia. rewrite reg_end_loop_spec by (done || lia).
    fold (live_ids reg).
    rewrite <- head_reverse. rewrite <- head_lookup in Hk. by rewrite Hk.
  - destruct (lookup_lt_is_Some_2 (reverse (live_ids reg)) k) as [i0 Hi0].
    { apply lookup_lt_Some in Hk. lia. }
    cbn [reg_walk_back]. rewrite (IH _ Hi0). cbn [mbind option_bind zero_width].
    rewrite Hi0.
    pose proof Hi0 as Hi0'. pose proof Hk as Hk'.
    pose proof (lookup_lt_Some _ _ _ Hk) as Hlen. rewrite length_reverse in Hlen.
    rewrite reverse_lookup in Hi0' by lia. rewrite reverse_lookup in Hk' by lia.
    pose proof (list_elem_of_lookup_2 _ _ _ Hi0') as [Hr0 Hp0]%elem_of_indices_from.
    rewrite stash_reg_previous_at; [|done|done|lia|apply Hnn; lia].
    apply (indices_from_take (id_live reg)) in Hi0'. rewrite <- Hi0'.
    fold (live_ids reg).
    assert (last (take (length (live_ids reg) - S k) (live_ids reg)) = Some i)
      as ->; [|done].
    rewrite last_lookup, length_take, lookup_take_lt by lia.
    rewrite <- Hk'. f_equal. lia.
Qed.

Lemma elem_ptr_not_null reg j :
  reg_inv reg → data (elements reg) ≠ None → 0 <= elem_size (elements reg) →
  data_ptr (elements reg) + count (elements reg) * elem_size (elements reg) < 2 ^ 64 →
  1 <= j < next_id reg →
  elem_ptr reg j = data_ptr (elements reg) + (j - 1) * elem_size (elements reg)
  ∧ elem_ptr reg j ≠ NULL.
Proof.
  intros (_ & _ & _ & _ & Hnext & _) Hd He Hw Hj.
  pose proof (data_ptr_pos _ Hd). unfold elem_ptr.
  rewrite slot_ptr_small by (done || lia). split; [done|]. unfold NULL. nia.
Qed.

(** X30: on a registry built by the registry functions that has issued
    an identifier and whose element array lies inside the address
    space, [live_ids] lists exactly the live identifiers in increasing
    order; [k] calls of [stash_reg_next] after [stash_reg_begin] leave
    the iterator on the [k]-th of them ([curr] the address of its
    element, never [NULL], [prev] the identifier, [next] the element of
    the one after), [k] calls of [stash_reg_previous] after
    [stash_reg_end] on the [k]-th from the end, and once all have been
    visited [curr] is [NULL]. *)
Theorem stash_reg_iteration reg :
  reachable reg → count (elements reg) ≠ 0 → 0 <= elem_size (elements reg) →
  data_ptr (elements reg) + count (elements reg) * elem_size (elements reg) < 2 ^ 64 →
  (∀ id, id ∈ live_ids reg ↔ 1 <= id < 2 ^ 32 ∧ stash_reg_exists reg id = Some true)
  ∧ (∀ k1 k2 i1 i2, (k1 < k2)%nat →
       live_ids reg !! k1 = Some i1 → live_ids reg !! k2 = Some i2 → i1 < i2)
  ∧ (∀ k id, live_ids reg !! k = Some id →
       reg_walk reg k
       = Some (It (elem_ptr reg id) id
                  (match live_ids reg !! S k with
                   | Some j => elem_ptr reg j
                   | None => NULL
                   end))
       ∧ elem_ptr reg id ≠ NULL)
  ∧ (∃ it, reg_walk reg (length (live_ids reg)) = Some it ∧ curr it = NULL)
  ∧ (∀ k id, reverse (live_ids reg) !! k = Some id →
       reg_walk_back reg k
       = Some (It (elem_ptr reg id) id
                  (match k with
                   | O => NULL
                   | S k' => match reverse (live_ids reg) !! k' with
                             | Some j => elem_ptr reg j
                             | None => NULL
                             end
                   end)))
  ∧ (∃ it, reg_walk_back reg (length (live_ids reg)) = Some it ∧ curr it = NULL).
Proof.
  intros Hinv%reachable_inv Hcount He Hw.
  pose proof Hinv as (Hie & Hiv & _ & Hcnt & Hnext & Hlt & _).
  pose proof Hie as (Hce & Hde & _).
  assert (data (elements reg) ≠ None) as Hd by (apply Hde; lia).
  assert (∀ j, 1 <= j < next_id reg → elem_ptr reg j ≠ NULL) as Hnn
    by (intros j Hj; by apply elem_ptr_not_null).
  split; [|split; [apply indices_from_sorted|split; [|split; [|split]]]].
  - intros id. unfold live_ids. rewrite elem_of_indices_from. split.
    + intros [Hid Hl]. split; [lia|].
      destruct (id_live_load reg id Hinv) as (f & Hf & Hlf & Hu & _); [lia|].
      rewrite stash_reg_exists_flag by (done || lia).
      rewrite Hu in Hf. rewrite Hf. congruence.
    + intros [Hid Hex].
      destruct (stash_reg_exists_true reg id Hinv) as [Hr Hf]; [lia|done|].
      split; [lia|]. unfold id_live. by rewrite Hf.
  - intros k id Hk. split.
    + rewrite (reg_walk_at reg k id (drop (S k) (live_ids reg))); try done.
      * do 2 f_equal.
        replace (live_ids reg !! S k) with (drop (S k) (live_ids reg) !! 0%nat)
          by (rewrite lookup_drop; f_equal; lia).
        by destruct (drop (S k) (live_ids reg)).
      * by apply drop_S.
    + apply list_elem_of_lookup_2, elem_of_indices_from in Hk as [Hid _].
      apply Hnn. lia.
  - destruct (live_ids reg) as [|i0 l0] eqn:HL.
    + simpl. unfold stash_reg_begin.
      destruct (Z.eqb_spec (count (elements reg)) 0); [done|].
      rewrite reg_begin_loop_spec by (done || lia).
      fold (live_ids reg). rewrite HL. by eauto.
    + assert (∃ i, drop (length l0) (live_ids reg) = [i]) as [i Hdrop].
      { rewrite HL.
        destruct (lookup_lt_is_Some_2 (i0 :: l0) (length l0)) as [i Hi];
          [simpl; lia|].
        exists i. rewrite (drop_S _ _ _ Hi). by rewrite drop_ge by (simpl; lia). }
      cbn [length reg_walk]. rewrite (reg_walk_at reg _ i []) by done.
      cbn [mbind option_bind zero_width]. unfold stash_reg_next. cbn [curr prev next].
      destruct (Z.eqb_spec (count (elements reg)) 0); [done|].
      apply indices_from_drop in Hdrop as (Hi & _).
      destruct (Z.eqb_spec (elem_ptr reg i) NULL) as [Heq|_];
        [apply Hnn in Heq; [done|lia]|].
      simpl. by eauto.
  - intros k id Hk. by apply reg_walk_back_at.
  - destruct (live_ids reg) as [|i0 l0] eqn:HL.
    + simpl. unfold stash_reg_end.
      destruct (Z.eqb_spec (count (elements reg)) 0); [done|].
      rewrite u32_small by lia. rewrite reg_end_loop_spec by (done || lia).
      fold (live_ids reg). rewrite HL. by eauto.
    + assert (reverse (live_ids reg) !! length l0 = Some i0) as Hlast.
      { rewrite HL, reverse_lookup by (simpl; lia). simpl.
        by rewrite Nat.sub_diag. }
      cbn [length reg_walk_back]. rewrite (reg_walk_back_at reg _ i0) by done.
      cbn [mbind option_bind zero_width].
      assert (1 <= i0 < next_id reg) as Hi0.
      { assert (i0 ∈ live_ids reg) as Hin by (rewrite HL; by left).
        apply elem_of_indices_from in Hin as [? ?]. lia. }
      rewrite stash_reg_previous_at; [|done|done|lia|by apply Hnn].
      assert (indices_from (id_live reg) (Z.to_nat (i0 - 1)) 1 = []) as ->.
      { assert (live_ids reg !! 0%nat = Some i0) as H0 by (by rewrite HL).
        apply (indices_from_take (id_live reg)) in H0. by rewrite <- H0. }
      by eauto.
Qed.
End RegistryIteration.

(** ** The further theorems at the sample values *)

Lemma arr_inv_sample_three : arr_inv sample_three.
Proof. split; [simpl; lia|reflexivity]. Qed.

Lemma arr_inv_sample_full : arr_inv sample_full.
Proof. split; [simpl; lia|reflexivity]. Qed.

Lemma arr_inv_sample_empty : arr_inv sample_empty.
Proof. split; [simpl; lia|reflexivity]. Qed.




Lemma sample_map_42_lacks_7 : ¬ key_stored sample_map_42 7.
Proof.
  intros (i & e & [Hi He]%bucket_Some & Ho & Hk). simpl in Hi.
  assert (i = 0 ∨ i = 1 ∨ i = 2 ∨ i = 3) as [-> | [-> | [-> | ->]]] by lia;
    injection He as <-; discriminate.
Qed.


(** Popping 30 off [10, 20, 30], and popping the empty array. *)
Lemma stash_arr_pop_back_last_witness :
  (∃ a', stash_arr_pop_back sample_three (Some 0) = Some (STASH_SUCCESS, a', Some 30)
         ∧ live a' = [10; 20] ∧ capacity a' = 4)
  ∧ stash_arr_pop_back sample_empty (Some 7) = Some (STASH_EMPTY, sample_empty, Some 7).
Proof.
  split.
  - apply (proj1 (stash_arr_pop_back_last sample_three arr_inv_sample_three)
             [10; 20] 30 0).
    reflexivity.
  - apply (proj2 (stash_arr_pop_back_last sample_empty arr_inv_sample_empty)
             (Some 7)).
    reflexivity.
Defined.


(** Popping 10 off the front of [10, 20, 30]. *)
Lemma stash_arr_pop_front_first_witness :
  (∃ a', stash_arr_pop_front sample_three (Some 0) = Some (STASH_SUCCESS, a', Some 10)
         ∧ live a' = [20; 30] ∧ capacity a' = 4 ∧ arr_inv a')
  ∧ stash_arr_pop_front sample_empty (Some 7)
    = Some (STASH_EMPTY, sample_empty, Some 7).
Proof.
  split.
  - apply (proj1 (stash_arr_pop_front_first sample_three arr_inv_sample_three)
             [20; 30] 10 0).
    reflexivity.
  - apply (proj2 (stash_arr_pop_front_first sample_empty arr_inv_sample_empty)
             (Some 7)).
    reflexivity.
Defined.

(** Popping index 1 of [10, 20, 30], and index 3. *)
Lemma stash_arr_pop_at_deletes_witness :
  (∃ a', stash_arr_pop_at sample_three 1 (Some 0) = Some (STASH_SUCCESS, a', Some 20)
         ∧ live a' = [10; 30] ∧ capacity a' = 4 ∧ arr_inv a')
  ∧ stash_arr_pop_at sample_three 3 (Some 7)
    = Some (STASH_ERROR_OUT_OF_BOUNDS, sample_three, Some 7).
Proof.
  split.
  - apply (proj1 (stash_arr_pop_at_deletes sample_three 1 arr_inv_sample_three
                    ltac:(lia)) 20 0).
    reflexivity.
  - apply (proj2 (stash_arr_pop_at_deletes sample_three 3 arr_inv_sample_three
                    ltac:(lia)) (Some 7)).
    simpl. lia.
Defined.




(** Shrinking the full [10, 20], the empty array and [10, 20, 30] of
    capacity 4. *)
Lemma stash_arr_shrink_to_fit_live_witness :
  stash_arr_shrink_to_fit sample_full AllocFail = Some (1, sample_full)
  ∧ stash_arr_shrink_to_fit sample_empty AllocFail = Some (STASH_EMPTY, sample_empty)
  ∧ (∃ a', stash_arr_shrink_to_fit sample_three (AllocOk 8192 (fun _ => 0))
           = Some (STASH_SUCCESS, a')
           ∧ capacity a' = 3 ∧ count a' = 3 ∧ live a' = [10; 20; 30]
           ∧ arr_inv a'
           ∧ ∀ r', stash_arr_shrink_to_fit a' r' = Some (1, a'))
  ∧ stash_arr_shrink_to_fit sample_three AllocFail
    = Some (STASH_ERROR_OUT_OF_MEMORY, sample_three).
Proof.
  split; [|split; [|split]].
  - apply (proj1 (stash_arr_shrink_to_fit_live sample_full AllocFail
                    arr_inv_sample_full)).
    reflexivity.
  - apply (proj1 (proj2 (stash_arr_shrink_to_fit_live sample_empty AllocFail
                           arr_inv_sample_empty))).
    reflexivity.
  - apply (proj1 (proj2 (proj2 (stash_arr_shrink_to_fit_live sample_three
                                  (AllocOk 8192 (fun _ => 0))
                                  arr_inv_sample_three))
                    ltac:(simpl; lia) ltac:(simpl; lia))).
    discriminate.
  - apply (proj2 (proj2 (proj2 (stash_arr_shrink_to_fit_live sample_three
                                  AllocFail arr_inv_sample_three))
                    ltac:(simpl; lia) ltac:(simpl; lia))).
Defined.

(** Filling [10, 20, 30] of capacity 4 with 7. *)
Lemma stash_arr_fill_all_witness :
  ∃ a', stash_arr_fill sample_three (Some 7) = Some a'
        ∧ live a' = [7; 7; 7; 7]
        ∧ count a' = 4 ∧ capacity a' = 4 ∧ arr_inv a'.
Proof.
  apply (stash_arr_fill_all sample_three 7 arr_inv_sample_three).
  simpl. lia.
Defined.

(** [10, 20, 30] against a copy elsewhere with another spare slot, and
    against [10, 20]. *)
Lemma stash_arr_compare_live_witness :
  (∃ res, stash_arr_compare sample_three
            (Arr (Some (Block 8192 [10; 20; 30; 99; 98])) 3 5 4) = Some res
          ∧ (res = true ↔ 4 = 4 ∧ [10; 20; 30] = [10; 20; 30]))
  ∧ (∃ res, stash_arr_compare sample_three sample_full = Some res
            ∧ (res = true ↔ 4 = 4 ∧ [10; 20; 30] = [10; 20])).
Proof.
  split.
  - apply (stash_arr_compare_live sample_three
             (Arr (Some (Block 8192 [10; 20; 30; 99; 98])) 3 5 4)
             arr_inv_sample_three).
    split; [simpl; lia|reflexivity].
  - apply (stash_arr_compare_live sample_three sample_full
             arr_inv_sample_three arr_inv_sample_full).
Defined.



(** Key 42, stored in [sample_map_42], and key 7, which is not. *)
Lemma stash_umap_lookup_sound_witness :
  key_stored sample_map_42 42
  ∧ (stash_umap_contains sample_map_42 7 = Some false
     ∧ (∀ out, stash_umap_get sample_map_42 7 (Some out)
               = Some (STASH_ERROR_KEY_NOT_FOUND, Some out))
     ∧ (∀ element, stash_umap_remove sample_map_42 7 element
                   = Some (STASH_ERROR_KEY_NOT_FOUND, sample_map_42, element))).
Proof.
  split.
  - apply (proj1 (stash_umap_lookup_sound sample_map_42 42 wf_umap_sample_map_42)).
    reflexivity.
  - apply (proj2 (stash_umap_lookup_sound sample_map_42 7 wf_umap_sample_map_42)).
    exact sample_map_42_lacks_7.
Defined.

(** Removing key 42 after its insertion into [sample_map]. *)
Lemma stash_umap_remove_after_insert_witness :
  ∃ t'', stash_umap_remove sample_map_42 42 (Some [x00])
         = Some (STASH_SUCCESS, t'', Some [x64])
         ∧ umap_count t'' = 0
         ∧ count (buckets t'') = 4
         ∧ stash_umap_contains t'' 42 = Some false.
Proof.
  apply (stash_umap_remove_after_insert sample_map 42 [x64] AllocFail
           (AllocOk 8192 (fun _ => x00)) sample_map_42 [x00] wf_umap_sample_map);
    reflexivity.
Defined.

(** A second insert of key 42 into [sample_map_42]. *)
Lemma stash_umap_insert_existing_witness :
  (∃ t', stash_umap_insert sample_map_42 42 (Some [x07]) AllocFail AllocFail
         = Some (STASH_KEY_EXISTS, t'))
  ∧ (umap_count sample_map_42 = 1
     ∧ (∀ i, bucket sample_map_42 i = bucket sample_map_42 i)
     ∧ ∀ k' element, stash_umap_get sample_map_42 k' element
                     = stash_umap_get sample_map_42 k' element).
Proof.
  split.
  - apply (proj1 (proj1 (stash_umap_insert_existing sample_map_42 42 [x07]
                           AllocFail AllocFail wf_umap_sample_map_42 eq_refl))).
    reflexivity.
  - apply (proj2 (stash_umap_insert_existing sample_map_42 42 [x07]
                    AllocFail AllocFail wf_umap_sample_map_42 eq_refl)
             sample_map_42).
    reflexivity.
Defined.

(** Key 42 after the insertion of key 7 into [sample_map_42]. *)
Lemma stash_umap_insert_keeps_found_witness :
  ∃ st t', stash_umap_insert sample_map_42 7 (Some [x07]) AllocFail
             (AllocOk 8200 (fun _ => x00)) = Some (st, t')
    ∧ stash_umap_get t' 42 (Some [x00]) = Some (STASH_SUCCESS, Some [x64])
    ∧ stash_umap_contains t' 42 = Some true.
Proof.
  eexists _, _. split; [reflexivity|].
  apply (stash_umap_insert_keeps_found sample_map_42 7 [x07] AllocFail
           (AllocOk 8200 (fun _ => x00)) _ _ 42 [x00] [x64]
           wf_umap_sample_map_42 eq_refl eq_refl eq_refl).
Defined.

(** Keys 42 and 7 share the home bucket 0 of [sample_map]. *)
Lemma stash_umap_remove_hides_collision_witness :
  ∃ t2 t3 out,
    stash_umap_insert sample_map_42 7 (Some [x07]) AllocFail
      (AllocOk 8200 (fun _ => x00)) = Some (STASH_SUCCESS, t2)
    ∧ stash_umap_remove t2 42 None = Some (STASH_SUCCESS, t3, out)
    ∧ key_stored t3 7
    ∧ stash_umap_contains t3 7 = Some false
    ∧ (∀ o, stash_umap_get t3 7 (Some o)
            = Some (STASH_ERROR_KEY_NOT_FOUND, Some o)).
Proof.
  eexists _, _, _. split; [reflexivity|]. split; [reflexivity|].
  apply (stash_umap_remove_hides_collision sample_map 42 7 [x64] [x07]
           AllocFail (AllocOk 8192 (fun _ => x00))
           AllocFail (AllocOk 8200 (fun _ => x00))
           sample_map_42 _ None _ _
           wf_umap_sample_map eq_refl eq_refl eq_refl eq_refl eq_refl eq_refl).
Defined.

(** A new table of four buckets. *)
Lemma stash_umap_create_empty_witness :
  ∃ t, stash_umap_create 4 1 (AllocOk 4096 (fun _ => Entry 7 None true)) AllocFail
       = Some t
       ∧ wf_umap t ∧ count (buckets t) = 4 ∧ capacity (buckets t) = 4
       ∧ umap_count t = 0 ∧ value_size t = 1
       ∧ (∀ i, 0 <= i < 4 → bucket t i = Some (Entry 0 None false))
       ∧ (∀ k, stash_umap_contains t k = Some false)
       ∧ stash_umap_is_empty t = true.
Proof.
  apply (stash_umap_create_empty 4 1 4096 (fun _ => Entry 7 None true) AllocFail).
  lia.
Defined.

(** Clearing [sample_map_42]. *)
Lemma stash_umap_clear_empties_witness :
  ∃ t', stash_umap_clear sample_map_42 = Some t'
        ∧ wf_umap t' ∧ umap_count t' = 0 ∧ value_size t' = 1
        ∧ count (buckets t') = 4
        ∧ capacity (buckets t') = 4
        ∧ (∀ i e, bucket t' i = Some e → occupied e = false)
        ∧ (∀ k, stash_umap_contains t' k = Some false)
        ∧ stash_umap_is_empty t' = true.
Proof. apply (stash_umap_clear_empties sample_map_42 wf_umap_sample_map_42). Defined.







(** Popping the live identifier 2 and the retired identifier 1 of
    [sample_reg_popped]. *)
Lemma stash_reg_pop_live_witness :
  (∀ y rf,
     ∃ reg' v, stash_reg_pop sample_reg_popped 2 (Some y) rf
               = Some (true, reg', Some v)
       ∧ load (arr_cells (elements sample_reg_popped)) (2 - 1) = Some v
       ∧ stash_reg_exists reg' 2 = Some false
       ∧ stash_reg_get reg' 2 = Some None
       ∧ ∀ out rf', stash_reg_pop reg' 2 out rf' = Some (false, reg', out))
  ∧ (stash_reg_get sample_reg_popped 1 = Some None
     ∧ ∀ out rf, stash_reg_pop sample_reg_popped 1 out rf
                 = Some (false, sample_reg_popped, out)).
Proof.
  split.
  - apply (proj1 (stash_reg_pop_live sample_reg_popped 2
                    sample_reg_popped_reachable eq_refl ltac:(lia))).
    reflexivity.
  - apply (proj2 (stash_reg_pop_live sample_reg_popped 1
                    sample_reg_popped_reachable eq_refl ltac:(lia))).
    reflexivity.
Defined.

(** Two identifiers issued by [sample_reg_popped], one of them retired. *)
Lemma stash_reg_alloc_count_witness :
  stash_reg_get_alloc_count sample_reg_popped = 3 - 1
  ∧ count (valid_flags sample_reg_popped) = 3 - 1
  ∧ Z.of_nat (length (free_list sample_reg_popped))
    <= stash_reg_get_alloc_count sample_reg_popped
  ∧ stash_reg_get_alloc_count (stash_reg_destroy sample_reg_popped) = 0
  ∧ stash_reg_is_valid (stash_reg_destroy sample_reg_popped) = false
  ∧ next_id (stash_reg_destroy sample_reg_popped) = 3.
Proof.
  apply (stash_reg_alloc_count sample_reg_popped sample_reg_popped_reachable).
Defined.

(** The walks over [sample_reg_popped], whose only live identifier is 2. *)
Lemma stash_reg_iteration_witness :
  (reg_walk sample_reg_popped 0 = Some (It 12292 2 NULL) ∧ 12292 ≠ NULL)
  ∧ (∃ it, reg_walk sample_reg_popped 1 = Some it ∧ curr it = NULL)
  ∧ reg_walk_back sample_reg_popped 0 = Some (It 12292 2 NULL)
  ∧ (∃ it, reg_walk_back sample_reg_popped 1 = Some it ∧ curr it = NULL).
Proof.
  pose proof (stash_reg_iteration sample_reg_popped sample_reg_popped_reachable
                ltac:(discriminate) ltac:(by vm_compute) ltac:(by vm_compute))
    as (_ & _ & Hfwd & Hend & Hbwd & Hbegin).
  split; [|split; [|split]].
  - apply (Hfwd 0%nat 2). reflexivity.
  - exact Hend.
  - apply (Hbwd 0%nat 2). reflexivity.
  - exact Hbegin.
Defined.
